(** * Technical-indicator engine of option-chain-client

    A shallow embedding of the indicator computations found in the chart
    components (SMA/EMA, Bollinger Bands, Keltner Channels, MACD, RSI,
    DMI/ADX, TTM Squeeze, demand/supply zones).

    The TypeScript code computes on JavaScript [number]s.  Every indicator
    is embedded once, over an interface [Num] that lists exactly the
    arithmetic the source uses.  The instance [float_Num] is IEEE-754
    binary64, the arithmetic the program runs on; it is executable and
    serves to evaluate the code on concrete inputs.  Properties of the
    structure of the outputs are proved for every instance; properties
    of the order of the computed numbers are proved for binary64, from
    the specification of the primitive floats.

    Built-ins of the language whose result is not part of the program
    ([Date.prototype.getTime], [Number.prototype.toFixed],
    [Array.prototype.sort]) are parameters.

    Arrays declared [number[]] that receive [null as any] are lists of
    [option]; [None] is the "absent" marker.  Periods, indices and lengths
    are natural numbers. *)

From Stdlib Require Import List Arith Bool ZArith Lia Permutation Sorted.
From Stdlib Require String.
Import String.StringSyntax.
From Stdlib Require Import PrimFloat Floats Uint63.
Import ListNotations.

Set Implicit Arguments.

Delimit Scope string_scope with string.

(* ================================================================== *)
(** ** The arithmetic interface *)
(* ================================================================== *)

Declare Scope num_scope.
Delimit Scope num_scope with num.

(** The operations on JavaScript numbers that the indicator code uses.
    [x > y] of the source is [ltb y x]; [x >= y] is [leb y x]. *)
Class Num (A : Type) : Type := {
  of_Z : Z -> A;          (* an integer literal, a loop index, a length *)
  add : A -> A -> A;
  sub : A -> A -> A;
  mul : A -> A -> A;
  div : A -> A -> A;
  abs : A -> A;           (* Math.abs *)
  sqrt : A -> A;          (* Math.sqrt *)
  eqb : A -> A -> bool;   (* === on numbers *)
  ltb : A -> A -> bool;   (* < *)
  leb : A -> A -> bool    (* <= *)
}.

(** [Math.max(...xs)] and [Math.min(...xs)]. *)
Class MathMinMax (A : Type) : Type := {
  math_max : list A -> A;
  math_min : list A -> A
}.

Notation "x + y" := (add x y) : num_scope.
Notation "x - y" := (sub x y) : num_scope.
Notation "x * y" := (mul x y) : num_scope.
Notation "x / y" := (div x y) : num_scope.
Notation "x === y" := (eqb x y) (at level 70, no associativity) : num_scope.
Notation "x <? y" := (ltb x y) : num_scope.
Notation "x <=? y" := (leb x y) : num_scope.
Notation "x >? y" := (ltb y x) (at level 70, no associativity) : num_scope.
Notation "x >=? y" := (leb y x) (at level 70, no associativity) : num_scope.
Notation "'#' n" := (of_Z (Z.of_nat n)) (at level 9, n at level 9, format "'#' n") : num_scope.
Notation "'$' z" := (of_Z z%Z) (at level 9, z at level 9, format "'$' z") : num_scope.

(** *** Binary64 instance *)

Module Float64.

Definition of_Z (z : Z) : float :=
  match z with
  | Z0 => PrimFloat.zero
  | Zpos _ => PrimFloat.of_uint63 (Uint63.of_Z z)
  | Zneg p => PrimFloat.opp (PrimFloat.of_uint63 (Uint63.of_Z (Zpos p)))
  end.

(** One step of [Math.max]: NaN is contagious, [+0] is above [-0]. *)
Definition max2 (highest x : float) : float :=
  if PrimFloat.is_nan highest then highest
  else if PrimFloat.is_nan x then x
  else if PrimFloat.ltb highest x then x
  else if PrimFloat.ltb x highest then highest
  else if PrimFloat.get_sign highest then x else highest.

Definition min2 (lowest x : float) : float :=
  if PrimFloat.is_nan lowest then lowest
  else if PrimFloat.is_nan x then x
  else if PrimFloat.ltb x lowest then x
  else if PrimFloat.ltb lowest x then lowest
  else if PrimFloat.get_sign lowest then lowest else x.

(** A number that is not negative: a zero of either sign, a positive
    number, [+Infinity]; NaN counts too. *)
Definition SFnotNegative (x : SpecFloat.spec_float) : bool :=
  match x with
  | SpecFloat.S754_zero _ | SpecFloat.S754_nan => true
  | SpecFloat.S754_infinity s | SpecFloat.S754_finite s _ _ => negb s
  end.

(** A number whose sign bit is clear; NaN counts too. *)
Definition SFsignClear (x : SpecFloat.spec_float) : bool :=
  match x with
  | SpecFloat.S754_nan => true
  | SpecFloat.S754_zero s | SpecFloat.S754_infinity s
  | SpecFloat.S754_finite s _ _ => negb s
  end.

Definition notNegative (x : float) : Prop := SFnotNegative (Prim2SF x) = true.

Definition signClear (x : float) : Prop := SFsignClear (Prim2SF x) = true.

End Float64.

#[export] Instance float_Num : Num float := {
  of_Z := Float64.of_Z;
  add := PrimFloat.add;
  sub := PrimFloat.sub;
  mul := PrimFloat.mul;
  div := PrimFloat.div;
  abs := PrimFloat.abs;
  sqrt := PrimFloat.sqrt;
  eqb := PrimFloat.eqb;
  ltb := PrimFloat.ltb;
  leb := PrimFloat.leb
}.

#[export] Instance float_MathMinMax : MathMinMax float := {
  math_max := fun xs => fold_left Float64.max2 xs PrimFloat.neg_infinity;
  math_min := fun xs => fold_left Float64.min2 xs PrimFloat.infinity
}.

(* ================================================================== *)
(** ** Array helpers shared by the components *)
(* ================================================================== *)

Section Arrays.
Context {A : Type} {N : Num A}.
Local Open Scope num_scope.

(** [xs.reduce((sum, x) => sum + x, 0)] *)
Definition sum (xs : list A) : A := fold_left (fun s x => s + x) xs $0.

(** [xs.slice(a, b)] for [0 <= a]. *)
Definition slice (xs : list A) (a b : nat) : list A :=
  firstn (b - a) (skipn a xs).

(** [for (j = 1; j < xs.length; j++) out.push(Math.abs(xs[j] - xs[j-1]))] *)
Fixpoint absDiffs (xs : list A) : list A :=
  match xs with
  | a :: (b :: _) as rest => abs (b - a) :: absDiffs rest
  | _ => []
  end.

(** [arr.filter(v => v !== null)] *)
Definition defined (xs : list (option A)) : list A :=
  flat_map (fun o => match o with Some v => [v] | None => [] end) xs.

(** The spec's SMA: the mean of [series[i-period+1 .. i]] when
    [i >= period-1], absent before.  The source has no SMA function of
    its own; this definition follows the spec's words and is what the
    middle bands are compared with. *)
Definition SMA_spec (series : list A) (period : nat) : list (option A) :=
  map (fun i =>
         if (i <? period - 1)%nat then None
         else Some (sum (slice series (i + 1 - period) (i + 1)) / #period))
      (seq 0 (length series)).

End Arrays.

(* ================================================================== *)
(** ** ChartPriceCallComponent: bands, EMA, MACD, RSI
       (chart-price-call.component.ts; the same bodies are repeated in
       ChartMacdComponent, ChartRsiComponent and
       ChartBollingerKeltnerComponent) *)
(* ================================================================== *)

Module ChartPriceCall.

Record Bands (A : Type) : Type := {
  upperBand : list (option A);
  middleBand : list (option A);
  lowerBand : list (option A)
}.

Record MacdData (A : Type) : Type := {
  macd : list (option A);
  signal : list (option A);
  histogram : list (option A)
}.

Section Indicators.
Context {A : Type} {N : Num A}.
Local Open Scope num_scope.

(** The three values pushed by one iteration of the band loops. *)
Definition bandRows (rows : list (option A * option A * option A)) : Bands A :=
  {| upperBand := map (fun r => fst (fst r)) rows;
     middleBand := map (fun r => snd (fst r)) rows;
     lowerBand := map (fun r => snd r) rows |}.

(** Body of the loop of [calculateBollingerBands] at index [i];
    [Math.pow(d, 2)] is the product [d * d]. *)
Definition bollingerAt (prices : list A) (period : nat) (standardDeviations : A)
           (i : nat) : option A * option A * option A :=
  if (i <? period - 1)%nat then (None, None, None)
  else
    let slice := slice prices (i + 1 - period) (i + 1) in
    let sma := sum slice / #period in
    let variance :=
      fold_left (fun s price => s + (price - sma) * (price - sma)) slice $0
      / #period in
    let stdDev := sqrt variance in
    let upper := sma + standardDeviations * stdDev in
    let lower := sma - standardDeviations * stdDev in
    (Some upper, Some sma, Some lower).

Definition calculateBollingerBands (prices : list A) (period : nat)
           (standardDeviations : A) : Bands A :=
  bandRows (map (bollingerAt prices period standardDeviations)
                (seq 0 (length prices))).

(** Body of the loop of [calculateKeltnerChannels] at index [i]. *)
Definition keltnerAt (prices : list A) (period : nat) (multiplier : A)
           (i : nat) : option A * option A * option A :=
  if (i <? period - 1)%nat then (None, None, None)
  else
    let slice := slice prices (i + 1 - period) (i + 1) in
    let sma := sum slice / #period in
    let trueRanges := absDiffs slice in
    let atr := sum trueRanges / #(length trueRanges) in
    let upper := sma + multiplier * atr in
    let lower := sma - multiplier * atr in
    (Some upper, Some sma, Some lower).

Definition calculateKeltnerChannels (prices : list A) (period : nat)
           (multiplier : A) : Bands A :=
  bandRows (map (keltnerAt prices period multiplier) (seq 0 (length prices))).

(** The loop [for (i = period; i < prices.length; i++)] of
    [calculateEMA]; [prev] is [ema[i - 1]]. *)
Fixpoint emaTail (multiplier prev : A) (rest : list A) : list (option A) :=
  match rest with
  | [] => []
  | price :: rest' =>
      let e := price * multiplier + prev * ($1 - multiplier) in
      Some e :: emaTail multiplier e rest'
  end.

(** [calculateEMA].  For [period = 0] the assignment
    [ema[period - 1] = sum / period] sets no array element but the
    loop still reads that value as [ema[-1]]. *)
Definition calculateEMA (prices : list A) (period : nat) : list (option A) :=
  let multiplier := $2 / (#period + $1) in
  if (length prices <? period)%nat then repeat None (length prices)
  else
    let seed := sum (firstn period prices) / #period in
    match period with
    | O => []
    | S q => repeat None q ++ [Some seed]
    end ++ emaTail multiplier seed (skipn period prices).

(** The alignment loop of [calculateMACD]. *)
Fixpoint alignSignal (macdLine signalLine : list (option A)) (signalIndex : nat)
  : list (option A) :=
  match macdLine with
  | [] => []
  | Some _ :: rest =>
      if (signalIndex <? length signalLine)%nat
      then nth signalIndex signalLine None
           :: alignSignal rest signalLine (S signalIndex)
      else None :: alignSignal rest signalLine signalIndex
  | None :: rest => None :: alignSignal rest signalLine signalIndex
  end.

(** [a[i] !== null && b[i] !== null ? a[i] - b[i] : null] *)
Definition subDefined (a b : option A) : option A :=
  match a, b with
  | Some x, Some y => Some (x - y)
  | _, _ => None
  end.

Definition calculateMACD (prices : list A) (fastPeriod slowPeriod signalPeriod : nat)
  : MacdData A :=
  if (length prices <? slowPeriod)%nat then
    {| macd := repeat None (length prices);
       signal := repeat None (length prices);
       histogram := repeat None (length prices) |}
  else
    let fastEMA := calculateEMA prices fastPeriod in
    let slowEMA := calculateEMA prices slowPeriod in
    let macdLine :=
      map (fun i => subDefined (nth i fastEMA None) (nth i slowEMA None))
          (seq 0 (length prices)) in
    let signalLine := calculateEMA (defined macdLine) signalPeriod in
    let alignedSignalLine := alignSignal macdLine signalLine 0 in
    let histogram :=
      map (fun i => subDefined (nth i macdLine None) (nth i alignedSignalLine None))
          (seq 0 (length macdLine)) in
    {| macd := macdLine; signal := alignedSignalLine; histogram := histogram |}.

(** [change > 0 ? change : 0] and [change < 0 ? Math.abs(change) : 0]
    for every consecutive pair of prices. *)
Fixpoint gainsOf (prices : list A) : list A :=
  match prices with
  | prev :: (cur :: _) as rest =>
      let change := cur - prev in
      (if change >? $0 then change else $0) :: gainsOf rest
  | _ => []
  end.

Fixpoint lossesOf (prices : list A) : list A :=
  match prices with
  | prev :: (cur :: _) as rest =>
      let change := cur - prev in
      (if change <? $0 then abs change else $0) :: lossesOf rest
  | _ => []
  end.

(** The RSI value pushed for given averages. *)
Definition rsiOf (avgGain avgLoss : A) : A :=
  if avgLoss === $0 then $100
  else
    let rs := avgGain / avgLoss in
    $100 - $100 / ($1 + rs).

(** The loop [for (i = period + 1; i < prices.length; i++)] of
    [calculateRSI] over [gains[i-1]], [losses[i-1]]. *)
Fixpoint rsiTail (period : nat) (avgGain avgLoss : A) (gains losses : list A)
  : list (option A) :=
  match gains, losses with
  | gain :: gains', loss :: losses' =>
      let avgGain' := (avgGain * (#period - $1) + gain) / #period in
      let avgLoss' := (avgLoss * (#period - $1) + loss) / #period in
      Some (rsiOf avgGain' avgLoss') :: rsiTail period avgGain' avgLoss' gains' losses'
  | _, _ => []
  end.

Definition calculateRSI (prices : list A) (period : nat) : list (option A) :=
  if (length prices <? period + 1)%nat then repeat None (length prices)
  else
    let gains := gainsOf prices in
    let losses := lossesOf prices in
    let avgGain := sum (firstn period gains) / #period in
    let avgLoss := sum (firstn period losses) / #period in
    None :: Some (rsiOf avgGain avgLoss)
         :: rsiTail period avgGain avgLoss (skipn period gains) (skipn period losses).

End Indicators.

End ChartPriceCall.

(* ================================================================== *)
(** ** ChartDmiComponent (declared in chart-price-put.component.spec.ts) *)
(* ================================================================== *)

Module ChartDmi.

Record DmiData (A : Type) : Type := {
  plusDI : list (option A);
  minusDI : list (option A);
  adx : list (option A)
}.

Section Dmi.
Context {A : Type} {N : Num A}.
Local Open Scope num_scope.

(** The loop [for (i = period; i < values.length; i++)] of
    [wildersSmoothing]; [prevSmoothed] is the last value pushed. *)
Fixpoint wilderTail (period : nat) (prevSmoothed : A) (rest : list A) : list A :=
  match rest with
  | [] => []
  | v :: rest' =>
      let newSmoothed := (prevSmoothed * (#period - $1) + v) / #period in
      newSmoothed :: wilderTail period newSmoothed rest'
  end.

Definition wildersSmoothing (values : list A) (period : nat) : list A :=
  if (length values <? period)%nat then []
  else
    let first := sum (firstn period values) / #period in
    first :: wilderTail period first (skipn period values).

(** One entry [(tr, +DM, -DM)] per consecutive pair of prices. *)
Fixpoint movesOf (prices : list A) : list (A * A * A) :=
  match prices with
  | prevPrice :: (currentPrice :: _) as rest =>
      let tr := abs (currentPrice - prevPrice) in
      let upMove := currentPrice - prevPrice in
      let downMove := prevPrice - currentPrice in
      (if (upMove >? downMove) && (upMove >? $0) then (tr, upMove, $0)
       else if (downMove >? upMove) && (downMove >? $0) then (tr, $0, downMove)
       else (tr, $0, $0)) :: movesOf rest
  | _ => []
  end.

(** Body of the loop over [smoothedTR]: the values pushed on
    [plusDIValues], [minusDIValues] and [dxValues]. *)
Definition diRow (tr smoothedPlus smoothedMinus : A) : A * A * A :=
  if tr === $0 then ($0, $0, $0)
  else
    let plusDI := smoothedPlus / tr * $100 in
    let minusDI := smoothedMinus / tr * $100 in
    let diSum := plusDI + minusDI in
    let dx := if diSum === $0 then $0
              else abs (plusDI - minusDI) / diSum * $100 in
    (plusDI, minusDI, dx).

(** The three smoothed series have one length, so the indexed loop
    is a walk over their entries side by side. *)
Definition diRows (smoothedTR smoothedPlusDM smoothedMinusDM : list A)
  : list (A * A * A) :=
  map (fun r => diRow (fst r) (fst (snd r)) (snd (snd r)))
      (combine smoothedTR (combine smoothedPlusDM smoothedMinusDM)).

(** Body of the output loop at index [i]. *)
Definition outputAt (period : nat) (plusDIValues minusDIValues adxValues : list A)
           (i : nat) : option A * option A * option A :=
  if (i <? period)%nat then (None, None, None)
  else
    let diIndex := (i - period)%nat in
    if (diIndex <? length plusDIValues)%nat then
      (nth_error plusDIValues diIndex,
       nth_error minusDIValues diIndex,
       if (i <? period * 2 - 1)%nat || (length adxValues <=? diIndex)%nat then None
       else
         let adxIndex := (diIndex + 1 - period)%nat in
         if (adxIndex <? length adxValues)%nat then nth_error adxValues adxIndex
         else None)
    else (None, None, None).

Definition calculateDMI (prices : list A) (period : nat) : DmiData A :=
  if (length prices <? period + 1)%nat then
    {| plusDI := repeat None (length prices);
       minusDI := repeat None (length prices);
       adx := repeat None (length prices) |}
  else
    let moves := movesOf prices in
    let trueRanges := map (fun m => fst (fst m)) moves in
    let plusDM := map (fun m => snd (fst m)) moves in
    let minusDM := map (fun m => snd m) moves in
    let smoothedTR := wildersSmoothing trueRanges period in
    let smoothedPlusDM := wildersSmoothing plusDM period in
    let smoothedMinusDM := wildersSmoothing minusDM period in
    let rows := diRows smoothedTR smoothedPlusDM smoothedMinusDM in
    let plusDIValues := map (fun r => fst (fst r)) rows in
    let minusDIValues := map (fun r => snd (fst r)) rows in
    let dxValues := map (fun r => snd r) rows in
    let adxValues := wildersSmoothing dxValues period in
    let out := map (outputAt period plusDIValues minusDIValues adxValues)
                   (seq 0 (length prices)) in
    {| plusDI := map (fun r => fst (fst r)) out;
       minusDI := map (fun r => snd (fst r)) out;
       adx := map (fun r => snd r) out |}.

End Dmi.

End ChartDmi.

(* ================================================================== *)
(** ** ChartPricePutComponent: per-view TTM Squeeze, zones, DMI
       (chart-price-put.component.ts; the zone detector is repeated
       verbatim in ChartPriceContainer2Component) *)
(* ================================================================== *)

Module ChartPricePut.

Record TtmSqueeze (A : Type) : Type := {
  upperBand : list (option A);
  lowerBand : list (option A);
  momentum : list (option A);
  squeeze : list bool;
  histogram : list (option A)
}.

Inductive SwingType : Type := high | low.

Record SwingPoint (A : Type) : Type := {
  index : nat;
  sp_price : A;
  type : SwingType
}.

(** A date read from [dates] is [None] when the read is out of range
    (JavaScript's [undefined]). *)
Record Zone (A : Type) : Type := {
  price : A;
  touches : nat;
  startDate : option String.string;
  endDate : option String.string
}.

Record Zones (A : Type) : Type := {
  demand : list (Zone A);
  supply : list (Zone A)
}.

Record DmiData (A : Type) : Type := {
  plusDI : list (option A);
  minusDI : list (option A);
  adx : list (option A)
}.

(** How a call ends: the value it leaves, or an exception. *)
Inductive Completion (T : Type) : Type :=
| Returns (v : T)
| Throws (message : String.string).
Arguments Throws {T} message.

Section PerView.
Context {A : Type} {N : Num A}.
Local Open Scope num_scope.

(** *** TTM Squeeze (per-view variant) *)

(** Body of the loop of [calculateTTMSqueeze] at index [i]:
    (upperBand, lowerBand, momentum, squeeze, histogram). *)
Definition ttmAt (prices : list A) (period : nat) (kcMultiplier bbMultiplier : A)
           (i : nat) : option A * option A * option A * bool * option A :=
  if (i <? period - 1)%nat then (None, None, None, false, None)
  else
    let slice := slice prices (i + 1 - period) (i + 1) in
    let trueRanges := absDiffs slice in
    let avgTrueRange := sum trueRanges / #(length trueRanges) in
    let sma := sum slice / #period in
    let kcUpper := sma + kcMultiplier * avgTrueRange in
    let kcLower := sma - kcMultiplier * avgTrueRange in
    let variance :=
      fold_left (fun s price => s + (price - sma) * (price - sma)) slice $0
      / #period in
    let stdDev := sqrt variance in
    let bbUpper := sma + bbMultiplier * stdDev in
    let bbLower := sma - bbMultiplier * stdDev in
    let bbWidth := bbUpper - bbLower in
    let kcWidth := kcUpper - kcLower in
    let squeezeMomentum := bbWidth - kcWidth in
    let isInSqueeze := (bbUpper <? kcUpper) && (bbLower >? kcLower) in
    (Some kcUpper, Some kcLower, Some squeezeMomentum, isInSqueeze,
     Some squeezeMomentum).

Definition calculateTTMSqueeze (prices : list A) (period : nat)
           (kcMultiplier bbMultiplier : A) : TtmSqueeze A :=
  let rows := map (ttmAt prices period kcMultiplier bbMultiplier)
                  (seq 0 (length prices)) in
  {| upperBand := map (fun r => fst (fst (fst (fst r)))) rows;
     lowerBand := map (fun r => snd (fst (fst (fst r)))) rows;
     momentum := map (fun r => snd (fst (fst r))) rows;
     squeeze := map (fun r => snd (fst r)) rows;
     histogram := map (fun r => snd r) rows |}.

(** *** Demand/supply zones *)

Definition lookbackPeriod : nat := 5.
Definition minZoneStrength : nat := 2.
(** The literal [0.02]; dividing 2 by 100 gives the same binary64. *)
Definition tolerance : A := $2 / $100.

(** A read [prices[j]]; comparing [undefined] is false. *)
Definition geAt (prices : list A) (j : nat) (currentPrice : A) : bool :=
  match nth_error prices j with
  | Some pj => pj >=? currentPrice
  | None => false
  end.

Definition leAt (prices : list A) (j : nat) (currentPrice : A) : bool :=
  match nth_error prices j with
  | Some pj => pj <=? currentPrice
  | None => false
  end.

(** The inner loops over [j = i - lookbackPeriod .. i + lookbackPeriod]. *)
Definition isSwingHigh (prices : list A) (i : nat) (currentPrice : A) : bool :=
  forallb (fun j => negb (negb (j =? i)%nat && geAt prices j currentPrice))
          (seq (i - lookbackPeriod) (2 * lookbackPeriod + 1)).

Definition isSwingLow (prices : list A) (i : nat) (currentPrice : A) : bool :=
  forallb (fun j => negb (negb (j =? i)%nat && leAt prices j currentPrice))
          (seq (i - lookbackPeriod) (2 * lookbackPeriod + 1)).

(** Body of the outer swing loop: at most one point per index. *)
Definition swingAt (prices : list A) (i : nat) : list (SwingPoint A) :=
  match nth_error prices i with
  | None => []
  | Some currentPrice =>
      if isSwingHigh prices i currentPrice
      then [ {| index := i; sp_price := currentPrice; type := high |} ]
      else if isSwingLow prices i currentPrice
      then [ {| index := i; sp_price := currentPrice; type := low |} ]
      else []
  end.

(** [for (i = lookbackPeriod; i < prices.length - lookbackPeriod; i++)] *)
Definition swingPoints (prices : list A) : list (SwingPoint A) :=
  flat_map (swingAt prices)
           (seq lookbackPeriod (length prices - 2 * lookbackPeriod)).

Definition isType (t : SwingType) (p : SwingPoint A) : bool :=
  match t, type p with
  | high, high => true
  | low, low => true
  | _, _ => false
  end.

(** The inner loop over the zones found so far: the first zone within
    tolerance is touched; [None] when [zoneFound] stays false. *)
Fixpoint touchZone (zones : list (Zone A)) (current : SwingPoint A)
         (dates : list String.string) : option (list (Zone A)) :=
  match zones with
  | [] => None
  | zone :: rest =>
      let priceDiff := abs (sp_price current - price zone) / price zone in
      if priceDiff <=? tolerance then
        Some ({| price := price zone;
                 touches := S (touches zone);
                 startDate := startDate zone;
                 endDate := nth_error dates (index current) |} :: rest)
      else
        match touchZone rest current dates with
        | Some rest' => Some (zone :: rest')
        | None => None
        end
  end.

(** One iteration of the loop over the swing lows (or highs). *)
Definition addSwing (dates : list String.string) (zones : list (Zone A))
           (current : SwingPoint A) : list (Zone A) :=
  match touchZone zones current dates with
  | Some zones' => zones'
  | None =>
      zones ++ [ {| price := sp_price current;
                    touches := 1;
                    startDate := nth_error dates (index current);
                    endDate := nth_error dates (index current) |} ]
  end.

Definition clusterZones (dates : list String.string)
           (points : list (SwingPoint A)) : list (Zone A) :=
  fold_left (addSwing dates) points [].

(** [new Date(d).getTime()], a built-in, is a parameter. *)
Variable getTime : option String.string -> A.

(** The comparator [(a, b) => getTime(b.endDate) - getTime(a.endDate)]. *)
Definition byRecency (a b : Zone A) : A :=
  getTime (endDate b) - getTime (endDate a).

(** A sort procedure to evaluate examples with: stable insertion, [b]
    going before [a] when [compareFn(a, b)] is positive (a NaN result
    counts as 0). *)
Fixpoint insertSorted (compareFn : Zone A -> Zone A -> A) (a : Zone A)
         (sorted : list (Zone A)) : list (Zone A) :=
  match sorted with
  | [] => [a]
  | b :: rest =>
      if compareFn a b >? $0
      then b :: insertSorted compareFn a rest
      else a :: sorted
  end.

Definition insertionSort (compareFn : Zone A -> Zone A -> A)
           (zones : list (Zone A)) : list (Zone A) :=
  fold_right (insertSorted compareFn) [] zones.

(** [Array.prototype.sort(compareFn)], a built-in, is a parameter.  The
    language fixes the resulting order only for a consistent comparator
    (and [compareFn] is not one when some end dates are missing or
    unparsable: the order then depends on the engine); in every case the
    result holds the elements of the array, each as often as before. *)
Variable arraySort : (Zone A -> Zone A -> A) -> list (Zone A) -> list (Zone A).

Definition strongest (zones : list (Zone A)) : list (Zone A) :=
  firstn 5
    (arraySort byRecency
       (filter (fun zone => (minZoneStrength <=? touches zone)%nat) zones)).

Definition demandSupplyZones (prices : list A) (dates : list String.string)
  : Zones A :=
  if (length prices <? 10)%nat then {| demand := []; supply := [] |}
  else
    let swingPoints := swingPoints prices in
    let swingLows := filter (isType low) swingPoints in
    let demandZones := clusterZones dates swingLows in
    let swingHighs := filter (isType high) swingPoints in
    let supplyZones := clusterZones dates swingHighs in
    {| demand := strongest demandZones; supply := strongest supplyZones |}.

(** [calculateDemandSupplyZones].  No statement of its body can raise
    an error: there is no [throw]; the reads [prices[j]] and [dates[k]]
    out of range give [undefined]; a comparison with [undefined] is
    false; [new Date(undefined).getTime()] is NaN.  So it completes
    normally on every input, leaving its result in
    [this.demandSupplyZones]. *)
Definition calculateDemandSupplyZones (prices : list A)
           (dates : list String.string) : Completion (Zones A) :=
  Returns (demandSupplyZones prices dates).

End PerView.

Section PerViewDmi.
Context {A : Type} {N : Num A} {M : MathMinMax A}.
Local Open Scope num_scope.

(** A read [xs[i]] of a number array.  Every such read below is in
    range; out of range it is [undefined], NaN in arithmetic. *)
Definition readNum (xs : list A) (i : nat) : A := nth i xs ($0 / $0).

Fixpoint smoothTail (period : nat) (prev : A) (rest : list A) : list A :=
  match rest with
  | [] => []
  | v :: rest' =>
      let newValue := (prev * (#period - $1) + v) / #period in
      newValue :: smoothTail period newValue rest'
  end.

Definition calculateWilderSmoothing (values : list A) (period : nat) : list A :=
  let first := sum (firstn period values) / #(Nat.min period (length values)) in
  first :: smoothTail period first (skipn period values).

(** [high] and [low] are both [prices[i]]. *)
Fixpoint trueRangesOf (prices : list A) : list A :=
  match prices with
  | prevClose :: (cur :: _) as rest =>
      let high := cur in
      let low := cur in
      math_max [high - low; abs (high - prevClose); abs (low - prevClose)]
      :: trueRangesOf rest
  | _ => []
  end.

(** One entry [(+DM, -DM)] per consecutive pair of prices. *)
Fixpoint directionalMoves (prices : list A) : list (A * A) :=
  match prices with
  | prev :: (cur :: _) as rest =>
      let highDiff := cur - prev in
      let lowDiff := prev - cur in
      (if (highDiff >? lowDiff) && (highDiff >? $0) then (highDiff, $0)
       else if (lowDiff >? highDiff) && (lowDiff >? $0) then ($0, lowDiff)
       else ($0, $0)) :: directionalMoves rest
  | _ => []
  end.

Definition dxOf (plusDI minusDI : A) : A :=
  abs (plusDI - minusDI) / (plusDI + minusDI) * $100.

(** The first ADX value: the loop over [j = i - period + 1 .. i]
    that accumulates [sum] and [count]. *)
Definition firstAdx (period : nat) (plusDIs minusDIs : list (option A)) (i : nat)
  : option A :=
  let acc :=
    fold_left
      (fun (acc : A * nat) j =>
         if (period <=? j)%nat && (j <? length plusDIs)%nat then
           match nth j plusDIs None, nth j minusDIs None with
           | Some plusDIVal, Some minusDIVal =>
               (fst acc + dxOf plusDIVal minusDIVal, S (snd acc))
           | _, _ => acc
           end
         else acc)
      (seq (i + 1 - period) period) ($0, 0%nat) in
  if (0 <? snd acc)%nat then Some (fst acc / #(snd acc)) else None.

(** One iteration of the output loop of [calculateDMI] on the arrays
    built so far. *)
Definition dmiStep (period : nat) (smoothedTR smoothedPlusDM smoothedMinusDM : list A)
           (st : DmiData A) (i : nat) : DmiData A :=
  if (i <? period)%nat then
    {| plusDI := plusDI st ++ [None];
       minusDI := minusDI st ++ [None];
       adx := adx st ++ [None] |}
  else
    let plusDI' :=
      readNum smoothedPlusDM (i - period) / readNum smoothedTR (i - period) * $100 in
    let minusDI' :=
      readNum smoothedMinusDM (i - period) / readNum smoothedTR (i - period) * $100 in
    let plusDIs := plusDI st ++ [Some plusDI'] in
    let minusDIs := minusDI st ++ [Some minusDI'] in
    let dx := dxOf plusDI' minusDI' in
    let newAdx :=
      if (i <? period * 2 - 1)%nat then None
      else
        match rev (defined (adx st)) with
        | [] => firstAdx period plusDIs minusDIs i
        | prevADX :: _ => Some ((prevADX * (#period - $1) + dx) / #period)
        end in
    {| plusDI := plusDIs; minusDI := minusDIs; adx := adx st ++ [newAdx] |}.

Definition calculateDMI (prices : list A) (period : nat) : DmiData A :=
  if (length prices <? period + 1)%nat then
    {| plusDI := repeat None (length prices);
       minusDI := repeat None (length prices);
       adx := repeat None (length prices) |}
  else
    let trueRanges := trueRangesOf prices in
    let moves := directionalMoves prices in
    let plusDM := map fst moves in
    let minusDM := map snd moves in
    let smoothedTR := calculateWilderSmoothing trueRanges period in
    let smoothedPlusDM := calculateWilderSmoothing plusDM period in
    let smoothedMinusDM := calculateWilderSmoothing minusDM period in
    fold_left (dmiStep period smoothedTR smoothedPlusDM smoothedMinusDM)
              (seq 0 (length prices))
              {| plusDI := []; minusDI := []; adx := [] |}.

End PerViewDmi.

End ChartPricePut.

(* ================================================================== *)
(** ** ChartTtmSqueezeComponent (chart-ttm-squeeze.component.ts) *)
(* ================================================================== *)

Module ChartTtmSqueeze.

Record TTMSqueezeData (A : Type) : Type := {
  upperBand : list (option A);
  lowerBand : list (option A);
  momentum : list (option A);
  squeeze : list bool;
  histogram : list (option A);
  barColors : list String.string
}.

Section Ttm.
Context {A : Type} {N : Num A} {M : MathMinMax A}.
Local Open Scope num_scope.

(** The accumulation loop of [linearRegression]:
    (sumX, sumY, sumXY, sumX2). *)
Definition regressionSums (values : list A) : A * A * A * A :=
  fold_left
    (fun acc iv =>
       let i := #(fst iv) in
       let y := snd iv in
       (fst (fst (fst acc)) + i,
        snd (fst (fst acc)) + y,
        snd (fst acc) + i * y,
        snd acc + i * i))
    (combine (seq 0 (length values)) values)
    ($0, $0, $0, $0).

Definition denominatorOf (values : list A) : A :=
  let n := length values in
  let sumX := fst (fst (fst (regressionSums values))) in
  let sumX2 := snd (regressionSums values) in
  #n * sumX2 - sumX * sumX.

Definition linearRegression (values : list A) : A :=
  let n := length values in
  match values with
  | [] => $0
  | [v] => v
  | _ =>
      let sumX := fst (fst (fst (regressionSums values))) in
      let sumY := snd (fst (fst (regressionSums values))) in
      let sumXY := snd (fst (regressionSums values)) in
      let denominator := denominatorOf values in
      if denominator === $0 then nth (n - 1) values ($0 / $0)
      else
        let slope := (#n * sumXY - sumX * sumY) / denominator in
        let intercept := (sumY - slope * sumX) / #n in
        intercept + slope * (#n - $1)
  end.

(** [kMidpoint] of the window that ends at [k]. *)
Definition midpointAt (prices : list A) (period k : nat) : A :=
  let kSlice := slice prices (k + 1 - period) (k + 1) in
  let kSma := sum kSlice / #period in
  let kHighest := math_max kSlice in
  let kLowest := math_min kSlice in
  let kDonchianMid := (kHighest + kLowest) / $2 in
  (kDonchianMid + kSma) / $2.

(** The base values [prices[k] - kMidpoint] for
    [k = i - period + 1 .. i], kept when [k >= period - 1]. *)
Definition valSeries (prices : list A) (period i : nat) : list A :=
  flat_map
    (fun k =>
       if (period - 1 <=? k)%nat
       then [nth k prices ($0 / $0) - midpointAt prices period k]
       else [])
    (seq (i + 1 - period) period).

(** Body of the first pass at index [i]:
    (upperBand, lowerBand, rawMomentum, squeeze). *)
Definition firstPassAt (prices : list A) (period : nat) (kcMultiplier bbMultiplier : A)
           (i : nat) : option A * option A * option A * bool :=
  if (i <? period - 1)%nat then (None, None, None, false)
  else
    let slice := slice prices (i + 1 - period) (i + 1) in
    let trueRanges := absDiffs slice in
    let avgTrueRange := sum trueRanges / #(length trueRanges) in
    let sma := sum slice / #period in
    let kcUpper := sma + kcMultiplier * avgTrueRange in
    let kcLower := sma - kcMultiplier * avgTrueRange in
    let variance :=
      fold_left (fun s price => s + (price - sma) * (price - sma)) slice $0
      / #period in
    let stdDev := sqrt variance in
    let bbUpper := sma + bbMultiplier * stdDev in
    let bbLower := sma - bbMultiplier * stdDev in
    let isInSqueeze := (bbUpper <? kcUpper) && (bbLower >? kcLower) in
    let linRegValue := linearRegression (valSeries prices period i) in
    (Some kcUpper, Some kcLower, Some linRegValue, isInSqueeze).

(** Body of the second pass: the colour of one bar. *)
Definition barColor (currentMomentum prevMomentum : option A) : String.string :=
  match currentMomentum with
  | None => "rgba(128, 128, 128, 0.5)"%string
  | Some current =>
      let isPositive := current >=? $0 in
      let isIncreasing :=
        match prevMomentum with
        | Some prev => current >? prev
        | None => true
        end in
      if isPositive
      then (if isIncreasing then "#2196F3" else "#00BCD4")%string
      else (if isIncreasing then "#FFEB3B" else "#F44336")%string
  end.

Definition calculateTTMSqueeze (prices : list A) (period : nat)
           (kcMultiplier bbMultiplier : A) : TTMSqueezeData A :=
  let rows := map (firstPassAt prices period kcMultiplier bbMultiplier)
                  (seq 0 (length prices)) in
  let rawMomentum := map (fun r => snd (fst r)) rows in
  {| upperBand := map (fun r => fst (fst (fst r))) rows;
     lowerBand := map (fun r => snd (fst (fst r))) rows;
     momentum := rawMomentum;
     squeeze := map (fun r => snd r) rows;
     histogram := rawMomentum;
     barColors :=
       map (fun i =>
              barColor (nth i rawMomentum None)
                       (match i with
                        | O => None
                        | S j => nth j rawMomentum None
                        end))
           (seq 0 (length rawMomentum)) |}.

End Ttm.

End ChartTtmSqueeze.


(* ================================================================== *)
(** ** Summary strings of the chart components
       ([getRSIInfo] of ChartRsiComponent, [getMACDInfo] of
       ChartMacdComponent and ChartPriceCallComponent, [getDMIInfo] of
       ChartDmiComponent, [getTTMSqueezeInfo] of ChartTtmSqueezeComponent,
       [getDemandSupplyZonesInfo] of ChartPricePutComponent) *)
(* ================================================================== *)

Module Summaries.

(** String concatenation of the template literals. *)
Local Infix "++" := String.append (right associativity, at level 60) : string_scope.

Section Info.
Context {A : Type} {N : Num A}.
Local Open Scope num_scope.

(** [x.toFixed(digits)], a built-in, is a parameter. *)
Variable toFixed : nat -> A -> String.string.

(** The last element of [arr.filter(v => v !== null)]; [None] when that
    array is empty. *)
Definition lastDefined (arr : list (option A)) : option A :=
  match rev (defined arr) with
  | [] => None
  | current :: _ => Some current
  end.

Definition getRSIInfo (rsiData : list (option A)) (overbought oversold : A)
  : String.string :=
  match rsiData with
  | [] => "N/A"
  | _ =>
      match lastDefined rsiData with
      | None => "N/A"
      | Some currentRSI =>
          let rsiValue := toFixed 2 currentRSI in
          let status :=
            if currentRSI >=? overbought then "Overbought"
            else if currentRSI <=? oversold then "Oversold"
            else "Neutral" in
          "Current: " ++ rsiValue ++ "% | Status: " ++ status
      end
  end%string.

Definition getMACDInfo (macdData : ChartPriceCall.MacdData A) : String.string :=
  match ChartPriceCall.macd macdData with
  | [] => "N/A"
  | _ =>
      match lastDefined (ChartPriceCall.macd macdData),
            lastDefined (ChartPriceCall.signal macdData) with
      | Some currentMACD, Some currentSignal =>
          let currentHistogram :=
            match lastDefined (ChartPriceCall.histogram macdData) with
            | Some h => h
            | None => $0
            end in
          let macdValue := toFixed 3 currentMACD in
          let signalValue := toFixed 3 currentSignal in
          let histogramValue := toFixed 3 currentHistogram in
          let signal :=
            if currentMACD >? currentSignal then "Bullish"
            else if currentMACD <? currentSignal then "Bearish"
            else "Neutral" in
          "MACD: " ++ macdValue ++ " | Signal: " ++ signalValue
            ++ " | Histogram: " ++ histogramValue ++ " | " ++ signal
      | _, _ => "N/A"
      end
  end%string.

Definition getDMIInfo (dmiData : ChartDmi.DmiData A) : String.string :=
  match ChartDmi.plusDI dmiData with
  | [] => "N/A"
  | _ =>
      match lastDefined (ChartDmi.plusDI dmiData),
            lastDefined (ChartDmi.minusDI dmiData) with
      | Some currentPlusDI, Some currentMinusDI =>
          let currentADX :=
            match lastDefined (ChartDmi.adx dmiData) with
            | Some a => a
            | None => $0
            end in
          let plusDIValue := toFixed 1 currentPlusDI in
          let minusDIValue := toFixed 1 currentMinusDI in
          let adxValue := toFixed 1 currentADX in
          let trend :=
            if currentPlusDI >? currentMinusDI then "Bullish"
            else if currentMinusDI >? currentPlusDI then "Bearish"
            else "Neutral" in
          let strength :=
            if currentADX >=? $50 then "Very Strong"
            else if currentADX >=? $25 then "Strong"
            else if currentADX >=? $20 then "Moderate"
            else "Weak" in
          "DI+: " ++ plusDIValue ++ " | DI-: " ++ minusDIValue
            ++ " | ADX: " ++ adxValue ++ " | " ++ trend ++ " (" ++ strength ++ ")"
      | _, _ => "N/A"
      end
  end%string.

(** [getTTMSqueezeInfo].  Calling [toFixed] on [null] or [undefined]
    (the non-null assertions of the source are unchecked) is a
    TypeError. *)
Definition getTTMSqueezeInfo (ttmSqueezeData : option (ChartTtmSqueeze.TTMSqueezeData A))
  : ChartPricePut.Completion String.string :=
  match ttmSqueezeData with
  | None => ChartPricePut.Returns "N/A"%string
  | Some d =>
      match length (ChartTtmSqueeze.upperBand d) with
      | O => ChartPricePut.Returns "N/A"%string
      | S lastIndex =>
          match nth_error (ChartTtmSqueeze.upperBand d) lastIndex with
          | Some (Some upperVal) =>
              match nth_error (ChartTtmSqueeze.lowerBand d) lastIndex with
              | Some (Some lowerVal) =>
                  match nth_error (ChartTtmSqueeze.momentum d) lastIndex with
                  | Some momentumVal =>
                      let upper := toFixed 2 upperVal in
                      let lower := toFixed 2 lowerVal in
                      let momentum :=
                        match momentumVal with
                        | Some m => toFixed 4 m
                        | None => "N/A"%string
                        end in
                      let isInSqueeze := nth lastIndex (ChartTtmSqueeze.squeeze d) false in
                      let squeezeStatus :=
                        if isInSqueeze then "IN SQUEEZE"%string else "NO SQUEEZE"%string in
                      ChartPricePut.Returns
                        ("Upper: $" ++ upper ++ " | Lower: $" ++ lower
                           ++ " | Momentum: " ++ momentum
                           ++ " | Status: " ++ squeezeStatus)%string
                  | None => ChartPricePut.Throws "TypeError"%string
                  end
              | _ => ChartPricePut.Throws "TypeError"%string
              end
          | _ => ChartPricePut.Returns "N/A"%string
          end
      end
  end.

End Info.

End Summaries.

(* ================================================================== *)
(** ** Grouping the option rows by import date
       ([groupDataByDate] of ChartPriceCallComponent,
       ChartPricePutComponent and ChartPriceContainer1Component) *)
(* ================================================================== *)

Module PriceData.

Section Grouping.
Context {A : Type} {N : Num A}.
Local Open Scope num_scope.

(** The two fields of an option row that the grouping reads; both are
    optional in the source, [None] is [undefined]. *)
Record Item : Type := {
  imported_date : option String.string;
  underlying_price : option A
}.

Record Group : Type := { avgPrice : A; count : nat }.

(** The object [grouped]: its own keys with their values (the order of
    the keys plays no role in the lookups below). *)
Definition Grouped : Type := list (String.string * Group).

(** Whether a string names a property that every object inherits
    ([constructor], [toString], ...): [grouped[date]] is then truthy
    although [grouped] has no key [date] of its own, and the two
    updates go to the inherited object. *)
Variable inherited : String.string -> bool.

(** [grouped[date]] on the own keys. *)
Fixpoint lookup (grouped : Grouped) (date : String.string) : option Group :=
  match grouped with
  | [] => None
  | (k, g) :: rest => if String.eqb k date then Some g else lookup rest date
  end.

(** An assignment to the fields of [grouped[date]]. *)
Fixpoint update (grouped : Grouped) (date : String.string) (f : Group -> Group)
  : Grouped :=
  match grouped with
  | [] => []
  | (k, g) :: rest =>
      if String.eqb k date then (k, f g) :: rest
      else (k, g) :: update rest date f
  end.

(** Body of [this.data.forEach(item => ...)]. *)
Definition addItem (grouped : Grouped) (item : Item) : Grouped :=
  match imported_date item, underlying_price item with
  | Some date, Some price =>
      if String.eqb date "" then grouped
      else if inherited date then grouped
      else
        let grouped :=
          match lookup grouped date with
          | Some _ => grouped
          | None => grouped ++ [(date, {| avgPrice := $0; count := 0 |})]
          end in
        update grouped date
               (fun g => {| avgPrice := avgPrice g + price; count := S (count g) |})
  | _, _ => grouped
  end.

Definition groupDataByDate (data : list Item) : Grouped :=
  map (fun kg =>
         (fst kg,
          {| avgPrice := avgPrice (snd kg) / #(count (snd kg));
             count := count (snd kg) |}))
      (fold_left addItem data []).

(** The prices of the rows imported on [date], in the order of the rows
    (used to state what the grouping computes). *)
Definition pricesOn (data : list Item) (date : String.string) : list A :=
  flat_map (fun item =>
              match imported_date item, underlying_price item with
              | Some d, Some price => if String.eqb d date then [price] else []
              | _, _ => []
              end) data.

End Grouping.

Arguments Item : clear implicits.
Arguments Group : clear implicits.
Arguments Grouped : clear implicits.

End PriceData.

(* ================================================================== *)
(** ** Notions used to state the properties *)
(* ================================================================== *)

Section StatementNotions.
Context {A : Type} {N : Num A}.
Local Open Scope num_scope.

(** The successive values of the variables [avgGain] and [avgLoss] of
    [calculateRSI]: the plain averages of the first [period] gains and
    losses, then one Wilder update per later price. *)
Fixpoint wilderAverages (period : nat) (avgGain avgLoss : A) (gains losses : list A)
  : list (A * A) :=
  match gains, losses with
  | gain :: gains', loss :: losses' =>
      let avgGain' := (avgGain * (#period - $1) + gain) / #period in
      let avgLoss' := (avgLoss * (#period - $1) + loss) / #period in
      (avgGain', avgLoss') :: wilderAverages period avgGain' avgLoss' gains' losses'
  | _, _ => []
  end.

Definition rsiAverages (prices : list A) (period : nat) : list (A * A) :=
  let gains := ChartPriceCall.gainsOf prices in
  let losses := ChartPriceCall.lossesOf prices in
  let avgGain := sum (firstn period gains) / #period in
  let avgLoss := sum (firstn period losses) / #period in
  (avgGain, avgLoss)
    :: wilderAverages period avgGain avgLoss (skipn period gains) (skipn period losses).

(** The smoothed series of [ChartDmiComponent.calculateDMI] and the
    rows [(plusDI, minusDI, dx)] computed from them. *)
Definition smoothedTR (prices : list A) (period : nat) : list A :=
  ChartDmi.wildersSmoothing (map (fun m => fst (fst m)) (ChartDmi.movesOf prices)) period.

Definition smoothedPlusDM (prices : list A) (period : nat) : list A :=
  ChartDmi.wildersSmoothing (map (fun m => snd (fst m)) (ChartDmi.movesOf prices)) period.

Definition smoothedMinusDM (prices : list A) (period : nat) : list A :=
  ChartDmi.wildersSmoothing (map (fun m => snd m) (ChartDmi.movesOf prices)) period.

Definition diValues (prices : list A) (period : nat) : list (A * A * A) :=
  ChartDmi.diRows (smoothedTR prices period) (smoothedPlusDM prices period)
                  (smoothedMinusDM prices period).

Definition adxValues (prices : list A) (period : nat) : list A :=
  ChartDmi.wildersSmoothing (map (fun r => snd r) (diValues prices period)) period.

(** A strictly increasing series: each price is below the next one. *)
Definition increasing (prices : list A) : Prop :=
  forall i a b,
    nth_error prices i = Some a -> nth_error prices (S i) = Some b ->
    (a <? b) = true.

(** The relative distance the zone detector compares with its tolerance. *)
Definition priceDiffOf (current anchor : A) : A := abs (current - anchor) / anchor.

(** The zone a swing point touches: one more touch, a new end date, the
    same anchor price and start date. *)
Definition touched (zone : ChartPricePut.Zone A) (current : ChartPricePut.SwingPoint A)
           (dates : list String.string) : ChartPricePut.Zone A :=
  {| ChartPricePut.price := ChartPricePut.price zone;
     ChartPricePut.touches := S (ChartPricePut.touches zone);
     ChartPricePut.startDate := ChartPricePut.startDate zone;
     ChartPricePut.endDate := nth_error dates (ChartPricePut.index current) |}.

(** The zone opened by a swing point that matches no zone. *)
Definition opened (current : ChartPricePut.SwingPoint A) (dates : list String.string)
  : ChartPricePut.Zone A :=
  {| ChartPricePut.price := ChartPricePut.sp_price current;
     ChartPricePut.touches := 1;
     ChartPricePut.startDate := nth_error dates (ChartPricePut.index current);
     ChartPricePut.endDate := nth_error dates (ChartPricePut.index current) |}.

(** [point] lies outside the tolerance of a zone anchored at [anchor]:
    the test [priceDiff <= tolerance] of the clustering loop fails. *)
Definition apart (anchor point : ChartPricePut.SwingPoint A) : Prop :=
  (priceDiffOf (ChartPricePut.sp_price point) (ChartPricePut.sp_price anchor)
   <=? ChartPricePut.tolerance) = false.

(** [z] is the zone of the swing points [first :: rest]: anchored at the
    price of [first], touched once by each point, each later point
    within tolerance of the anchor, from the date label read at the
    index of [first] to the one read at the index of the last point. *)
Definition zoneOf (dates : list String.string)
           (first : ChartPricePut.SwingPoint A) (rest : list (ChartPricePut.SwingPoint A))
           (z : ChartPricePut.Zone A) : Prop :=
  ChartPricePut.price z = ChartPricePut.sp_price first
  /\ ChartPricePut.touches z = S (length rest)
  /\ ChartPricePut.startDate z = nth_error dates (ChartPricePut.index first)
  /\ ChartPricePut.endDate z
     = nth_error dates (ChartPricePut.index (last rest first))
  /\ Forall (fun p =>
               (priceDiffOf (ChartPricePut.sp_price p) (ChartPricePut.sp_price first)
                <=? ChartPricePut.tolerance) = true) rest.

(** Swing points in the order of their indices. *)
Definition byIndex (a b : ChartPricePut.SwingPoint A) : Prop :=
  ChartPricePut.index a < ChartPricePut.index b.

(** What every [Array.prototype.sort] does, whatever the comparator:
    the result is a rearrangement of the array. *)
Definition keepsElements
           (arraySort : (ChartPricePut.Zone A -> ChartPricePut.Zone A -> A)
                        -> list (ChartPricePut.Zone A) -> list (ChartPricePut.Zone A))
  : Prop :=
  forall compareFn zones, Permutation (arraySort compareFn zones) zones.

End StatementNotions.

(** A series of 22 prices whose only swing lows are 100 (index 5) and
    101 (index 16), with one swing high, 110 (index 10), between them. *)
Definition twoLowsSeries : list float :=
  [110; 109; 108; 107; 106; 100; 106; 107; 108; 109; 110;
   109; 108; 107; 106; 105; 101; 105; 106; 107; 108; 109]%float.

(** The same series continued to a third swing low, 50 (index 27),
    far from the first two. *)
Definition threeLowsSeries : list float :=
  [110; 109; 108; 107; 106; 100; 106; 107; 108; 109; 110;
   109; 108; 107; 106; 105; 101; 105; 106; 107; 108; 109;
   115; 90; 80; 70; 60; 50; 60; 70; 80; 90; 95]%float.

(** The 15 rising prices of the RSI example. *)
Definition risingSeries : list float :=
  [1; 2; 3; 4; 5; 6; 7; 8; 9; 10; 11; 12; 13; 14; 15]%float.

(** [lia] and [nia] after hiding the powers of two. *)
Ltac hide_pow :=
  repeat match goal with
         | |- context [Z.pow ?a ?b] =>
             let x := fresh "pw" in
             let Hx := fresh "Hpw" in
             remember (Z.pow a b) as x eqn:Hx in *; clear Hx
         | H : context [Z.pow ?a ?b] |- _ =>
             let x := fresh "pw" in
             let Hx := fresh "Hpw" in
             remember (Z.pow a b) as x eqn:Hx in *; clear Hx
         end.
Ltac pow_lia := hide_pow; lia.
Ltac pow_nia := hide_pow; nia.

(* ================================================================== *)
(** * Properties *)
(* ================================================================== *)

Unset Implicit Arguments.

(** ** Loops that push one entry per index *)

Section IndexedLoops.
Variables (T U : Type).

Lemma nth_error_rows (f : nat -> T) (n i : nat) :
  i < n -> nth_error (map f (seq 0 n)) i = Some (f i).
Proof.
  intros Hi.
  rewrite nth_error_map, nth_error_seq.
  destruct (Nat.ltb_spec i n); [reflexivity | lia].
Qed.

Lemma nth_error_rows_proj (g : T -> U) (f : nat -> T) (n i : nat) :
  i < n -> nth_error (map g (map f (seq 0 n))) i = Some (g (f i)).
Proof.
  intros Hi.
  rewrite map_map, nth_error_map, nth_error_seq.
  destruct (Nat.ltb_spec i n); [reflexivity | lia].
Qed.

Lemma length_rows (f : nat -> T) (n : nat) : length (map f (seq 0 n)) = n.
Proof. now rewrite length_map, length_seq. Qed.

Lemma nth_error_repeat_lt (x : T) (n i : nat) :
  i < n -> nth_error (repeat x n) i = Some x.
Proof.
  revert i; induction n as [|n IH]; intros [|i] Hi; simpl; try lia; auto.
  apply IH; lia.
Qed.

End IndexedLoops.

(** ** EMA: length, warm-up and seed (C3) *)

Section EmaProperties.
Context {A : Type} {N : Num A}.
Import ChartPriceCall.

Lemma slice_from_0 (xs : list A) (b : nat) : slice xs 0 b = firstn b xs.
Proof. unfold slice. now rewrite Nat.sub_0_r. Qed.

Lemma emaTail_length (k prev : A) (rest : list A) :
  length (emaTail k prev rest) = length rest.
Proof.
  revert prev; induction rest as [|p r IH]; intros prev; simpl; auto.
Qed.

Lemma calculateEMA_length (prices : list A) (period : nat) :
  length (calculateEMA prices period) = length prices.
Proof.
  unfold calculateEMA.
  destruct (Nat.ltb_spec (length prices) period) as [Hlt | Hge].
  - apply repeat_length.
  - rewrite length_app, emaTail_length, length_skipn.
    destruct period as [|q]; simpl length.
    + lia.
    + rewrite length_app, repeat_length. simpl. lia.
Qed.

(** The value stored at [ema[period - 1]]. *)
Lemma calculateEMA_seed (prices : list A) (period : nat) :
  1 <= period -> period <= length prices ->
  nth_error (calculateEMA prices period) (period - 1)
  = Some (Some (sum (firstn period prices) / #period)%num).
Proof.
  intros Hp Hlen. unfold calculateEMA.
  destruct (Nat.ltb_spec (length prices) period) as [Hlt | _]; [lia|].
  destruct period as [|q]; [lia|].
  replace (S q - 1) with q by lia.
  rewrite nth_error_app1 by (rewrite length_app, repeat_length; simpl; lia).
  rewrite nth_error_app2 by (rewrite repeat_length; lia).
  rewrite repeat_length, Nat.sub_diag. reflexivity.
Qed.

Lemma calculateEMA_warmup (prices : list A) (period i : nat) :
  i < period - 1 -> i < length prices ->
  nth_error (calculateEMA prices period) i = Some None.
Proof.
  intros Hi Hlen. unfold calculateEMA.
  destruct (Nat.ltb_spec (length prices) period) as [Hlt | Hge].
  - now apply nth_error_repeat_lt.
  - destruct period as [|q]; [lia|].
    rewrite nth_error_app1 by (rewrite length_app, repeat_length; simpl; lia).
    rewrite nth_error_app1 by (rewrite repeat_length; lia).
    apply nth_error_repeat_lt. lia.
Qed.

Lemma calculateEMA_short (prices : list A) (period i : nat) :
  length prices < period -> i < length prices ->
  nth_error (calculateEMA prices period) i = Some None.
Proof.
  intros Hlt Hi. unfold calculateEMA.
  destruct (Nat.ltb_spec (length prices) period) as [_ | Hge]; [|lia].
  now apply nth_error_repeat_lt.
Qed.

Lemma SMA_spec_at (series : list A) (period i : nat) :
  i < length series ->
  nth_error (SMA_spec series period) i
  = Some (if (i <? period - 1)%nat then None
          else Some (sum (slice series (i + 1 - period) (i + 1)) / #period)%num).
Proof. intros Hi. unfold SMA_spec. now rewrite nth_error_rows. Qed.

Lemma bollinger_middle_at (prices : list A) (period : nat) (k : A) (i : nat) :
  i < length prices ->
  nth_error (middleBand (calculateBollingerBands prices period k)) i
  = nth_error (SMA_spec prices period) i.
Proof.
  intros Hi. rewrite SMA_spec_at by exact Hi.
  unfold calculateBollingerBands, bandRows; simpl middleBand.
  rewrite nth_error_rows_proj by exact Hi.
  unfold bollingerAt. destruct (i <? period - 1)%nat; reflexivity.
Qed.

(** C3. For a period P >= 1: when len(S) >= P, the EMA entry at index
    P-1 is the SMA of the first P values (the same entry as the spec's
    SMA and as the Bollinger middle band there, computed by the same
    left-to-right sum, so equal in any arithmetic) and every entry
    before P-1 is absent; when len(S) < P every entry is absent.  The
    EMA has one entry per input position. *)
Theorem C3_ema_seed_equals_sma (S : list A) (P : nat) :
  1 <= P ->
  length (calculateEMA S P) = length S
  /\ (P <= length S ->
      nth_error (calculateEMA S P) (P - 1) = nth_error (SMA_spec S P) (P - 1)
      /\ nth_error (SMA_spec S P) (P - 1)
         = Some (Some (sum (firstn P S) / #P)%num)
      /\ (forall k, nth_error (calculateEMA S P) (P - 1)
                    = nth_error (middleBand (calculateBollingerBands S P k)) (P - 1))
      /\ (forall i, i < P - 1 -> nth_error (calculateEMA S P) i = Some None))
  /\ (length S < P ->
      forall i, i < length S -> nth_error (calculateEMA S P) i = Some None).
Proof.
  intros HP. split; [apply calculateEMA_length|]. split.
  - intros Hlen.
    assert (Hsma : nth_error (SMA_spec S P) (P - 1)
                   = Some (Some (sum (firstn P S) / #P)%num)).
    { rewrite SMA_spec_at by lia.
      rewrite Nat.ltb_irrefl.
      replace (P - 1 + 1 - P) with 0 by lia.
      replace (P - 1 + 1) with P by lia.
      now rewrite slice_from_0. }
    repeat split.
    + rewrite Hsma. now apply calculateEMA_seed.
    + exact Hsma.
    + intros k. rewrite bollinger_middle_at by lia.
      rewrite Hsma. now apply calculateEMA_seed.
    + intros i Hi. apply calculateEMA_warmup; lia.
  - intros Hlt i Hi. now apply calculateEMA_short.
Qed.

End EmaProperties.

Open Scope float_scope.

Lemma C3_ema_seed_equals_sma_witness :
  1 <= 3
  /\ 3 <= length [10; 11; 12; 11; 10]
  /\ nth_error (ChartPriceCall.calculateEMA [10; 11; 12; 11; 10] 3) (3 - 1)
     = nth_error (SMA_spec [10; 11; 12; 11; 10] 3) (3 - 1)
  /\ nth_error (SMA_spec [10; 11; 12; 11; 10] 3) (3 - 1) = Some (Some 11).
Proof.
  assert (H3 : 1 <= 3) by lia.
  assert (Hlen : 3 <= length [10; 11; 12; 11; 10]) by (simpl; lia).
  destruct (C3_ema_seed_equals_sma [10; 11; 12; 11; 10] 3 H3) as (_ & Hseed & _).
  destruct (Hseed Hlen) as (Heq & _).
  split; [exact H3|]. split; [exact Hlen|]. split; [exact Heq|].
  vm_compute; reflexivity.
Defined.

Close Scope float_scope.

(** ** MACD: alignment and histogram (C2) *)

Section MacdProperties.
Context {A : Type} {N : Num A}.
Import ChartPriceCall.

Lemma alignSignal_length (macdLine signalLine : list (option A)) (k : nat) :
  length (alignSignal macdLine signalLine k) = length macdLine.
Proof.
  revert k; induction macdLine as [|[m|] rest IH]; intros k; simpl; auto.
  destruct (k <? length signalLine)%nat; simpl; auto.
Qed.

Lemma subDefined_absent (a b : option A) :
  subDefined a b = None <-> a = None \/ b = None.
Proof.
  destruct a, b; simpl; split; intros H; auto; try discriminate;
    destruct H; discriminate.
Qed.

Lemma macd_lengths (prices : list A) (fast slow sig : nat) :
  let d := calculateMACD prices fast slow sig in
  length (macd d) = length prices
  /\ length (signal d) = length prices
  /\ length (histogram d) = length prices.
Proof.
  unfold calculateMACD.
  destruct (length prices <? slow)%nat; simpl.
  - now rewrite repeat_length.
  - rewrite alignSignal_length, !length_rows. auto.
Qed.

(** The histogram loop, entry by entry. *)
Lemma macd_histogram_at (prices : list A) (fast slow sig i : nat) :
  slow <= length prices -> i < length prices ->
  let d := calculateMACD prices fast slow sig in
  nth_error (histogram d) i
  = Some (subDefined (nth i (macd d) None) (nth i (signal d) None)).
Proof.
  intros Hslow Hi. unfold calculateMACD.
  destruct (Nat.ltb_spec (length prices) slow) as [Hlt | _]; [lia|].
  simpl. rewrite nth_error_rows by (rewrite length_rows; exact Hi).
  reflexivity.
Qed.

(** C2. The three MACD series have one entry per price.  When
    len(series) < slow all three are absent everywhere.  Otherwise the
    histogram entry is absent exactly where the MACD line or the
    realigned signal line is absent, and where both are defined it is
    their difference. *)
Theorem C2_macd_histogram (prices : list A) (fast slow sig : nat) :
  let d := calculateMACD prices fast slow sig in
  (length (macd d) = length prices
   /\ length (signal d) = length prices
   /\ length (histogram d) = length prices)
  /\ (length prices < slow ->
      forall i, i < length prices ->
        nth_error (macd d) i = Some None
        /\ nth_error (signal d) i = Some None
        /\ nth_error (histogram d) i = Some None)
  /\ (slow <= length prices ->
      forall i, i < length prices ->
        (nth_error (histogram d) i = Some None
         <-> nth_error (macd d) i = Some None
             \/ nth_error (signal d) i = Some None)
        /\ (forall m s,
              nth_error (macd d) i = Some (Some m) ->
              nth_error (signal d) i = Some (Some s) ->
              nth_error (histogram d) i = Some (Some (m - s)%num))).
Proof.
  intros d. split; [apply macd_lengths|]. split.
  - intros Hlt i Hi. subst d. unfold calculateMACD.
    destruct (Nat.ltb_spec (length prices) slow) as [_ | Hge]; [|lia].
    simpl. rewrite nth_error_repeat_lt by exact Hi. auto.
  - intros Hslow i Hi.
    pose proof (macd_lengths prices fast slow sig) as (Lm & Ls & _).
    fold d in Lm, Ls.
    pose proof (macd_histogram_at prices fast slow sig i Hslow Hi) as Hh. fold d in Hh.
    rewrite Hh.
    rewrite (nth_error_nth' (macd d) None) by lia.
    rewrite (nth_error_nth' (signal d) None) by lia.
    split.
    + split.
      * intros H. injection H as H. apply subDefined_absent in H.
        destruct H as [H | H]; rewrite H; auto.
      * intros [H | H]; injection H as H; rewrite H; simpl; auto.
        destruct (nth i (macd d) None); reflexivity.
    + intros m s Hm Hs. injection Hm as Hm. injection Hs as Hs.
      rewrite Hm, Hs. reflexivity.
Qed.

End MacdProperties.

Open Scope float_scope.

Lemma C2_macd_histogram_witness :
  length [10; 11; 12; 11; 10; 9; 10; 11] < 9
  /\ 3 <= length [10; 11; 12; 11; 10; 9; 10; 11]
  /\ nth_error (ChartPriceCall.histogram
                  (ChartPriceCall.calculateMACD [10; 11; 12; 11; 10; 9; 10; 11] 2 9 2)) 4
     = Some None
  /\ (nth_error (ChartPriceCall.histogram
                   (ChartPriceCall.calculateMACD [10; 11; 12; 11; 10; 9; 10; 11] 2 3 2)) 2
      = Some None
      <-> nth_error (ChartPriceCall.macd
                       (ChartPriceCall.calculateMACD [10; 11; 12; 11; 10; 9; 10; 11] 2 3 2)) 2
          = Some None
          \/ nth_error (ChartPriceCall.signal
                          (ChartPriceCall.calculateMACD [10; 11; 12; 11; 10; 9; 10; 11] 2 3 2)) 2
             = Some None).
Proof.
  assert (Hshort : length [10; 11; 12; 11; 10; 9; 10; 11] < 9) by (simpl; lia).
  assert (Hlong : 3 <= length [10; 11; 12; 11; 10; 9; 10; 11]) by (simpl; lia).
  split; [exact Hshort|]. split; [exact Hlong|]. split.
  - destruct (C2_macd_histogram [10; 11; 12; 11; 10; 9; 10; 11] 2 9 2) as (_ & Habs & _).
    destruct (Habs Hshort 4%nat ltac:(simpl; lia)) as (_ & _ & Hh). exact Hh.
  - destruct (C2_macd_histogram [10; 11; 12; 11; 10; 9; 10; 11] 2 3 2) as (_ & _ & Hdef).
    destruct (Hdef Hlong 2%nat ltac:(simpl; lia)) as (Hh & _). exact Hh.
Defined.

Close Scope float_scope.

(** ** RSI: shape of the output (C1) *)

Section RsiProperties.
Context {A : Type} {N : Num A}.
Import ChartPriceCall.

Lemma gainsOf_length (prices : list A) :
  length (gainsOf prices) = length prices - 1.
Proof.
  induction prices as [|a [|b r] IH]; simpl in *; auto. rewrite IH. lia.
Qed.

Lemma lossesOf_length (prices : list A) :
  length (lossesOf prices) = length prices - 1.
Proof.
  induction prices as [|a [|b r] IH]; simpl in *; auto. rewrite IH. lia.
Qed.

Lemma rsiTail_averages (period : nat) (g l : A) (gains losses : list A) :
  rsiTail period g l gains losses
  = map (fun gl => Some (rsiOf (fst gl) (snd gl)))
        (wilderAverages period g l gains losses).
Proof.
  revert g l losses; induction gains as [|x gains IH]; intros g l [|y losses];
    simpl; auto.
  now rewrite IH.
Qed.

Lemma wilderAverages_length (period : nat) (g l : A) (gains losses : list A) :
  length gains = length losses ->
  length (wilderAverages period g l gains losses) = length gains.
Proof.
  revert g l losses; induction gains as [|x gains IH]; intros g l [|y losses] H;
    simpl in *; auto; try discriminate.
Qed.

(** With enough data the output is one absent entry followed by one RSI
    value per pair of averages. *)
Lemma calculateRSI_averages (prices : list A) (period : nat) :
  period + 1 <= length prices ->
  calculateRSI prices period
  = None :: map (fun gl => Some (rsiOf (fst gl) (snd gl))) (rsiAverages prices period).
Proof.
  intros Hlen. unfold calculateRSI, rsiAverages.
  destruct (Nat.ltb_spec (length prices) (period + 1)) as [Hlt | _]; [lia|].
  simpl. now rewrite rsiTail_averages.
Qed.

Lemma rsiAverages_length (prices : list A) (period : nat) :
  period + 1 <= length prices ->
  length (rsiAverages prices period) = length prices - period.
Proof.
  intros Hlen. unfold rsiAverages. simpl.
  rewrite wilderAverages_length
    by (rewrite !length_skipn, gainsOf_length, lossesOf_length; reflexivity).
  rewrite length_skipn, gainsOf_length. lia.
Qed.

(** The array [calculateRSI] leaves has [len - period + 1] entries, its
    first defined entry is at index 1 and is computed from the plain
    averages of the first [period] gains and losses. *)
Lemma calculateRSI_shape (prices : list A) (period : nat) :
  period + 1 <= length prices ->
  length (calculateRSI prices period) = length prices + 1 - period
  /\ nth_error (calculateRSI prices period) 0 = Some None
  /\ nth_error (calculateRSI prices period) 1
     = Some (Some (rsiOf (sum (firstn period (gainsOf prices)) / #period)%num
                         (sum (firstn period (lossesOf prices)) / #period)%num)).
Proof.
  intros Hlen. rewrite calculateRSI_averages by exact Hlen.
  split; [|split; reflexivity].
  change (S (length (map (fun gl => Some (rsiOf (fst gl) (snd gl)))
                         (rsiAverages prices period)))
          = length prices + 1 - period).
  rewrite length_map, rsiAverages_length by exact Hlen. lia.
Qed.

End RsiProperties.

Open Scope float_scope.

(** C1 (the code departs from the claim). On the spec's own example, 15
    rising prices and period 14, [calculateRSI] leaves a two-entry array:
    the RSI value 100 sits at index 1, not at index 14, and there is no
    entry for the positions 2..14. *)
Theorem C1_rsi_output_misaligned :
  14 + 1 <= length risingSeries
  /\ ChartPriceCall.calculateRSI risingSeries 14 = [None; Some 100]
  /\ length (ChartPriceCall.calculateRSI risingSeries 14) <> length risingSeries
  /\ nth_error (ChartPriceCall.calculateRSI risingSeries 14) 14 = None.
Proof.
  split; [simpl; lia|]. split; [vm_compute; reflexivity|].
  split; [vm_compute; lia | vm_compute; reflexivity].
Qed.

Close Scope float_scope.

(** ** TTM Squeeze: the squeeze flags during warm-up (C10) *)

Section TtmProperties.
Context {A : Type} {N : Num A} {M : MathMinMax A}.

Lemma ttm_component_at (prices : list A) (period : nat) (kc bb : A) (i : nat) :
  i < length prices ->
  let d := ChartTtmSqueeze.calculateTTMSqueeze prices period kc bb in
  let r := ChartTtmSqueeze.firstPassAt prices period kc bb i in
  nth_error (ChartTtmSqueeze.upperBand d) i = Some (fst (fst (fst r)))
  /\ nth_error (ChartTtmSqueeze.lowerBand d) i = Some (snd (fst (fst r)))
  /\ nth_error (ChartTtmSqueeze.momentum d) i = Some (snd (fst r))
  /\ nth_error (ChartTtmSqueeze.histogram d) i = Some (snd (fst r))
  /\ nth_error (ChartTtmSqueeze.squeeze d) i = Some (snd r).
Proof.
  intros Hi. unfold ChartTtmSqueeze.calculateTTMSqueeze. simpl.
  repeat split; apply nth_error_rows_proj; exact Hi.
Qed.

Lemma ttm_per_view_at (prices : list A) (period : nat) (kc bb : A) (i : nat) :
  i < length prices ->
  let v := ChartPricePut.calculateTTMSqueeze prices period kc bb in
  let r := ChartPricePut.ttmAt prices period kc bb i in
  nth_error (ChartPricePut.upperBand v) i = Some (fst (fst (fst (fst r))))
  /\ nth_error (ChartPricePut.lowerBand v) i = Some (snd (fst (fst (fst r))))
  /\ nth_error (ChartPricePut.momentum v) i = Some (snd (fst (fst r)))
  /\ nth_error (ChartPricePut.squeeze v) i = Some (snd (fst r))
  /\ nth_error (ChartPricePut.histogram v) i = Some (snd r).
Proof.
  intros Hi. unfold ChartPricePut.calculateTTMSqueeze. simpl.
  repeat split; apply nth_error_rows_proj; exact Hi.
Qed.

(** C10. In both TTM Squeeze computations the squeeze array has one
    boolean per input position, and at every warm-up position
    (index < period - 1) the flag is [false] while the bands, the
    momentum and the histogram are absent. *)
Theorem C10_squeeze_flag_false_in_warmup
        (prices : list A) (period : nat) (kc bb : A) :
  let d := ChartTtmSqueeze.calculateTTMSqueeze prices period kc bb in
  let v := ChartPricePut.calculateTTMSqueeze prices period kc bb in
  length (ChartTtmSqueeze.squeeze d) = length prices
  /\ length (ChartPricePut.squeeze v) = length prices
  /\ forall i, i < length prices -> i < period - 1 ->
       (nth_error (ChartTtmSqueeze.squeeze d) i = Some false
        /\ nth_error (ChartTtmSqueeze.momentum d) i = Some None
        /\ nth_error (ChartTtmSqueeze.histogram d) i = Some None
        /\ nth_error (ChartTtmSqueeze.upperBand d) i = Some None
        /\ nth_error (ChartTtmSqueeze.lowerBand d) i = Some None)
       /\ (nth_error (ChartPricePut.squeeze v) i = Some false
           /\ nth_error (ChartPricePut.momentum v) i = Some None
           /\ nth_error (ChartPricePut.histogram v) i = Some None
           /\ nth_error (ChartPricePut.upperBand v) i = Some None
           /\ nth_error (ChartPricePut.lowerBand v) i = Some None).
Proof.
  intros d v. split; [|split].
  - subst d. unfold ChartTtmSqueeze.calculateTTMSqueeze. simpl.
    now rewrite length_map, length_rows.
  - subst v. unfold ChartPricePut.calculateTTMSqueeze. simpl.
    now rewrite length_map, length_rows.
  - intros i Hi Hwarm.
    assert (Hb : (i <? period - 1)%nat = true) by now apply Nat.ltb_lt.
    destruct (ttm_component_at prices period kc bb i Hi) as (U & L & Mo & H & S).
    destruct (ttm_per_view_at prices period kc bb i Hi) as (U' & L' & Mo' & S' & H').
    fold d in U, L, Mo, H, S. fold v in U', L', Mo', S', H'.
    unfold ChartTtmSqueeze.firstPassAt in U, L, Mo, H, S.
    unfold ChartPricePut.ttmAt in U', L', Mo', S', H'.
    rewrite Hb in *. simpl in *. repeat split; assumption.
Qed.

End TtmProperties.

Open Scope float_scope.

Lemma C10_squeeze_flag_false_in_warmup_witness :
  (1 < length [1; 2; 3; 4; 5; 4; 5])%nat
  /\ (1 < 3 - 1)%nat
  /\ nth_error (ChartTtmSqueeze.squeeze
                  (ChartTtmSqueeze.calculateTTMSqueeze [1; 2; 3; 4; 5; 4; 5] 3 1.5 2)) 1
     = Some false
  /\ nth_error (ChartPricePut.squeeze
                  (ChartPricePut.calculateTTMSqueeze [1; 2; 3; 4; 5; 4; 5] 3 1.5 2)) 1
     = Some false.
Proof.
  assert (Hi : (1 < length [1; 2; 3; 4; 5; 4; 5])%nat) by (simpl; lia).
  assert (Hw : (1 < 3 - 1)%nat) by (simpl; lia).
  destruct (C10_squeeze_flag_false_in_warmup [1; 2; 3; 4; 5; 4; 5] 3 1.5 2)
    as (_ & _ & Hwarm).
  destruct (Hwarm 1%nat Hi Hw) as ((Hd & _) & (Hv & _)).
  split; [exact Hi|]. split; [exact Hw|]. split; [exact Hd | exact Hv].
Defined.

Close Scope float_scope.

(** ** Zero denominators (C5) *)

Section ListFacts.
Variables (X Y : Type).

Lemma nth_error_combine_some (l1 : list X) (l2 : list Y) (k : nat) (x : X) (y : Y) :
  nth_error l1 k = Some x -> nth_error l2 k = Some y ->
  nth_error (combine l1 l2) k = Some (x, y).
Proof.
  revert l2 k; induction l1 as [|a l1 IH]; intros [|b l2] [|k] H1 H2;
    simpl in *; try discriminate.
  - congruence.
  - now apply IH.
Qed.

Lemma nth_error_same_length (l1 : list X) (l2 : list Y) (k : nat) (x : X) :
  length l1 = length l2 -> nth_error l1 k = Some x ->
  exists y, nth_error l2 k = Some y.
Proof.
  intros Hlen Hx.
  assert (Hk : k < length l1) by (apply nth_error_Some; congruence).
  destruct (nth_error l2 k) as [y|] eqn:E; [now exists y|].
  apply nth_error_None in E. lia.
Qed.

Lemma nth_pred_length_last (l : list X) (d d' : X) :
  l <> [] -> nth (length l - 1) l d' = last l d.
Proof.
  intros H. destruct (exists_last H) as (front & x & ->).
  rewrite last_last, length_app, app_nth2 by (simpl; lia).
  simpl. now replace (length front + 1 - 1 - length front) with 0 by lia.
Qed.

End ListFacts.

Section DmiStructure.
Context {A : Type} {N : Num A}.
Import ChartDmi.

Lemma wilderTail_length (period : nat) (prev : A) (rest : list A) :
  length (wilderTail period prev rest) = length rest.
Proof.
  revert prev; induction rest as [|v r IH]; intros prev; simpl; auto.
Qed.

Lemma wildersSmoothing_length (values : list A) (period : nat) :
  length (wildersSmoothing values period)
  = if (length values <? period)%nat then 0 else length values + 1 - period.
Proof.
  unfold wildersSmoothing.
  destruct (Nat.ltb_spec (length values) period); simpl; auto.
  rewrite wilderTail_length, length_skipn. lia.
Qed.

Lemma movesOf_length (prices : list A) :
  length (movesOf prices) = length prices - 1.
Proof.
  induction prices as [|a [|b r] IH]; simpl in *; auto. rewrite IH. lia.
Qed.

Lemma smoothed_lengths (prices : list A) (period : nat) :
  period + 1 <= length prices ->
  length (smoothedTR prices period) = length prices - period
  /\ length (smoothedPlusDM prices period) = length prices - period
  /\ length (smoothedMinusDM prices period) = length prices - period.
Proof.
  intros Hlen. unfold smoothedTR, smoothedPlusDM, smoothedMinusDM.
  rewrite !wildersSmoothing_length, !length_map, movesOf_length.
  destruct (Nat.ltb_spec (length prices - 1) period); lia.
Qed.

Lemma diValues_length (prices : list A) (period : nat) :
  period + 1 <= length prices ->
  length (diValues prices period) = length prices - period.
Proof.
  intros Hlen. destruct (smoothed_lengths prices period Hlen) as (L1 & L2 & L3).
  unfold diValues, diRows. rewrite length_map, !length_combine, L1, L2, L3. lia.
Qed.

Lemma diValues_at (prices : list A) (period k : nat) (tr : A) :
  period + 1 <= length prices ->
  nth_error (smoothedTR prices period) k = Some tr ->
  exists sp sm,
    nth_error (smoothedPlusDM prices period) k = Some sp
    /\ nth_error (smoothedMinusDM prices period) k = Some sm
    /\ nth_error (diValues prices period) k = Some (diRow tr sp sm).
Proof.
  intros Hlen Htr. destruct (smoothed_lengths prices period Hlen) as (L1 & L2 & L3).
  assert (E12 : length (smoothedTR prices period) = length (smoothedPlusDM prices period))
    by congruence.
  assert (E13 : length (smoothedTR prices period) = length (smoothedMinusDM prices period))
    by congruence.
  destruct (nth_error_same_length _ _ _ _ _ _ E12 Htr) as (sp & Hsp).
  destruct (nth_error_same_length _ _ _ _ _ _ E13 Htr) as (sm & Hsm).
  exists sp, sm. split; [exact Hsp|]. split; [exact Hsm|].
  unfold diValues, diRows. rewrite nth_error_map.
  rewrite (nth_error_combine_some _ _ _ _ _ _ _ Htr (nth_error_combine_some _ _ _ _ _ _ _ Hsp Hsm)).
  reflexivity.
Qed.

(** What [calculateDMI] stores at index [i]. *)
Lemma calculateDMI_at (prices : list A) (period i : nat) :
  period + 1 <= length prices -> i < length prices ->
  let d := calculateDMI prices period in
  let r := outputAt period
             (map (fun r => fst (fst r)) (diValues prices period))
             (map (fun r => snd (fst r)) (diValues prices period))
             (adxValues prices period) i in
  nth_error (plusDI d) i = Some (fst (fst r))
  /\ nth_error (minusDI d) i = Some (snd (fst r))
  /\ nth_error (adx d) i = Some (snd r).
Proof.
  intros Hlen Hi. unfold calculateDMI.
  destruct (Nat.ltb_spec (length prices) (period + 1)) as [Hlt | _]; [lia|].
  simpl. repeat split; apply nth_error_rows_proj; exact Hi.
Qed.

Lemma calculateDMI_di_at (prices : list A) (period i : nat) (row : A * A * A) :
  period + 1 <= length prices -> period <= i -> i < length prices ->
  nth_error (diValues prices period) (i - period) = Some row ->
  let d := calculateDMI prices period in
  nth_error (plusDI d) i = Some (Some (fst (fst row)))
  /\ nth_error (minusDI d) i = Some (Some (snd (fst row))).
Proof.
  intros Hlen Hpi Hi Hrow d.
  destruct (calculateDMI_at prices period i Hlen Hi) as (Hp & Hm & _).
  fold d in Hp, Hm. rewrite Hp, Hm. unfold outputAt.
  destruct (Nat.ltb_spec i period) as [Hlt | _]; [lia|].
  rewrite length_map, (diValues_length prices period Hlen).
  destruct (Nat.ltb_spec (i - period) (length prices - period)) as [_ | Hge]; [|lia].
  simpl. rewrite !nth_error_map, Hrow. auto.
Qed.

End DmiStructure.

Section RegressionProperties.
Context {A : Type} {N : Num A} {M : MathMinMax A}.
Import ChartTtmSqueeze.

(** The guard of [linearRegression]: a zero denominator returns the last
    value of the series. *)
Lemma linearRegression_zero_denominator (values : list A) (d : A) :
  values <> [] ->
  (denominatorOf values === $0)%num = true ->
  linearRegression values = last values d.
Proof.
  intros Hne Hden. destruct values as [|a [|b r]].
  - contradiction.
  - reflexivity.
  - unfold linearRegression. rewrite Hden.
    apply nth_pred_length_last. discriminate.
Qed.

(** The window of base values ends with the base value at [i]. *)
Lemma valSeries_ends (prices : list A) (period i : nat) :
  1 <= period -> period - 1 <= i ->
  exists front,
    valSeries prices period i
    = front ++ [(nth i prices ($0 / $0) - midpointAt prices period i)%num].
Proof.
  intros Hp Hi. unfold valSeries.
  destruct period as [|q]; [lia|].
  rewrite seq_S, flat_map_app.
  replace (i + 1 - S q + q) with i by lia.
  exists (flat_map
            (fun k => if (S q - 1 <=? k)%nat
                      then [(nth k prices ($0 / $0) - midpointAt prices (S q) k)%num]
                      else [])
            (seq (i + 1 - S q) q)).
  f_equal. cbn [flat_map]. rewrite app_nil_r.
  destruct (Nat.leb_spec (S q - 1) i) as [_ | Hlt]; [reflexivity | lia].
Qed.

Lemma momentum_at (prices : list A) (period : nat) (kc bb : A) (i : nat) :
  period - 1 <= i -> i < length prices ->
  nth_error (momentum (calculateTTMSqueeze prices period kc bb)) i
  = Some (Some (linearRegression (valSeries prices period i))).
Proof.
  intros Hpi Hi.
  destruct (ttm_component_at prices period kc bb i Hi) as (_ & _ & Hm & _).
  rewrite Hm. unfold firstPassAt.
  destruct (Nat.ltb_spec i (period - 1)) as [Hlt | _]; [lia | reflexivity].
Qed.

End RegressionProperties.

Section ZeroDenominators.
Context {A : Type} {N : Num A} {M : MathMinMax A}.

(** C5. The guarded ratios return their fallback value itself:
    - RSI: wherever the average loss is 0 the RSI entry is the literal 100;
    - DMI (ChartDmiComponent): wherever the smoothed true range is 0 the
      +DI and -DI entries are the literal 0;
    - DX: in every computed row whose +DI + -DI is 0 the DX is the literal 0;
    - regression: when n*Sum(x^2) - (Sum x)^2 is 0 the result is the last
      value of the series, so the TTM momentum at that position is the
      last base value of its window. *)
Theorem C5_zero_denominator_fallbacks :
  (forall (prices : list A) (period k : nat) (avgGain avgLoss : A),
      period + 1 <= length prices ->
      nth_error (rsiAverages prices period) k = Some (avgGain, avgLoss) ->
      (avgLoss === $0)%num = true ->
      nth_error (ChartPriceCall.calculateRSI prices period) (S k) = Some (Some ($100)%num))
  /\ (forall (prices : list A) (period i : nat) (tr : A),
         period + 1 <= length prices -> period <= i -> i < length prices ->
         nth_error (smoothedTR prices period) (i - period) = Some tr ->
         (tr === $0)%num = true ->
         nth_error (ChartDmi.plusDI (ChartDmi.calculateDMI prices period)) i
         = Some (Some ($0)%num)
         /\ nth_error (ChartDmi.minusDI (ChartDmi.calculateDMI prices period)) i
            = Some (Some ($0)%num))
  /\ (forall (prices : list A) (period k : nat) (plusDI minusDI dx : A),
         period + 1 <= length prices ->
         nth_error (diValues prices period) k = Some (plusDI, minusDI, dx) ->
         (plusDI + minusDI === $0)%num = true ->
         dx = ($0)%num)
  /\ (forall (values : list A) (d : A),
         values <> [] ->
         (ChartTtmSqueeze.denominatorOf values === $0)%num = true ->
         ChartTtmSqueeze.linearRegression values = last values d)
  /\ (forall (prices : list A) (period : nat) (kc bb : A) (i : nat),
         1 <= period -> period - 1 <= i -> i < length prices ->
         (ChartTtmSqueeze.denominatorOf (ChartTtmSqueeze.valSeries prices period i)
          === $0)%num = true ->
         nth_error (ChartTtmSqueeze.momentum
                      (ChartTtmSqueeze.calculateTTMSqueeze prices period kc bb)) i
         = Some (Some (nth i prices ($0 / $0)
                       - ChartTtmSqueeze.midpointAt prices period i)%num)).
Proof.
  split; [|split; [|split; [|split]]].
  - intros prices period k g l Hlen Hk Hzero.
    rewrite calculateRSI_averages by exact Hlen.
    cbn [nth_error]. rewrite nth_error_map, Hk. cbn [option_map fst snd].
    unfold ChartPriceCall.rsiOf. now rewrite Hzero.
  - intros prices period i tr Hlen Hpi Hi Htr Hzero.
    destruct (diValues_at prices period (i - period) tr Hlen Htr)
      as (sp & sm & _ & _ & Hrow).
    destruct (calculateDMI_di_at prices period i _ Hlen Hpi Hi Hrow) as (Hp & Hm).
    rewrite Hp, Hm. unfold ChartDmi.diRow. rewrite Hzero. auto.
  - intros prices period k plusDI minusDI dx Hlen Hrow Hzero.
    assert (Hk : k < length (smoothedTR prices period)).
    { destruct (smoothed_lengths prices period Hlen) as (L1 & _).
      rewrite L1, <- (diValues_length prices period Hlen).
      apply nth_error_Some. congruence. }
    destruct (nth_error (smoothedTR prices period) k) as [tr|] eqn:Htr;
      [|apply nth_error_None in Htr; lia].
    destruct (diValues_at prices period k tr Hlen Htr) as (sp & sm & _ & _ & Hrow').
    rewrite Hrow in Hrow'. injection Hrow' as Hrow'.
    unfold ChartDmi.diRow in Hrow'.
    destruct (tr === $0)%num.
    + now injection Hrow' as _ _ ->.
    + injection Hrow' as Hp Hm Hdx. subst plusDI minusDI.
      rewrite Hzero in Hdx. exact Hdx.
  - intros values d. apply linearRegression_zero_denominator.
  - intros prices period kc bb i Hp Hpi Hi Hzero.
    rewrite momentum_at by assumption.
    destruct (valSeries_ends prices period i Hp Hpi) as (front & Hseries).
    rewrite (linearRegression_zero_denominator _ ($0)%num).
    + rewrite Hseries. now rewrite last_last.
    + rewrite Hseries. destruct front; discriminate.
    + exact Hzero.
Qed.

End ZeroDenominators.

Open Scope float_scope.

Lemma C5_zero_denominator_fallbacks_witness :
  nth_error (ChartPriceCall.calculateRSI [1; 2; 3; 4] 2) 1 = Some (Some 100)
  /\ nth_error (ChartDmi.plusDI (ChartDmi.calculateDMI [1; 1; 1; 1; 1] 2)) 2 = Some (Some 0)
  /\ (forall plusDI minusDI dx,
         nth_error (diValues [1; 1; 1; 1; 1] 2) 0 = Some (plusDI, minusDI, dx) -> dx = 0)
  /\ ChartTtmSqueeze.linearRegression [5] = last [5] 0
  /\ nth_error (ChartTtmSqueeze.momentum
                  (ChartTtmSqueeze.calculateTTMSqueeze [1; 2; 3] 1 1.5 2)) 1
     = Some (Some (2 - ChartTtmSqueeze.midpointAt [1; 2; 3] 1 1)%float).
Proof.
  destruct (@C5_zero_denominator_fallbacks float float_Num float_MathMinMax)
    as (Hrsi & Hdi & Hdx & Hreg & Hmom).
  split; [|split; [|split; [|split]]].
  - apply (Hrsi [1; 2; 3; 4] 2%nat 0%nat 1 0).
    + simpl; lia.
    + vm_compute; reflexivity.
    + vm_compute; reflexivity.
  - apply (Hdi [1; 1; 1; 1; 1] 2%nat 2%nat 0).
    + simpl; lia.
    + lia.
    + simpl; lia.
    + vm_compute; reflexivity.
    + vm_compute; reflexivity.
  - intros plusDI minusDI dx Hrow.
    apply (Hdx [1; 1; 1; 1; 1] 2%nat 0%nat plusDI minusDI dx).
    + simpl; lia.
    + exact Hrow.
    + vm_compute in Hrow. injection Hrow as <- <- <-. vm_compute; reflexivity.
  - apply (Hreg [5] 0).
    + discriminate.
    + vm_compute; reflexivity.
  - apply (Hmom [1; 2; 3] 1%nat 1.5 2 1%nat).
    + lia.
    + simpl; lia.
    + simpl; lia.
    + vm_compute; reflexivity.
Defined.

Close Scope float_scope.

(** ** DMI: where +DI, -DI and ADX become defined (C6) *)

Section DmiAlignment.
Context {A : Type} {N : Num A}.
Import ChartDmi.

Lemma adxValues_length (prices : list A) (period : nat) :
  period + 1 <= length prices ->
  length (adxValues prices period)
  = if (length prices - period <? period)%nat then 0
    else length prices + 1 - 2 * period.
Proof.
  intros Hlen. unfold adxValues.
  rewrite wildersSmoothing_length, length_map, (diValues_length prices period Hlen).
  destruct (length prices - period <? period)%nat; lia.
Qed.

(** ChartDmiComponent: +DI and -DI are absent before index N and defined
    at N; ADX is absent before index 2N-1; at index 2N-1 it is defined
    only when the series has at least 3N-1 prices. *)
Lemma ChartDmi_alignment (prices : list A) (n : nat) :
  1 <= n -> 2 * n <= length prices ->
  let d := calculateDMI prices n in
  (forall i, i < n ->
     nth_error (plusDI d) i = Some None /\ nth_error (minusDI d) i = Some None)
  /\ (exists p m, nth_error (plusDI d) n = Some (Some p)
                  /\ nth_error (minusDI d) n = Some (Some m))
  /\ (forall i, i < 2 * n - 1 -> nth_error (adx d) i = Some None)
  /\ ((exists v, nth_error (adx d) (2 * n - 1) = Some (Some v))
      <-> 3 * n - 1 <= length prices).
Proof.
  intros Hn Hlen d.
  assert (Hlen' : n + 1 <= length prices) by lia.
  pose proof (diValues_length prices n Hlen') as Ldi.
  pose proof (adxValues_length prices n Hlen') as Ladx.
  destruct (Nat.ltb_spec (length prices - n) n) as [Hlt | _]; [lia|].
  repeat split.
  - destruct (calculateDMI_at prices n i Hlen' ltac:(lia)) as (Hp & _).
    fold d in Hp. rewrite Hp. unfold outputAt.
    destruct (Nat.ltb_spec i n); [reflexivity | lia].
  - destruct (calculateDMI_at prices n i Hlen' ltac:(lia)) as (_ & Hm & _).
    fold d in Hm. rewrite Hm. unfold outputAt.
    destruct (Nat.ltb_spec i n); [reflexivity | lia].
  - destruct (nth_error (diValues prices n) (n - n)) as [row|] eqn:Hrow.
    + destruct (calculateDMI_di_at prices n n row Hlen' ltac:(lia) ltac:(lia) Hrow)
        as (Hp & Hm).
      eauto.
    + apply nth_error_None in Hrow. lia.
  - intros i Hi.
    destruct (calculateDMI_at prices n i Hlen' ltac:(lia)) as (_ & _ & Ha).
    fold d in Ha. rewrite Ha. unfold outputAt.
    destruct (Nat.ltb_spec i n); [reflexivity|].
    rewrite length_map.
    destruct (i - n <? length (diValues prices n))%nat; [|reflexivity].
    cbn [snd].
    destruct (Nat.ltb_spec i (n * 2 - 1)); [reflexivity | lia].
  - intros (v & Hv).
    destruct (calculateDMI_at prices n (2 * n - 1) Hlen' ltac:(lia)) as (_ & _ & Ha).
    fold d in Ha. rewrite Ha in Hv. unfold outputAt in Hv.
    destruct (Nat.ltb_spec (2 * n - 1) n); [discriminate|].
    rewrite length_map, Ldi in Hv.
    destruct (Nat.ltb_spec (2 * n - 1 - n) (length prices - n)); [|discriminate].
    cbn [snd] in Hv.
    destruct (Nat.ltb_spec (2 * n - 1) (n * 2 - 1)); [lia|].
    rewrite Ladx in Hv. cbn [orb] in Hv.
    destruct (Nat.leb_spec (length prices + 1 - 2 * n) (2 * n - 1 - n));
      [discriminate | lia].
  - intros H3.
    destruct (calculateDMI_at prices n (2 * n - 1) Hlen' ltac:(lia)) as (_ & _ & Ha).
    fold d in Ha. rewrite Ha. unfold outputAt.
    destruct (Nat.ltb_spec (2 * n - 1) n); [lia|].
    rewrite length_map, Ldi.
    destruct (Nat.ltb_spec (2 * n - 1 - n) (length prices - n)); [|lia].
    cbn [snd].
    destruct (Nat.ltb_spec (2 * n - 1) (n * 2 - 1)); [lia|].
    rewrite Ladx. cbn [orb].
    destruct (Nat.leb_spec (length prices + 1 - 2 * n) (2 * n - 1 - n)); [lia|].
    destruct (Nat.ltb_spec (2 * n - 1 - n + 1 - n) (length prices + 1 - 2 * n)); [|lia].
    destruct (nth_error (adxValues prices n) (2 * n - 1 - n + 1 - n)) as [v|] eqn:Hv.
    + now exists v.
    + apply nth_error_None in Hv. lia.
Qed.

End DmiAlignment.

Section Snoc.
Variable T : Type.

Lemma nth_error_snoc_old (l : list T) (x : T) (i : nat) :
  i < length l -> nth_error (l ++ [x]) i = nth_error l i.
Proof. intros H. now apply nth_error_app1. Qed.

Lemma nth_error_snoc_new (l : list T) (x : T) (k : nat) :
  length l = k -> nth_error (l ++ [x]) k = Some x.
Proof. intros <-. rewrite nth_error_app2 by lia. now rewrite Nat.sub_diag. Qed.

End Snoc.

Section PerViewDmiAlignment.
Context {A : Type} {N : Num A} {M : MathMinMax A}.
Import ChartPricePut.

Lemma defined_all_absent (l : list (option A)) :
  (forall i, i < length l -> nth_error l i = Some None) -> defined l = [].
Proof.
  induction l as [|[x|] l IH]; intros H; simpl; auto.
  - specialize (H 0 ltac:(simpl; lia)). discriminate.
  - apply IH. intros i Hi. apply (H (S i)). simpl; lia.
Qed.

(** The averaging loop for the first ADX value counts at least the
    entry just pushed, so it yields a number. *)
Lemma firstAdx_defined (period i : nat) (plusDIs minusDIs : list (option A)) (p m : A) :
  1 <= period -> period <= i ->
  nth_error plusDIs i = Some (Some p) -> nth_error minusDIs i = Some (Some m) ->
  exists v, firstAdx period plusDIs minusDIs i = Some v.
Proof.
  intros Hp Hpi Hpl Hmi. unfold firstAdx.
  assert (Hi : i < length plusDIs) by (apply nth_error_Some; congruence).
  destruct period as [|q]; [lia|].
  rewrite seq_S, fold_left_app. replace (i + 1 - S q + q) with i by lia.
  cbn [fold_left].
  destruct (Nat.leb_spec (S q) i) as [_ | ?]; [|lia].
  destruct (Nat.ltb_spec i (length plusDIs)) as [_ | ?]; [|lia].
  cbn [andb].
  rewrite (nth_error_nth _ _ None Hpl), (nth_error_nth _ _ None Hmi).
  cbn [snd fst Nat.ltb Nat.leb]. eexists; reflexivity.
Qed.

(** The state of the output loop of the per-view [calculateDMI] after
    [k] iterations. *)
Lemma dmi_loop_alignment (n : nat) (sTR sP sM : list A) (k : nat) :
  1 <= n ->
  let st := fold_left (dmiStep n sTR sP sM) (seq 0 k)
                      {| plusDI := []; minusDI := []; adx := [] |} in
  (length (plusDI st) = k /\ length (minusDI st) = k /\ length (adx st) = k)
  /\ (forall i, i < k -> i < n ->
        nth_error (plusDI st) i = Some None /\ nth_error (minusDI st) i = Some None)
  /\ (forall i, i < k -> n <= i ->
        (exists p, nth_error (plusDI st) i = Some (Some p))
        /\ (exists m, nth_error (minusDI st) i = Some (Some m)))
  /\ (forall i, i < k -> i < 2 * n - 1 -> nth_error (adx st) i = Some None)
  /\ (2 * n - 1 < k -> exists v, nth_error (adx st) (2 * n - 1) = Some (Some v)).
Proof.
  intros Hn. induction k as [|k IH].
  - simpl. repeat split; try reflexivity; intros; lia.
  - rewrite seq_S, fold_left_app. cbn [fold_left Nat.add].
    set (st := fold_left (dmiStep n sTR sP sM) (seq 0 k)
                         {| plusDI := []; minusDI := []; adx := [] |}) in *.
    cbv zeta in IH.
    destruct IH as ((Lp & Lm & La) & Hwarm & Hdi & Hadx0 & Hadx1).
    unfold dmiStep.
    destruct (Nat.ltb_spec k n) as [Hkn | Hkn]; cbn [plusDI minusDI adx].
    + split; [rewrite !length_app; simpl; lia|].
      split; [|split; [|split]].
      * intros i Hi Hin. destruct (Nat.eq_dec i k) as [-> | Hne].
        -- now rewrite (nth_error_snoc_new _ _ _ _ Lp), (nth_error_snoc_new _ _ _ _ Lm).
        -- rewrite !nth_error_snoc_old by lia. apply Hwarm; lia.
      * intros i Hi Hin. lia.
      * intros i Hi Hin. destruct (Nat.eq_dec i k) as [-> | Hne].
        -- now rewrite (nth_error_snoc_new _ _ _ _ La).
        -- rewrite nth_error_snoc_old by lia. apply Hadx0; lia.
      * intros H. lia.
    + split; [rewrite !length_app; simpl; lia|].
      split; [|split; [|split]].
      * intros i Hi Hin. rewrite !nth_error_snoc_old by lia. apply Hwarm; lia.
      * intros i Hi Hin. destruct (Nat.eq_dec i k) as [-> | Hne].
        -- rewrite (nth_error_snoc_new _ _ _ _ Lp), (nth_error_snoc_new _ _ _ _ Lm). eauto.
        -- rewrite !nth_error_snoc_old by lia. apply Hdi; lia.
      * intros i Hi Hin. destruct (Nat.eq_dec i k) as [-> | Hne].
        -- rewrite (nth_error_snoc_new _ _ _ _ La).
           destruct (Nat.ltb_spec k (n * 2 - 1)); [reflexivity | lia].
        -- rewrite nth_error_snoc_old by lia. apply Hadx0; lia.
      * intros H. destruct (Nat.eq_dec (2 * n - 1) k) as [E | Hne].
        -- rewrite E. rewrite (nth_error_snoc_new _ _ _ _ La).
           destruct (Nat.ltb_spec k (n * 2 - 1)) as [? | _]; [lia|].
           rewrite defined_all_absent
             by (intros i Hi; apply Hadx0; lia).
           cbn [rev].
           destruct (firstAdx_defined n k
                       (plusDI st ++ [Some (readNum sP (k - n) / readNum sTR (k - n)
                                            * $100)%num])
                       (minusDI st ++ [Some (readNum sM (k - n) / readNum sTR (k - n)
                                             * $100)%num])
                       (readNum sP (k - n) / readNum sTR (k - n) * $100)%num
                       (readNum sM (k - n) / readNum sTR (k - n) * $100)%num
                       Hn Hkn) as (v & Hv).
           ++ apply nth_error_snoc_new, Lp.
           ++ apply nth_error_snoc_new, Lm.
           ++ rewrite Hv. now exists v.
        -- rewrite nth_error_snoc_old by lia. apply Hadx1. lia.
Qed.

(** The per-view [calculateDMI] meets the alignment of C6: +DI and -DI
    absent before index N and defined from N on, ADX absent before index
    2N-1 and defined at 2N-1. *)
Lemma ChartPricePut_dmi_alignment (prices : list A) (n : nat) :
  1 <= n -> 2 * n <= length prices ->
  let d := calculateDMI prices n in
  (forall i, i < n ->
     nth_error (plusDI d) i = Some None /\ nth_error (minusDI d) i = Some None)
  /\ ((exists p, nth_error (plusDI d) n = Some (Some p))
      /\ (exists m, nth_error (minusDI d) n = Some (Some m)))
  /\ (forall i, i < 2 * n - 1 -> nth_error (adx d) i = Some None)
  /\ (exists v, nth_error (adx d) (2 * n - 1) = Some (Some v)).
Proof.
  intros Hn Hlen d. subst d. unfold calculateDMI.
  destruct (Nat.ltb_spec (length prices) (n + 1)) as [? | _]; [lia|].
  destruct (dmi_loop_alignment n
              (calculateWilderSmoothing (trueRangesOf prices) n)
              (calculateWilderSmoothing (map fst (directionalMoves prices)) n)
              (calculateWilderSmoothing (map snd (directionalMoves prices)) n)
              (length prices) Hn)
    as (_ & Hwarm & Hdi & Hadx0 & Hadx1).
  split; [|split; [|split]].
  - intros i Hi. apply Hwarm; lia.
  - apply Hdi; lia.
  - intros i Hi. apply Hadx0; lia.
  - apply Hadx1. lia.
Qed.

End PerViewDmiAlignment.

Open Scope float_scope.

(** C6 (the code departs from the claim). With Wilder length N = 2 and
    2N = 4 prices, ChartDmiComponent defines +DI and -DI from index N = 2
    but leaves ADX absent at index 2N-1 = 3 (and everywhere): its guard
    compares [diIndex], not [adxIndex], with the number of ADX values.
    The per-view [calculateDMI] defines ADX at index 3 on the same input. *)
Theorem C6_adx_absent_at_2N_minus_1 :
  (2 * 2 <= length [1; 2; 3; 4])%nat
  /\ ChartDmi.calculateDMI [1; 2; 3; 4] 2
     = {| ChartDmi.plusDI := [None; None; Some 100; Some 100];
          ChartDmi.minusDI := [None; None; Some 0; Some 0];
          ChartDmi.adx := [None; None; None; None] |}
  /\ nth_error (ChartDmi.adx (ChartDmi.calculateDMI [1; 2; 3; 4] 2)) (2 * 2 - 1) = Some None
  /\ nth_error (ChartPricePut.adx (ChartPricePut.calculateDMI [1; 2; 3; 4] 2)) (2 * 2 - 1)
     = Some (Some 100).
Proof.
  split; [simpl; lia|].
  split; [vm_compute; reflexivity|].
  split; vm_compute; reflexivity.
Qed.

Close Scope float_scope.

(** ** Bollinger Bands and Keltner Channels (C4) *)

(** ** Order and sign facts of binary64 arithmetic
       (from the specification of the primitive floats) *)

Section Rounding.
Variables prec emax : Z.
Hypothesis Hprec : (0 < prec)%Z.

Local Open Scope Z_scope.
Import SpecFloat Float64.

Local Abbreviation emin := (SpecFloat.emin prec emax).
Local Abbreviation fexp := (SpecFloat.fexp prec emax).

Lemma digits2_bounds (p : positive) :
  2 ^ (Zpos (digits2_pos p) - 1) <= Zpos p < 2 ^ Zpos (digits2_pos p).
Proof.
  induction p as [p IH | p IH |]; cbn [digits2_pos].
  - rewrite Pos2Z.inj_succ, Pos2Z.inj_xI.
    replace (Z.succ (Zpos (digits2_pos p)) - 1) with (Z.succ (Zpos (digits2_pos p) - 1)) by lia.
    rewrite !Z.pow_succ_r by lia.
    pow_lia.
  - rewrite Pos2Z.inj_succ. change (Zpos p~0) with (2 * Zpos p).
    replace (Z.succ (Zpos (digits2_pos p)) - 1) with (Z.succ (Zpos (digits2_pos p) - 1)) by lia.
    rewrite !Z.pow_succ_r by lia.
    pow_lia.
  - change (1 <= 1 < 2). lia.
Qed.

Lemma digits2_unique (p : positive) (k : Z) :
  2 ^ (k - 1) <= Zpos p < 2 ^ k -> Zpos (digits2_pos p) = k.
Proof.
  intros [Hlo Hhi]. pose proof (digits2_bounds p) as [Dlo Dhi].
  assert (0 < k).
  { destruct (Z.lt_ge_cases 0 k) as [|Hk]; [assumption|].
    destruct (Z.eq_dec k 0) as [-> | Hne].
    - simpl in Hhi. lia.
    - rewrite Z.pow_neg_r in Hhi by lia. lia. }
  destruct (Z.lt_trichotomy (Zpos (digits2_pos p)) k) as [Hlt | [Heq | Hgt]];
    [|exact Heq|].
  - assert (2 ^ Zpos (digits2_pos p) <= 2 ^ (k - 1))
      by (apply Z.pow_le_mono_r; lia). lia.
  - assert (2 ^ k <= 2 ^ (Zpos (digits2_pos p) - 1))
      by (apply Z.pow_le_mono_r; lia). lia.
Qed.

Lemma iter_pos_iter (A : Type) (f : A -> A) (p : positive) (x : A) :
  iter_pos f p x = Pos.iter f x p.
Proof.
  revert x. induction p as [p IH | p IH |]; intros x; cbn [iter_pos Pos.iter].
  - rewrite !IH. now rewrite <- !Pos.iter_swap.
  - now rewrite !IH.
  - reflexivity.
Qed.

Lemma shr_1_m (mrs : shr_record) :
  0 <= shr_m mrs -> shr_m (shr_1 mrs) = shr_m mrs / 2.
Proof.
  destruct mrs as [m r s]. cbn [shr_m]. intros Hm.
  destruct m as [|p|p]; [reflexivity| |lia].
  destruct p as [p|p|]; cbn [shr_1 shr_m].
  - change (Zpos p~1) with (2 * Zpos p + 1). apply Z.div_unique with 1; lia.
  - change (Zpos p~0) with (2 * Zpos p). apply Z.div_unique with 0; lia.
  - reflexivity.
Qed.

Lemma iter_shr_m (mrs : shr_record) (p : positive) :
  0 <= shr_m mrs ->
  shr_m (Pos.iter shr_1 mrs p) = shr_m mrs / 2 ^ Zpos p.
Proof.
  intros Hm.
  assert (H : 0 <= shr_m (Pos.iter shr_1 mrs p)
              /\ shr_m (Pos.iter shr_1 mrs p) = shr_m mrs / 2 ^ Zpos p).
  { induction p as [|p IH] using Pos.peano_ind.
    - cbn [Pos.iter]. rewrite shr_1_m by exact Hm.
      split; [apply Z.div_pos; lia | reflexivity].
    - rewrite Pos.iter_succ. destruct IH as [IH0 IH].
      rewrite shr_1_m by exact IH0. rewrite IH.
      rewrite Pos2Z.inj_succ, Z.pow_succ_r by lia.
      split.
      + apply Z.div_pos; [|lia]. apply Z.div_pos; [lia|]. apply Z.pow_pos_nonneg; lia.
      + rewrite Z.div_div by (try apply Z.pow_pos_nonneg; lia).
        f_equal. lia. }
  apply H.
Qed.

Lemma shr_record_of_loc_m (m : Z) (l : location) : shr_m (shr_record_of_loc m l) = m.
Proof. destruct l as [|[ | | ]]; reflexivity. Qed.

(** The mantissa and exponent after [shr_fexp]. *)
Lemma shr_fexp_m (m e : Z) (l : location) :
  0 <= m ->
  let n := Z.max 0 (fexp (Zdigits2 m + e) - e) in
  shr_m (fst (shr_fexp prec emax m e l)) = m / 2 ^ n
  /\ snd (shr_fexp prec emax m e l) = e + n.
Proof.
  intros Hm n. unfold shr_fexp, shr. subst n.
  destruct (fexp (Zdigits2 m + e) - e) as [|p|p] eqn:E; cbn [fst snd].
  - rewrite shr_record_of_loc_m. simpl. rewrite Z.div_1_r. split; lia.
  - rewrite iter_pos_iter, iter_shr_m by (rewrite shr_record_of_loc_m; exact Hm).
    rewrite shr_record_of_loc_m.
    replace (Z.max 0 (Zpos p)) with (Zpos p) by lia. split; reflexivity.
  - rewrite shr_record_of_loc_m.
    replace (Z.max 0 (Zneg p)) with 0 by lia. simpl. rewrite Z.div_1_r. split; lia.
Qed.

Lemma round_nearest_even_cases (m : Z) (l : location) :
  round_nearest_even m l = m \/ round_nearest_even m l = m + 1.
Proof.
  destruct l as [|[ | | ]]; cbn [round_nearest_even]; auto.
  destruct (Z.even m); auto.
Qed.

Lemma iter_xO (m d : positive) : Zpos (Pos.iter xO m d) = Zpos m * 2 ^ Zpos d.
Proof.
  induction d as [|d IH] using Pos.peano_ind.
  - cbn [Pos.iter]. change (Zpos m~0) with (2 * Zpos m). change (2 ^ 1) with 2. lia.
  - rewrite Pos.iter_succ.
    change (Zpos (Pos.iter xO m d)~0) with (2 * Zpos (Pos.iter xO m d)).
    rewrite IH, Pos2Z.inj_succ, Z.pow_succ_r by lia. pow_lia.
Qed.


Lemma pow2_pos (k : Z) : 0 <= k -> 0 < 2 ^ k.
Proof. intros. apply Z.pow_pos_nonneg; lia. Qed.

Lemma pow2_split (a b : Z) : 0 <= a -> 0 <= b -> 2 ^ (a + b) = 2 ^ a * 2 ^ b.
Proof. intros. apply Z.pow_add_r; lia. Qed.

Lemma fexp_ge_emin (e : Z) : emin <= fexp e.
Proof. unfold SpecFloat.fexp. lia. Qed.

(** Bounds on the quotient of a positive integer [pz * 2^e] by the unit
    in the last place of its format exponent. *)
Lemma quotient_bounds (pz : positive) (e : Z) :
  emin <= e ->
  let E := fexp (Zpos (digits2_pos pz) + e) in
  let N := Zpos pz * 2 ^ (e - emin) in
  let U := 2 ^ (E - emin) in
  0 < U /\ 0 <= N / U < 2 ^ prec /\ (emin < E -> 2 ^ (prec - 1) <= N / U).
Proof.
  intros He E N U.
  pose proof (fexp_ge_emin (Zpos (digits2_pos pz) + e)) as HE. fold E in HE.
  pose proof (digits2_bounds pz) as [Dlo Dhi].
  set (d := Zpos (digits2_pos pz)) in *.
  assert (Hd : 1 <= d) by (subst d; lia).
  assert (HU : 0 < U) by (apply pow2_pos; lia).
  assert (HN : 0 <= N) by (subst N; pose proof (pow2_pos (e - emin)); nia).
  split; [exact HU|]. split; [split|].
  - apply Z.div_pos; lia.
  - apply Z.div_lt_upper_bound; [exact HU|].
    assert (Hle : 2 ^ (d + (e - emin)) <= 2 ^ ((E - emin) + prec)).
    { apply Z.pow_le_mono_r; [lia|]. subst E. unfold SpecFloat.fexp. lia. }
    rewrite !pow2_split in Hle by lia. fold U in Hle.
    subst N. pose proof (pow2_pos (e - emin) ltac:(lia)). pow_nia.
  - intros Hnorm. apply Z.div_le_lower_bound; [exact HU|].
    assert (HEeq : E = d + e - prec) by (subst E; unfold SpecFloat.fexp in *; lia).
    assert (Heq : 2 ^ ((d - 1) + (e - emin)) = 2 ^ ((E - emin) + (prec - 1)))
      by (f_equal; lia).
    rewrite !pow2_split in Heq by lia. fold U in Heq.
    subst N. pose proof (pow2_pos (e - emin) ltac:(lia)). pow_nia.
Qed.


(** Alignment to the format exponent keeps the value and the position
    of the leading digit. *)
Lemma shl_align_fexp_cases (pz : positive) (e : Z) :
  emin <= e ->
  let E := fexp (Zpos (digits2_pos pz) + e) in
  exists mz ez,
    shl_align pz e E = (mz, ez)
    /\ emin <= ez <= E
    /\ Zpos mz * 2 ^ (ez - emin) = Zpos pz * 2 ^ (e - emin)
    /\ Zpos (digits2_pos mz) + ez = Zpos (digits2_pos pz) + e.
Proof.
  intros He E.
  pose proof (fexp_ge_emin (Zpos (digits2_pos pz) + e)) as HE. fold E in HE.
  unfold shl_align. destruct (E - e) as [|d|d] eqn:Hd.
  - exists pz, e. repeat split; lia.
  - exists pz, e. repeat split; lia.
  - exists (Pos.iter xO pz d), E.
    assert (He' : e = E + Zpos d) by lia.
    split; [reflexivity|]. split; [lia|]. rewrite iter_xO. split.
    + rewrite He'. replace (E + Zpos d - emin) with (Zpos d + (E - emin)) by lia.
      rewrite pow2_split by lia. lia.
    + assert (Hdig : Zpos (digits2_pos (Pos.iter xO pz d))
                     = Zpos (digits2_pos pz) + Zpos d).
      { apply digits2_unique. rewrite iter_xO.
        pose proof (digits2_bounds pz) as [Dlo Dhi].
        replace (Zpos (digits2_pos pz) + Zpos d - 1)
          with ((Zpos (digits2_pos pz) - 1) + Zpos d) by lia.
        rewrite !pow2_split by lia.
        pose proof (pow2_pos (Zpos d) ltac:(lia)). pow_nia. }
      lia.
Qed.

(** What [binary_round] returns for a positive integer [pz * 2^e]: the
    quotient by the unit in the last place, or the next integer, at the
    format exponent, in canonical form. *)
Lemma binary_round_cases (s : bool) (pz : positive) (e : Z) :
  emin <= e ->
  let E := fexp (Zpos (digits2_pos pz) + e) in
  let N := Zpos pz * 2 ^ (e - emin) in
  let U := 2 ^ (E - emin) in
  exists m2 e2,
    binary_round prec emax s pz e
    = match m2 with
      | Z0 => S754_zero s
      | Zpos m => if e2 <=? emax - prec then S754_finite s m e2 else S754_infinity s
      | Zneg _ => S754_nan
      end
    /\ 0 <= m2 /\ emin <= e2
    /\ (0 < m2 -> fexp (Zdigits2 m2 + e2) = e2)
    /\ (m2 * 2 ^ (e2 - emin) = N / U * U \/ m2 * 2 ^ (e2 - emin) = (N / U + 1) * U).
Proof.
  intros He E N U.
  destruct (quotient_bounds pz e He) as (HU & (Hq0 & Hq1) & Hq2).
  fold E in Hq2. fold E N U in Hq0, Hq1, Hq2, HU.
  pose proof (fexp_ge_emin (Zpos (digits2_pos pz) + e)) as HE. fold E in HE.
  destruct (shl_align_fexp_cases pz e He) as (mz & ez & Hal & (Hez0 & Hez1) & Hval & Hdig).
  fold E in Hal. fold N in Hval.
  unfold binary_round. fold E. rewrite Hal. unfold binary_round_aux.
  (* first shift *)
  pose proof (shr_fexp_m (Zpos mz) ez loc_Exact ltac:(lia)) as [Hm' He'].
  cbn [Zdigits2] in Hm', He'. rewrite Hdig in Hm', He'. fold E in Hm', He'.
  replace (Z.max 0 (E - ez)) with (E - ez) in Hm', He' by lia.
  destruct (shr_fexp prec emax (Zpos mz) ez loc_Exact) as [mrs' e'].
  cbn [fst snd] in Hm', He'.
  assert (Hq : shr_m mrs' = N / U).
  { rewrite Hm', <- Hval. subst U.
    replace (E - emin) with ((E - ez) + (ez - emin)) by lia.
    rewrite pow2_split by lia.
    rewrite Z.div_mul_cancel_r; [reflexivity| |];
      apply Z.neq_sym, Z.lt_neq, pow2_pos; lia. }
  assert (He'E : e' = E) by lia. clear He'. subst e'.
  set (m1 := round_nearest_even (shr_m mrs') (loc_of_shr_record mrs')).
  assert (Hm1 : m1 = N / U \/ m1 = N / U + 1).
  { subst m1. rewrite <- Hq. apply round_nearest_even_cases. }
  assert (Hm1pos : 0 <= m1) by lia.
  (* second shift *)
  pose proof (shr_fexp_m m1 E loc_Exact Hm1pos) as [Hm2 He2].
  destruct (shr_fexp prec emax m1 E loc_Exact) as [mrs2 e2].
  cbn [fst snd] in Hm2, He2.
  exists (shr_m mrs2), e2. split; [reflexivity|].
  destruct m1 as [|p1|p1] eqn:Em1; [| |lia].
  - (* the rounded mantissa is 0 *)
    cbn [Zdigits2] in Hm2, He2.
    assert (Hn : Z.max 0 (fexp (0 + E) - E) = 0)
      by (unfold SpecFloat.fexp; lia).
    rewrite Hn in Hm2, He2. change (2 ^ 0) with 1 in Hm2. rewrite Z.div_1_r in Hm2.
    rewrite Hm2. replace e2 with E by lia.
    split; [lia|]. split; [lia|]. split; [lia|].
    left. assert (N / U = 0) by lia. lia.
  - cbn [Zdigits2] in Hm2, He2.
    pose proof (digits2_bounds p1) as [Dlo Dhi].
    set (d1 := Zpos (digits2_pos p1)) in *.
    assert (Hd1 : 1 <= d1) by (subst d1; lia).
    assert (Hle : Zpos p1 <= 2 ^ prec) by lia.
    destruct (Z.eq_dec (Zpos p1) (2 ^ prec)) as [Hfull | Hnot].
    + (* the mantissa has become 2^prec: one more shift *)
      assert (Hd1' : d1 = prec + 1).
      { subst d1. apply digits2_unique. rewrite Hfull.
        replace (prec + 1 - 1) with prec by lia.
        split; [lia|]. apply Z.pow_lt_mono_r; lia. }
      assert (Hn : Z.max 0 (fexp (d1 + E) - E) = 1)
        by (rewrite Hd1'; unfold SpecFloat.fexp; lia).
      rewrite Hn in Hm2, He2. change (2 ^ 1) with 2 in Hm2.
      assert (Hhalf : 2 ^ prec = 2 * 2 ^ (prec - 1)).
      { replace prec with (Z.succ (prec - 1)) at 1 by lia.
        apply Z.pow_succ_r. lia. }
      assert (Hm2' : shr_m mrs2 = 2 ^ (prec - 1)).
      { rewrite Hm2, Hfull, Hhalf. rewrite Z.mul_comm. apply Z.div_mul. lia. }
      pose proof (pow2_pos (prec - 1) ltac:(lia)) as Hpp.
      split; [lia|]. split; [lia|]. split.
      * intros _. rewrite Hm2'.
        destruct (2 ^ (prec - 1)) as [|ph|ph] eqn:Eph; [lia| |lia].
        cbn [Zdigits2].
        assert (Hdh : Zpos (digits2_pos ph) = prec).
        { apply digits2_unique. rewrite Eph, Hhalf. lia. }
        rewrite Hdh. unfold SpecFloat.fexp. lia.
      * assert (Hscale : shr_m mrs2 * 2 ^ (e2 - emin) = Zpos p1 * U).
        { rewrite Hm2', Hfull, Hhalf. subst U.
          replace (e2 - emin) with (1 + (E - emin)) by lia.
          rewrite pow2_split by lia. change (2 ^ 1) with 2. ring. }
        rewrite Hscale. destruct Hm1 as [<- | <-]; auto.
    + (* no further shift *)
      assert (Hlt : Zpos p1 < 2 ^ prec) by lia.
      assert (Hd1' : d1 <= prec).
      { destruct (Z.le_gt_cases d1 prec) as [|Hgt]; [assumption|].
        assert (2 ^ prec <= 2 ^ (d1 - 1)) by (apply Z.pow_le_mono_r; lia). lia. }
      assert (Hcanon : fexp (d1 + E) = E).
      { unfold SpecFloat.fexp. destruct (Z.eq_dec E emin) as [-> | Hne]; [lia|].
        assert (Hnorm : 2 ^ (prec - 1) <= Zpos p1) by (specialize (Hq2 ltac:(lia)); lia).
        assert (d1 = prec).
        { subst d1. apply digits2_unique. split; assumption. }
        lia. }
      rewrite Hcanon in Hm2, He2.
      replace (Z.max 0 (E - E)) with 0 in Hm2, He2 by lia.
      change (2 ^ 0) with 1 in Hm2. rewrite Z.div_1_r in Hm2.
      rewrite Hm2. replace e2 with E by lia.
      split; [lia|]. split; [lia|]. split.
      * intros _. exact Hcanon.
      * fold U. destruct Hm1 as [<- | <-]; auto.
Qed.


(** Canonical mantissas: fewer than [prec] digits only at [emin]. *)
Lemma canonical_bounds (m : positive) (e : Z) :
  fexp (Zpos (digits2_pos m) + e) = e ->
  emin <= e /\ Zpos m < 2 ^ prec /\ (emin < e -> 2 ^ (prec - 1) <= Zpos m).
Proof.
  intros Hc. pose proof (digits2_bounds m) as [Dlo Dhi].
  set (d := Zpos (digits2_pos m)) in *.
  assert (Hd : 1 <= d) by (subst d; lia).
  unfold SpecFloat.fexp in Hc.
  split; [lia|]. split.
  - assert (2 ^ d <= 2 ^ prec) by (apply Z.pow_le_mono_r; lia). lia.
  - intros Hn. replace (prec - 1) with (d - 1) by lia. exact Dlo.
Qed.

(** On canonical pairs the order of the values is the lexicographic
    order on (exponent, mantissa). *)
Lemma scaled_le_lex (m1 m2 : positive) (e1 e2 : Z) :
  fexp (Zpos (digits2_pos m1) + e1) = e1 ->
  fexp (Zpos (digits2_pos m2) + e2) = e2 ->
  Zpos m1 * 2 ^ (e1 - emin) <= Zpos m2 * 2 ^ (e2 - emin) ->
  e1 < e2 \/ (e1 = e2 /\ Zpos m1 <= Zpos m2).
Proof.
  intros H1 H2 Hle.
  destruct (canonical_bounds m1 e1 H1) as (He1 & Hm1 & Hn1).
  destruct (canonical_bounds m2 e2 H2) as (He2 & Hm2 & Hn2).
  destruct (Z.lt_trichotomy e1 e2) as [Hlt | [Heq | Hgt]]; [now left | |].
  - right. split; [exact Heq|]. subst e2.
    pose proof (pow2_pos (e1 - emin) ltac:(lia)). pow_nia.
  - exfalso. specialize (Hn1 ltac:(lia)).
    assert (Hstep : 2 * 2 ^ (e2 - emin) <= 2 ^ (e1 - emin)).
    { rewrite <- (Z.pow_succ_r 2 (e2 - emin)) by lia.
      apply Z.pow_le_mono_r; lia. }
    assert (Hhalf : 2 ^ prec = 2 * 2 ^ (prec - 1)).
    { replace prec with (Z.succ (prec - 1)) at 1 by lia.
      apply Z.pow_succ_r. lia. }
    pose proof (pow2_pos (e2 - emin) ltac:(lia)).
    pose proof (pow2_pos (prec - 1) ltac:(lia)).
    pow_nia.
Qed.

(** Rounding a value at or above a canonical number gives a number at
    or above it, or overflows. *)
Lemma binary_round_above (s : bool) (pz mx : positive) (e ex : Z) :
  emin <= e ->
  fexp (Zpos (digits2_pos mx) + ex) = ex ->
  Zpos mx * 2 ^ (ex - emin) <= Zpos pz * 2 ^ (e - emin) ->
  binary_round prec emax s pz e = S754_infinity s
  \/ exists m2 e2,
       binary_round prec emax s pz e = S754_finite s m2 e2
       /\ (ex < e2 \/ (ex = e2 /\ Zpos mx <= Zpos m2)).
Proof.
  intros He Hcx Hle.
  destruct (binary_round_cases s pz e He) as (m2 & e2 & Hres & Hm2 & He2 & Hc2 & Hval).
  destruct (quotient_bounds pz e He) as (HU & (Hq0 & Hq1) & Hq2).
  destruct (canonical_bounds mx ex Hcx) as (Hex & Hmx & Hnx).
  set (E := fexp (Zpos (digits2_pos pz) + e)) in *.
  set (N := Zpos pz * 2 ^ (e - emin)) in *.
  set (U := 2 ^ (E - emin)) in *.
  set (X := Zpos mx * 2 ^ (ex - emin)) in *.
  assert (HX : 0 < X) by (subst X; pose proof (pow2_pos (ex - emin) ltac:(lia)); nia).
  assert (Hfloor : X <= N / U * U).
  { destruct (Z.le_gt_cases E ex) as [HEle | HEgt].
    - assert (HXU : X = Zpos mx * 2 ^ (ex - E) * U).
      { subst X U. replace (ex - emin) with ((ex - E) + (E - emin)) by lia.
        pose proof (fexp_ge_emin (Zpos (digits2_pos pz) + e)). fold E in H.
        rewrite pow2_split by lia. ring. }
      assert (Zpos mx * 2 ^ (ex - E) <= N / U).
      { apply Z.div_le_lower_bound; [exact HU|]. rewrite Z.mul_comm. lia. }
      rewrite HXU. apply Z.mul_le_mono_nonneg_r; lia.
    - specialize (Hq2 ltac:(lia)).
      assert (Hstep : 2 * 2 ^ (ex - emin) <= U).
      { subst U. rewrite <- (Z.pow_succ_r 2 (ex - emin)) by lia.
        apply Z.pow_le_mono_r; lia. }
      assert (Hhalf : 2 ^ prec = 2 * 2 ^ (prec - 1)).
      { replace prec with (Z.succ (prec - 1)) at 1 by lia.
        apply Z.pow_succ_r. lia. }
      pose proof (pow2_pos (ex - emin) ltac:(lia)).
      pose proof (pow2_pos (prec - 1) ltac:(lia)).
      subst X. clearbody U N E. pow_nia. }
  assert (HX2 : X <= m2 * 2 ^ (e2 - emin)).
  { destruct Hval as [-> | ->]; [exact Hfloor|]. nia. }
  assert (Hm2pos : 0 < m2).
  { pose proof (pow2_pos (e2 - emin) ltac:(lia)). nia. }
  destruct m2 as [|p2|p2]; [lia| |lia].
  cbn [Zdigits2] in Hc2. specialize (Hc2 ltac:(lia)).
  rewrite Hres. destruct (e2 <=? emax - prec); [|now left].
  right. exists p2, e2. split; [reflexivity|].
  apply scaled_le_lex; assumption.
Qed.

(** Rounding a value below a canonical number in range gives a number
    at or below it, or zero; it does not overflow. *)
Lemma binary_round_below (s : bool) (pz mx : positive) (e ex : Z) :
  emin <= e ->
  fexp (Zpos (digits2_pos mx) + ex) = ex ->
  ex <= emax - prec ->
  Zpos pz * 2 ^ (e - emin) < Zpos mx * 2 ^ (ex - emin) ->
  binary_round prec emax s pz e = S754_zero s
  \/ exists m2 e2,
       binary_round prec emax s pz e = S754_finite s m2 e2
       /\ (e2 < ex \/ (e2 = ex /\ Zpos m2 <= Zpos mx)).
Proof.
  intros He Hcx Hbx Hlt.
  destruct (binary_round_cases s pz e He) as (m2 & e2 & Hres & Hm2 & He2 & Hc2 & Hval).
  destruct (quotient_bounds pz e He) as (HU & (Hq0 & Hq1) & Hq2).
  destruct (canonical_bounds mx ex Hcx) as (Hex & Hmx & Hnx).
  pose proof (digits2_bounds pz) as [Plo Phi].
  pose proof (digits2_bounds mx) as [Xlo Xhi].
  pose proof (fexp_ge_emin (Zpos (digits2_pos pz) + e)) as HE.
  assert (HEle : fexp (Zpos (digits2_pos pz) + e) <= ex).
  { rewrite <- Hcx. unfold SpecFloat.fexp.
    assert (Zpos (digits2_pos pz) - 1 + (e - emin) < Zpos (digits2_pos mx) + (ex - emin)).
    { apply (Z.pow_lt_mono_r_iff 2); [lia|lia|].
      rewrite !pow2_split by lia.
      pose proof (pow2_pos (e - emin) ltac:(lia)).
      pose proof (pow2_pos (ex - emin) ltac:(lia)).
      pow_nia. }
    lia. }
  set (E := fexp (Zpos (digits2_pos pz) + e)) in *.
  set (N := Zpos pz * 2 ^ (e - emin)) in *.
  set (U := 2 ^ (E - emin)) in *.
  set (X := Zpos mx * 2 ^ (ex - emin)) in *.
  assert (HXU : X = Zpos mx * 2 ^ (ex - E) * U).
  { subst X U. replace (ex - emin) with ((ex - E) + (E - emin)) by lia.
    rewrite pow2_split by lia. ring. }
  assert (Hk : N / U < Zpos mx * 2 ^ (ex - E)).
  { apply Z.div_lt_upper_bound; [exact HU|]. rewrite Z.mul_comm. lia. }
  assert (HX2 : m2 * 2 ^ (e2 - emin) <= X).
  { rewrite HXU. destruct Hval as [-> | ->];
      apply Z.mul_le_mono_nonneg_r; lia. }
  destruct m2 as [|p2|p2]; [now left | |lia].
  cbn [Zdigits2] in Hc2. specialize (Hc2 ltac:(lia)).
  assert (Hlex : e2 < ex \/ (e2 = ex /\ Zpos p2 <= Zpos mx))
    by (apply scaled_le_lex; assumption).
  rewrite Hres. destruct (Z.leb_spec e2 (emax - prec)) as [_ | Hover]; [|lia].
  right. exists p2, e2. split; [reflexivity | exact Hlex].
Qed.


Lemma bounded_inv (m : positive) (e : Z) :
  bounded prec emax m e = true ->
  fexp (Zpos (digits2_pos m) + e) = e /\ e <= emax - prec.
Proof.
  unfold bounded, canonical_mantissa. intros H.
  apply andb_true_iff in H. destruct H as [Hc Hb].
  apply Z.eqb_eq in Hc. apply Z.leb_le in Hb. split; assumption.
Qed.

(** Alignment of a mantissa to a smaller exponent keeps the value. *)
Lemma shl_align_value (m : positive) (e ez : Z) :
  emin <= ez -> ez <= e ->
  Zpos (fst (shl_align m e ez)) * 2 ^ (ez - emin) = Zpos m * 2 ^ (e - emin).
Proof.
  intros Hez Hle. unfold shl_align.
  destruct (ez - e) as [|d|d] eqn:Hd; cbn [fst].
  - replace e with ez by lia. reflexivity.
  - lia.
  - rewrite iter_xO. replace (e - emin) with (Zpos d + (ez - emin)) by lia.
    rewrite pow2_split by lia. ring.
Qed.

(** [binary_round] keeps the sign it is given and yields no NaN. *)
Lemma binary_round_shape (s : bool) (pz : positive) (e : Z) :
  emin <= e ->
  binary_round prec emax s pz e = S754_zero s
  \/ binary_round prec emax s pz e = S754_infinity s
  \/ exists m2 e2, binary_round prec emax s pz e = S754_finite s m2 e2.
Proof.
  intros He.
  destruct (binary_round_cases s pz e He) as (m2 & e2 & Hres & Hm2 & _).
  rewrite Hres. destruct m2 as [|p2|p2]; [now left | |lia].
  destruct (e2 <=? emax - prec); [right; right; eauto | right; now left].
Qed.

Lemma pos_compare_le (m1 m2 : positive) :
  Zpos m1 <= Zpos m2 ->
  Pos.compare_cont Eq m1 m2 = Lt \/ Pos.compare_cont Eq m1 m2 = Eq.
Proof.
  intros H. change (Pos.compare_cont Eq m1 m2) with (Pos.compare m1 m2).
  destruct (Pos.compare_spec m1 m2); auto. lia.
Qed.

(** The comparison of two finite numbers of the same sign that are in
    lexicographic order. *)
Lemma SFleb_lex_pos (m1 m2 : positive) (e1 e2 : Z) :
  e1 < e2 \/ (e1 = e2 /\ Zpos m1 <= Zpos m2) ->
  SFleb (S754_finite false m1 e1) (S754_finite false m2 e2) = true.
Proof.
  unfold SFleb, SFcompare. intros [Hlt | [-> Hle]].
  - apply Z.compare_lt_iff in Hlt. now rewrite Hlt.
  - rewrite Z.compare_refl. destruct (pos_compare_le m1 m2 Hle) as [-> | ->]; reflexivity.
Qed.

Lemma SFleb_lex_neg (m1 m2 : positive) (e1 e2 : Z) :
  e1 < e2 \/ (e1 = e2 /\ Zpos m1 <= Zpos m2) ->
  SFleb (S754_finite true m2 e2) (S754_finite true m1 e1) = true.
Proof.
  unfold SFleb, SFcompare. intros [Hlt | [-> Hle]].
  - apply Z.compare_gt_iff in Hlt. now rewrite Hlt.
  - rewrite Z.compare_refl.
    change (Pos.compare_cont Eq m2 m1) with (Pos.compare m2 m1).
    rewrite Pos.compare_antisym.
    change (Pos.compare m1 m2) with (Pos.compare_cont Eq m1 m2).
    destruct (pos_compare_le m1 m2 Hle) as [-> | ->]; reflexivity.
Qed.

Lemma SFleb_refl_finite (s : bool) (m : positive) (e : Z) :
  SFleb (S754_finite s m e) (S754_finite s m e) = true.
Proof.
  destruct s; [apply SFleb_lex_neg | apply SFleb_lex_pos]; right; split; lia.
Qed.

(** Adding a number that is not negative does not decrease a number,
    unless the sum is not a number. *)
Lemma SFadd_ge (x y : spec_float) :
  valid_binary prec emax x = true -> valid_binary prec emax y = true ->
  SFleb (S754_zero false) y = true ->
  SFadd prec emax x y <> S754_nan ->
  SFleb x (SFadd prec emax x y) = true.
Proof.
  intros Vx Vy Hy Hnan.
  destruct y as [sy | sy | | sy my ey]; try discriminate.
  - (* y is a zero *)
    destruct x as [sx | sx | | sx mx ex]; cbn [SFadd] in *.
    + destruct sx, sy; reflexivity.
    + destruct sx; reflexivity.
    + congruence.
    + apply SFleb_refl_finite.
  - (* y is +infinity *)
    destruct sy; [discriminate|].
    destruct x as [sx | sx | | sx mx ex]; cbn [SFadd] in *.
    + reflexivity.
    + destruct sx; [congruence | reflexivity].
    + congruence.
    + destruct sx; reflexivity.
  - (* y is finite and positive *)
    destruct sy; [discriminate|].
    destruct x as [sx | sx | | sx mx ex]; cbn [SFadd] in *.
    + reflexivity.
    + destruct sx; reflexivity.
    + congruence.
    + cbn [valid_binary] in Vx, Vy.
      destruct (bounded_inv mx ex Vx) as [Cx Bx].
      destruct (bounded_inv my ey Vy) as [Cy By].
      destruct (canonical_bounds mx ex Cx) as (Hex & _).
      destruct (canonical_bounds my ey Cy) as (Hey & _).
      set (ez := Z.min ex ey) in *.
      assert (Hez : emin <= ez) by (subst ez; lia).
      pose proof (shl_align_value mx ex ez Hez ltac:(subst ez; lia)) as HX.
      pose proof (shl_align_value my ey ez Hez ltac:(subst ez; lia)) as HY.
      set (Mx := fst (shl_align mx ex ez)) in *.
      set (My := fst (shl_align my ey ez)) in *.
      pose proof (pow2_pos (ez - emin) ltac:(lia)) as Hpz.
      destruct sx; cbn [cond_Zopp].
      * (* x negative *)
        destruct (- Zpos Mx + Zpos My) as [|p|p] eqn:Ez; cbn [binary_normalize].
        -- reflexivity.
        -- destruct (binary_round_shape false p ez Hez)
             as [-> | [-> | (m2 & e2 & ->)]]; reflexivity.
        -- assert (Hlt : Zpos p * 2 ^ (ez - emin) < Zpos mx * 2 ^ (ex - emin)).
           { rewrite <- HX. apply Z.mul_lt_mono_pos_r; lia. }
           destruct (binary_round_below true p mx ez ex Hez Cx Bx Hlt)
             as [-> | (m2 & e2 & -> & Hlex)]; [reflexivity|].
           apply SFleb_lex_neg. exact Hlex.
      * (* x positive *)
        change (Zpos Mx + Zpos My) with (Zpos (Mx + My)). cbn [binary_normalize].
        assert (Hle : Zpos mx * 2 ^ (ex - emin) <= Zpos (Mx + My) * 2 ^ (ez - emin)).
        { rewrite <- HX. apply Z.mul_le_mono_nonneg_r; lia. }
        destruct (binary_round_above false (Mx + My) mx ez ex Hez Cx Hle)
          as [-> | (m2 & e2 & -> & Hlex)]; [reflexivity|].
        apply SFleb_lex_pos. exact Hlex.
Qed.

(** Subtracting a number that is not negative does not increase a
    number, unless the difference is not a number. *)
Lemma SFsub_le (x y : spec_float) :
  valid_binary prec emax x = true -> valid_binary prec emax y = true ->
  SFleb (S754_zero false) y = true ->
  SFsub prec emax x y <> S754_nan ->
  SFleb (SFsub prec emax x y) x = true.
Proof.
  intros Vx Vy Hy Hnan.
  destruct y as [sy | sy | | sy my ey]; try discriminate.
  - destruct x as [sx | sx | | sx mx ex]; cbn [SFsub] in *.
    + destruct sx, sy; reflexivity.
    + destruct sx; reflexivity.
    + congruence.
    + apply SFleb_refl_finite.
  - destruct sy; [discriminate|].
    destruct x as [sx | sx | | sx mx ex]; cbn [SFsub negb] in *.
    + reflexivity.
    + destruct sx; [reflexivity | congruence].
    + congruence.
    + destruct sx; reflexivity.
  - destruct sy; [discriminate|].
    destruct x as [sx | sx | | sx mx ex]; cbn [SFsub negb] in *.
    + reflexivity.
    + destruct sx; reflexivity.
    + congruence.
    + cbn [valid_binary] in Vx, Vy.
      destruct (bounded_inv mx ex Vx) as [Cx Bx].
      destruct (bounded_inv my ey Vy) as [Cy By].
      destruct (canonical_bounds mx ex Cx) as (Hex & _).
      destruct (canonical_bounds my ey Cy) as (Hey & _).
      set (ez := Z.min ex ey) in *.
      assert (Hez : emin <= ez) by (subst ez; lia).
      pose proof (shl_align_value mx ex ez Hez ltac:(subst ez; lia)) as HX.
      pose proof (shl_align_value my ey ez Hez ltac:(subst ez; lia)) as HY.
      set (Mx := fst (shl_align mx ex ez)) in *.
      set (My := fst (shl_align my ey ez)) in *.
      pose proof (pow2_pos (ez - emin) ltac:(lia)) as Hpz.
      destruct sx; cbn [cond_Zopp].
      * (* x negative: the magnitude grows *)
        change (- Zpos Mx - Zpos My) with (Zneg (Mx + My)). cbn [binary_normalize].
        assert (Hle : Zpos mx * 2 ^ (ex - emin) <= Zpos (Mx + My) * 2 ^ (ez - emin)).
        { rewrite <- HX. apply Z.mul_le_mono_nonneg_r; lia. }
        destruct (binary_round_above true (Mx + My) mx ez ex Hez Cx Hle)
          as [-> | (m2 & e2 & -> & Hlex)]; [reflexivity|].
        apply SFleb_lex_neg. exact Hlex.
      * (* x positive *)
        destruct (Zpos Mx - Zpos My) as [|p|p] eqn:Ez; cbn [binary_normalize].
        -- reflexivity.
        -- assert (Hlt : Zpos p * 2 ^ (ez - emin) < Zpos mx * 2 ^ (ex - emin)).
           { rewrite <- HX. apply Z.mul_lt_mono_pos_r; lia. }
           destruct (binary_round_below false p mx ez ex Hez Cx Bx Hlt)
             as [-> | (m2 & e2 & -> & Hlex)]; [reflexivity|].
           apply SFleb_lex_pos. exact Hlex.
        -- destruct (binary_round_shape true p ez Hez)
             as [-> | [-> | (m2 & e2 & ->)]]; reflexivity.
Qed.

End Rounding.

(** *** Signs of the results of the operations *)

Section Signs.
Variables prec emax : Z.
Import SpecFloat Float64.

Lemma binary_round_aux_signClear (m e : Z) (l : location) :
  SFsignClear (binary_round_aux prec emax false m e l) = true.
Proof.
  unfold binary_round_aux.
  destruct (shr_fexp prec emax m e l) as [mrs' e'].
  destruct (shr_fexp prec emax _ e' loc_Exact) as [mrs2 e2].
  destruct (shr_m mrs2); [reflexivity| |reflexivity].
  destruct (e2 <=? emax - prec)%Z; reflexivity.
Qed.

Lemma binary_normalize_signClear (m e : Z) :
  (0 <= m)%Z -> SFsignClear (binary_normalize prec emax m e false) = true.
Proof.
  intros Hm. destruct m as [|p|p]; cbn [binary_normalize]; [reflexivity | |lia].
  unfold binary_round. destruct (shl_align _ _ _) as [mz ez].
  apply binary_round_aux_signClear.
Qed.

Lemma binary_round_aux_notNegative (m e : Z) (l : location) :
  SFnotNegative (binary_round_aux prec emax false m e l) = true.
Proof.
  unfold binary_round_aux.
  destruct (shr_fexp prec emax m e l) as [mrs' e'].
  destruct (shr_fexp prec emax _ e' loc_Exact) as [mrs2 e2].
  destruct (shr_m mrs2); [reflexivity| |reflexivity].
  destruct (e2 <=? emax - prec)%Z; reflexivity.
Qed.

Lemma binary_round_notNegative (p : positive) (e : Z) :
  SFnotNegative (binary_round prec emax false p e) = true.
Proof.
  unfold binary_round. destruct (shl_align _ _ _) as [mz ez].
  apply binary_round_aux_notNegative.
Qed.

Lemma binary_normalize_notNegative (m e : Z) :
  (0 <= m)%Z -> SFnotNegative (binary_normalize prec emax m e false) = true.
Proof.
  intros Hm. destruct m as [|p|p]; cbn [binary_normalize];
    [reflexivity | apply binary_round_notNegative | lia].
Qed.

Lemma SFmul_notNegative (x y : spec_float) :
  SFnotNegative x = true -> SFnotNegative y = true -> SFnotNegative (SFmul prec emax x y) = true.
Proof.
  destruct x as [sx | sx | | sx mx ex], y as [sy | sy | | sy my ey];
    cbn [SFnotNegative SFmul]; intros Hx Hy; try reflexivity;
    try (destruct sx; [discriminate|]); try (destruct sy; [discriminate|]);
    cbn [xorb negb]; try reflexivity.
  apply binary_round_aux_notNegative.
Qed.

Lemma SFdiv_notNegative (x y : spec_float) :
  SFnotNegative x = true -> SFsignClear y = true -> SFnotNegative (SFdiv prec emax x y) = true.
Proof.
  destruct x as [sx | sx | | sx mx ex], y as [sy | sy | | sy my ey];
    cbn [SFnotNegative SFsignClear SFdiv]; intros Hx Hy; try reflexivity;
    try (destruct sy; [discriminate|]);
    try (destruct sx; [discriminate|]); cbn [xorb negb]; try reflexivity.
  destruct (SFdiv_core_binary prec emax (Zpos mx) ex (Zpos my) ey) as [[mz ez] lz].
  apply binary_round_aux_notNegative.
Qed.

Lemma SFsqrt_notNegative (x : spec_float) : SFnotNegative (SFsqrt prec emax x) = true.
Proof.
  destruct x as [sx | sx | | sx mx ex]; cbn [SFsqrt]; try reflexivity.
  - destruct sx; reflexivity.
  - destruct sx; [reflexivity|].
    destruct (SFsqrt_core_binary prec emax (Zpos mx) ex) as [[mz ez] lz].
    apply binary_round_aux_notNegative.
Qed.

Lemma SFabs_notNegative (x : spec_float) : SFnotNegative (SFabs x) = true.
Proof. destruct x; reflexivity. Qed.

Lemma SFadd_notNegative (x y : spec_float) :
  SFnotNegative x = true -> SFnotNegative y = true -> SFnotNegative (SFadd prec emax x y) = true.
Proof.
  destruct x as [sx | sx | | sx mx ex], y as [sy | sy | | sy my ey];
    cbn [SFnotNegative SFadd]; intros Hx Hy; try reflexivity;
    try (destruct sx; [discriminate|]); try (destruct sy; [discriminate|]);
    try reflexivity; try (destruct sx, sy; reflexivity);
    try (destruct sx; reflexivity); try (destruct sy; reflexivity).
  cbn [cond_Zopp]. apply binary_normalize_notNegative. lia.
Qed.

Lemma SFnotNegative_leb (y : spec_float) :
  SFnotNegative y = true -> y <> S754_nan -> SFleb (S754_zero false) y = true.
Proof.
  destruct y as [sy | sy | | sy my ey]; cbn [SFnotNegative]; intros Hy Hn;
    try congruence; try (destruct sy; [discriminate|]); reflexivity.
Qed.

Lemma SFleb_notNegative (y : spec_float) :
  SFleb (S754_zero false) y = true -> SFnotNegative y = true.
Proof.
  destruct y as [sy | sy | | sy my ey]; try reflexivity; destruct sy;
    try reflexivity; discriminate.
Qed.

End Signs.

(** *** Binary64 *)

Section Binary64Order.
Import Float64.
Local Open Scope float_scope.

Lemma is_nan_spec (x : float) : is_nan x = false -> Prim2SF x <> S754_nan.
Proof.
  unfold is_nan. rewrite FloatAxioms.eqb_spec. intros H E. rewrite E in H. discriminate.
Qed.

Lemma notNegative_of_leb (k : float) : (0 <=? k) = true -> notNegative k.
Proof.
  rewrite FloatAxioms.leb_spec. intros H. apply SFleb_notNegative. exact H.
Qed.

Lemma notNegative_zero : notNegative 0.
Proof. reflexivity. Qed.

Lemma notNegative_mul (x y : float) : notNegative x -> notNegative y -> notNegative (x * y).
Proof. unfold notNegative. rewrite FloatAxioms.mul_spec. apply SFmul_notNegative. Qed.

Lemma notNegative_div (x y : float) : notNegative x -> signClear y -> notNegative (x / y).
Proof. unfold notNegative, signClear. rewrite FloatAxioms.div_spec. apply SFdiv_notNegative. Qed.

Lemma notNegative_add (x y : float) : notNegative x -> notNegative y -> notNegative (x + y).
Proof. unfold notNegative. rewrite FloatAxioms.add_spec. apply SFadd_notNegative. Qed.

Lemma notNegative_sqrt (x : float) : notNegative (sqrt x).
Proof. unfold notNegative. rewrite FloatAxioms.sqrt_spec. apply SFsqrt_notNegative. Qed.

Lemma notNegative_abs (x : float) : notNegative (abs x).
Proof. unfold notNegative. rewrite FloatAxioms.abs_spec. apply SFabs_notNegative. Qed.

Lemma signClear_of_uint63 (n : Uint63.int) : signClear (of_uint63 n).
Proof.
  unfold signClear. rewrite FloatAxioms.of_uint63_spec.
  apply binary_normalize_signClear. apply Uint63.to_Z_bounded.
Qed.

(** Adding a number that is not negative gives a number that is not
    smaller, or NaN. *)
Lemma float_add_ge (m h : float) :
  notNegative h -> is_nan (m + h) = false -> (m <=? m + h) = true.
Proof.
  intros Hh Hn. apply is_nan_spec in Hn.
  rewrite FloatAxioms.leb_spec. rewrite FloatAxioms.add_spec in *.
  apply (SFadd_ge FloatOps.prec FloatOps.emax ltac:(reflexivity));
    try apply FloatAxioms.Prim2SF_valid; [|exact Hn].
  apply SFnotNegative_leb; [exact Hh|].
  intros E. apply Hn. rewrite E. unfold FloatAxioms.SF64add.
  destruct (Prim2SF m); reflexivity.
Qed.

(** Subtracting a number that is not negative gives a number that is
    not larger, or NaN. *)
Lemma float_sub_le (m h : float) :
  notNegative h -> is_nan (m - h) = false -> (m - h <=? m) = true.
Proof.
  intros Hh Hn. apply is_nan_spec in Hn.
  rewrite FloatAxioms.leb_spec. rewrite FloatAxioms.sub_spec in *.
  apply (SFsub_le FloatOps.prec FloatOps.emax ltac:(reflexivity));
    try apply FloatAxioms.Prim2SF_valid; [|exact Hn].
  apply SFnotNegative_leb; [exact Hh|].
  intros E. apply Hn. rewrite E. unfold FloatAxioms.SF64sub.
  destruct (Prim2SF m); reflexivity.
Qed.

End Binary64Order.

Section BandStructure.
Context {A : Type} {N : Num A}.
Import ChartPriceCall.

Lemma bollinger_at (prices : list A) (period : nat) (k : A) (i : nat) :
  i < length prices ->
  let b := calculateBollingerBands prices period k in
  let r := bollingerAt prices period k i in
  nth_error (upperBand b) i = Some (fst (fst r))
  /\ nth_error (middleBand b) i = Some (snd (fst r))
  /\ nth_error (lowerBand b) i = Some (snd r).
Proof.
  intros Hi. unfold calculateBollingerBands, bandRows. simpl.
  repeat split; apply nth_error_rows_proj; exact Hi.
Qed.

Lemma keltner_at (prices : list A) (period : nat) (k : A) (i : nat) :
  i < length prices ->
  let b := calculateKeltnerChannels prices period k in
  let r := keltnerAt prices period k i in
  nth_error (upperBand b) i = Some (fst (fst r))
  /\ nth_error (middleBand b) i = Some (snd (fst r))
  /\ nth_error (lowerBand b) i = Some (snd r).
Proof.
  intros Hi. unfold calculateKeltnerChannels, bandRows. simpl.
  repeat split; apply nth_error_rows_proj; exact Hi.
Qed.

(** Both band computations are absent during warm-up, in any arithmetic. *)
Lemma bands_absent_in_warmup (prices : list A) (period : nat) (k : A) (i : nat) :
  i < length prices -> i < period - 1 ->
  let bb := calculateBollingerBands prices period k in
  let kc := calculateKeltnerChannels prices period k in
  (nth_error (upperBand bb) i = Some None
   /\ nth_error (middleBand bb) i = Some None
   /\ nth_error (lowerBand bb) i = Some None)
  /\ (nth_error (upperBand kc) i = Some None
      /\ nth_error (middleBand kc) i = Some None
      /\ nth_error (lowerBand kc) i = Some None).
Proof.
  intros Hi Hw bb kc.
  assert (Hb : (i <? period - 1)%nat = true) by now apply Nat.ltb_lt.
  destruct (bollinger_at prices period k i Hi) as (U & Mi & L).
  destruct (keltner_at prices period k i Hi) as (U' & Mi' & L').
  fold bb in U, Mi, L. fold kc in U', Mi', L'.
  unfold bollingerAt in U, Mi, L. unfold keltnerAt in U', Mi', L'.
  rewrite Hb in *. simpl in *. repeat split; assumption.
Qed.

Lemma slice_length (xs : list A) (a b : nat) :
  a <= b -> b <= length xs -> length (slice xs a b) = b - a.
Proof.
  intros Hab Hb. unfold slice. rewrite length_firstn, length_skipn. lia.
Qed.

Lemma absDiffs_length (xs : list A) : length (absDiffs xs) = length xs - 1.
Proof.
  induction xs as [|a [|b r] IH]; simpl in *; auto. rewrite IH. lia.
Qed.

End BandStructure.

Section BandOrdering.
Import ChartPriceCall Float64.
Local Open Scope float_scope.

Lemma notNegative_fold (xs : list float) (acc : float) :
  notNegative acc -> Forall notNegative xs ->
  notNegative (fold_left (fun s x => (s + x)%num) xs acc).
Proof.
  revert acc. induction xs as [|x xs IH]; intros acc Hacc Hall; cbn [fold_left];
    [exact Hacc|].
  inversion Hall; subst. apply IH; [|assumption].
  now apply notNegative_add.
Qed.

Lemma notNegative_absDiffs (xs : list float) : Forall notNegative (absDiffs xs).
Proof.
  induction xs as [|a [|b r] IH]; cbn [absDiffs]; constructor;
    [apply notNegative_abs | exact IH].
Qed.

Lemma signClear_of_nat (n : nat) : signClear (of_Z (Z.of_nat n)).
Proof.
  cbn [of_Z float_Num]. unfold Float64.of_Z.
  destruct (Z.of_nat n) eqn:E; [reflexivity | apply signClear_of_uint63 | lia].
Qed.

(** The half-width of the Keltner channel is not negative. *)
Lemma keltner_offset_notNegative (k : float) (xs : list float) :
  notNegative k ->
  notNegative (k * (sum (absDiffs xs) / of_Z (Z.of_nat (length (absDiffs xs))))%num).
Proof.
  intros Hk. apply notNegative_mul; [exact Hk|].
  apply notNegative_div; [|apply signClear_of_nat].
  apply notNegative_fold; [reflexivity | apply notNegative_absDiffs].
Qed.

(** C4, as it holds on binary64, for a nonnegative multiplier:
    - both band computations are absent at every position i < P-1;
    - at every position i >= P-1 the three Bollinger values are present,
      the middle one is the SMA of the window, upper >= middle holds
      unless upper is NaN, and middle >= lower holds unless lower is NaN;
    - the same holds of the Keltner channels. *)
Theorem C4_band_ordering (prices : list float) (P : nat) (k : float) (i : nat) :
  (0 <=? k) = true -> (i < length prices)%nat ->
  let bb := calculateBollingerBands prices P k in
  let kc := calculateKeltnerChannels prices P k in
  ((i < P - 1)%nat ->
   (nth_error (upperBand bb) i = Some None
    /\ nth_error (middleBand bb) i = Some None
    /\ nth_error (lowerBand bb) i = Some None)
   /\ (nth_error (upperBand kc) i = Some None
       /\ nth_error (middleBand kc) i = Some None
       /\ nth_error (lowerBand kc) i = Some None))
  /\ ((P - 1 <= i)%nat ->
      exists upper middle lower,
        nth_error (upperBand bb) i = Some (Some upper)
        /\ nth_error (middleBand bb) i = Some (Some middle)
        /\ nth_error (lowerBand bb) i = Some (Some lower)
        /\ nth_error (SMA_spec prices P) i = Some (Some middle)
        /\ (is_nan upper = false -> (middle <=? upper) = true)
        /\ (is_nan lower = false -> (lower <=? middle) = true))
  /\ ((P - 1 <= i)%nat ->
      exists upper middle lower,
        nth_error (upperBand kc) i = Some (Some upper)
        /\ nth_error (middleBand kc) i = Some (Some middle)
        /\ nth_error (lowerBand kc) i = Some (Some lower)
        /\ nth_error (SMA_spec prices P) i = Some (Some middle)
        /\ (is_nan upper = false -> (middle <=? upper) = true)
        /\ (is_nan lower = false -> (lower <=? middle) = true)).
Proof.
  intros Hk Hi bb kc. apply notNegative_of_leb in Hk. split; [|split].
  - intros Hw. now apply bands_absent_in_warmup.
  - intros HPi.
    destruct (bollinger_at prices P k i Hi) as (U & Mi & L).
    fold bb in U, Mi, L. unfold bollingerAt in U, Mi, L.
    rewrite SMA_spec_at by exact Hi.
    destruct (Nat.ltb_spec i (P - 1)) as [? | _]; [lia|].
    cbn [fst snd] in U, Mi, L.
    eexists _, _, _. split; [exact U|]. split; [exact Mi|]. split; [exact L|].
    split; [reflexivity|].
    assert (Hoff : forall v, notNegative (k * PrimFloat.sqrt v))
      by (intros v; apply notNegative_mul; [exact Hk | apply notNegative_sqrt]).
    split; intros Hnan.
    + exact (float_add_ge _ _ (Hoff _) Hnan).
    + exact (float_sub_le _ _ (Hoff _) Hnan).
  - intros HPi.
    destruct (keltner_at prices P k i Hi) as (U & Mi & L).
    fold kc in U, Mi, L. unfold keltnerAt in U, Mi, L.
    rewrite SMA_spec_at by exact Hi.
    destruct (Nat.ltb_spec i (P - 1)) as [? | _]; [lia|].
    cbn [fst snd] in U, Mi, L.
    eexists _, _, _. split; [exact U|]. split; [exact Mi|]. split; [exact L|].
    split; [reflexivity|].
    split; intros Hnan.
    + exact (float_add_ge _ _ (keltner_offset_notNegative k _ Hk) Hnan).
    + exact (float_sub_le _ _ (keltner_offset_notNegative k _ Hk) Hnan).
Qed.

Lemma C4_band_ordering_witness :
  (0 <=? 2) = true
  /\ (1 < length [1; 2; 4])%nat
  /\ (2 - 1 <= 1)%nat
  /\ exists upper middle lower,
       nth_error (upperBand (calculateKeltnerChannels [1; 2; 4] 2 2)) 1 = Some (Some upper)
       /\ nth_error (middleBand (calculateKeltnerChannels [1; 2; 4] 2 2)) 1
          = Some (Some middle)
       /\ nth_error (lowerBand (calculateKeltnerChannels [1; 2; 4] 2 2)) 1 = Some (Some lower)
       /\ is_nan upper = false /\ is_nan lower = false
       /\ (middle <=? upper) = true /\ (lower <=? middle) = true.
Proof.
  assert (Hk : (0 <=? 2) = true) by (vm_compute; reflexivity).
  assert (Hi : (1 < length [1; 2; 4])%nat) by (simpl; lia).
  assert (HPi : (2 - 1 <= 1)%nat) by (simpl; lia).
  split; [exact Hk|]. split; [exact Hi|]. split; [exact HPi|].
  destruct (C4_band_ordering [1; 2; 4] 2 2 1 Hk Hi) as (_ & _ & Hkc).
  destruct (Hkc HPi) as (upper & middle & lower & Hu & Hm & Hl & _ & Hup & Hlo).
  exists upper, middle, lower.
  assert (Nu : is_nan upper = false)
    by (vm_compute in Hu; injection Hu as <-; vm_compute; reflexivity).
  assert (Nl : is_nan lower = false)
    by (vm_compute in Hl; injection Hl as <-; vm_compute; reflexivity).
  repeat split; auto.
Defined.

End BandOrdering.

Open Scope float_scope.

(** With period 1 the Keltner window holds one price and no true range:
    the average true range is 0/0, so the upper and lower channels are
    NaN and neither comparison with the middle band holds. *)
Lemma C4_keltner_period_1_counterexample :
  (0 <=? 2)%float = true
  /\ ~ (exists upper middle lower,
          nth_error (ChartPriceCall.upperBand
                       (ChartPriceCall.calculateKeltnerChannels [1; 2; 3] 1 2)) 0
          = Some (Some upper)
          /\ nth_error (ChartPriceCall.middleBand
                          (ChartPriceCall.calculateKeltnerChannels [1; 2; 3] 1 2)) 0
             = Some (Some middle)
          /\ nth_error (ChartPriceCall.lowerBand
                          (ChartPriceCall.calculateKeltnerChannels [1; 2; 3] 1 2)) 0
             = Some (Some lower)
          /\ (middle <=? upper)%num = true
          /\ (lower <=? middle)%num = true).
Proof.
  split; [vm_compute; reflexivity|].
  intros (upper & middle & lower & Hu & Hm & _ & Hle & _).
  vm_compute in Hu, Hm.
  injection Hu as <-. injection Hm as <-.
  vm_compute in Hle. discriminate.
Qed.

Close Scope float_scope.

(** ** Demand/supply zones (C7, C8, C9) *)

Section ZoneDetection.
Context {A : Type} {N : Num A}.
Import ChartPricePut.

Lemma flat_map_all_nil (X Y : Type) (f : X -> list Y) (l : list X) :
  (forall x, In x l -> f x = []) -> flat_map f l = [].
Proof.
  induction l as [|x l IH]; intros H; simpl; auto.
  rewrite (H x) by now left. apply IH. intros y Hy. apply H. now right.
Qed.

(** In an increasing series the next price rules out a swing high and
    the previous price rules out a swing low. *)
Lemma swingAt_increasing (prices : list A) (i : nat) :
  (forall x y : A, (x <? y)%num = true -> (x <=? y)%num = true) ->
  increasing prices ->
  lookbackPeriod <= i -> i + lookbackPeriod < length prices ->
  swingAt prices i = [].
Proof.
  unfold lookbackPeriod. intros Hlaw Hinc Hlo Hhi. unfold swingAt.
  destruct (nth_error prices i) as [cur|] eqn:Hcur; [|reflexivity].
  destruct (nth_error prices (S i)) as [next|] eqn:Hnext;
    [|apply nth_error_None in Hnext; lia].
  destruct (nth_error prices (i - 1)) as [prev|] eqn:Hprev;
    [|apply nth_error_None in Hprev; lia].
  assert (Hhigh : isSwingHigh prices i cur = false).
  { destruct (isSwingHigh prices i cur) eqn:E; [|reflexivity].
    unfold isSwingHigh in E. rewrite forallb_forall in E.
    specialize (E (S i)). unfold lookbackPeriod in E.
    rewrite in_seq in E. specialize (E ltac:(lia)).
    unfold geAt in E. rewrite Hnext in E.
    rewrite (Hlaw cur next (Hinc i cur next Hcur Hnext)) in E.
    destruct (Nat.eqb_spec (S i) i); [lia | discriminate]. }
  assert (Hlow : isSwingLow prices i cur = false).
  { destruct (isSwingLow prices i cur) eqn:E; [|reflexivity].
    unfold isSwingLow in E. rewrite forallb_forall in E.
    specialize (E (i - 1)). unfold lookbackPeriod in E.
    rewrite in_seq in E. specialize (E ltac:(lia)).
    unfold leAt in E. rewrite Hprev in E.
    assert (Hcur' : nth_error prices (S (i - 1)) = Some cur)
      by (replace (S (i - 1)) with i by lia; exact Hcur).
    rewrite (Hlaw prev cur (Hinc (i - 1) prev cur Hprev Hcur')) in E.
    destruct (Nat.eqb_spec (i - 1) i); [lia | discriminate]. }
  now rewrite Hhigh, Hlow.
Qed.

Lemma swingPoints_increasing (prices : list A) :
  (forall x y : A, (x <? y)%num = true -> (x <=? y)%num = true) ->
  increasing prices ->
  swingPoints prices = [].
Proof.
  intros Hlaw Hinc. unfold swingPoints. apply flat_map_all_nil.
  intros i Hi. rewrite in_seq in Hi. unfold lookbackPeriod in Hi.
  apply swingAt_increasing; auto; unfold lookbackPeriod; lia.
Qed.

(** Sorting no zone leaves no zone. *)
Lemma strongest_nil (getTime : option String.string -> A)
      (arraySort : (Zone A -> Zone A -> A) -> list (Zone A) -> list (Zone A)) :
  keepsElements arraySort -> strongest getTime arraySort [] = [].
Proof.
  intros Hsort. unfold strongest. cbn [filter].
  rewrite (Permutation_nil (Permutation_sym (Hsort (byRecency getTime) []))).
  reflexivity.
Qed.

(** C7. For a strictly increasing price series (in an arithmetic where
    [x < y] entails [x <= y], as for binary64), whatever sort procedure
    the engine provides, the zone detector completes with no demand zone
    and no supply zone. *)
Theorem C7_increasing_series_has_no_zones
        (getTime : option String.string -> A)
        (arraySort : (Zone A -> Zone A -> A) -> list (Zone A) -> list (Zone A))
        (prices : list A) (dates : list String.string) :
  keepsElements arraySort ->
  (forall x y : A, (x <? y)%num = true -> (x <=? y)%num = true) ->
  increasing prices ->
  calculateDemandSupplyZones getTime arraySort prices dates
  = Returns {| demand := []; supply := [] |}.
Proof.
  intros Hsort Hlaw Hinc. unfold calculateDemandSupplyZones, demandSupplyZones.
  rewrite (swingPoints_increasing prices Hlaw Hinc).
  destruct (length prices <? 10)%nat; [reflexivity|].
  cbn [filter]. unfold clusterZones. cbn [fold_left].
  now rewrite (strongest_nil getTime arraySort Hsort).
Qed.

(** The sort procedure used in the examples rearranges its input. *)
Lemma insertSorted_permutation (compareFn : Zone A -> Zone A -> A) (a : Zone A)
      (sorted : list (Zone A)) :
  Permutation (insertSorted compareFn a sorted) (a :: sorted).
Proof.
  induction sorted as [|b rest IH]; cbn [insertSorted]; [apply Permutation_refl|].
  destruct (_ <? _)%num; [|apply Permutation_refl].
  apply Permutation_trans with (b :: a :: rest);
    [now apply perm_skip | apply perm_swap].
Qed.

Lemma insertionSort_keepsElements : keepsElements (@insertionSort A N).
Proof.
  intros compareFn zones. unfold insertionSort.
  induction zones as [|a zones IH]; cbn [fold_right]; [apply Permutation_refl|].
  apply Permutation_trans with (a :: fold_right (insertSorted compareFn) [] zones);
    [apply insertSorted_permutation | now apply perm_skip].
Qed.

End ZoneDetection.

Lemma float_ltb_leb (x y : float) :
  PrimFloat.ltb x y = true -> PrimFloat.leb x y = true.
Proof.
  rewrite FloatAxioms.ltb_spec, FloatAxioms.leb_spec.
  unfold SpecFloat.SFltb, SpecFloat.SFleb.
  destruct (SpecFloat.SFcompare _ _) as [[ | | ]|]; congruence.
Qed.

Open Scope float_scope.

Lemma C7_increasing_series_has_no_zones_witness :
  increasing [1; 2; 3; 4; 5; 6; 7; 8; 9; 10; 11; 12]
  /\ ChartPricePut.calculateDemandSupplyZones
       (fun _ => 0) (@ChartPricePut.insertionSort float float_Num)
       [1; 2; 3; 4; 5; 6; 7; 8; 9; 10; 11; 12] []
     = ChartPricePut.Returns
         {| ChartPricePut.demand := []; ChartPricePut.supply := [] |}.
Proof.
  assert (Hinc : increasing [1; 2; 3; 4; 5; 6; 7; 8; 9; 10; 11; 12]).
  { intros i a b Ha Hb.
    do 11 (destruct i as [|i];
           [simpl in Ha, Hb; injection Ha as <-; injection Hb as <-;
            vm_compute; reflexivity|]).
    destruct i; discriminate. }
  split; [exact Hinc|].
  apply (C7_increasing_series_has_no_zones (fun _ => 0) (@ChartPricePut.insertionSort float float_Num));
    [exact insertionSort_keepsElements
    | intros x y H; exact (float_ltb_leb x y H) | exact Hinc].
Defined.

Close Scope float_scope.

Section ZoneClustering.
Context {A : Type} {N : Num A}.
Import ChartPricePut.

Lemma touchZone_first_match (before after : list (Zone A)) (zone : Zone A)
      (current : SwingPoint A) (dates : list String.string) :
  (forall z, In z before ->
             (priceDiffOf (sp_price current) (price z) <=? tolerance)%num = false) ->
  (priceDiffOf (sp_price current) (price zone) <=? tolerance)%num = true ->
  touchZone (before ++ zone :: after) current dates
  = Some (before ++ touched zone current dates :: after).
Proof.
  intros Hbefore Hzone. induction before as [|z before IH]; simpl.
  - unfold priceDiffOf in Hzone. now rewrite Hzone.
  - pose proof (Hbefore z (or_introl eq_refl)) as Hz. unfold priceDiffOf in Hz.
    rewrite Hz, IH; [reflexivity|].
    intros z' Hz'. apply Hbefore. now right.
Qed.

(** A swing point within tolerance of no zone opens a zone of its own. *)
Lemma touchZone_none (zones : list (Zone A)) (current : SwingPoint A)
      (dates : list String.string) :
  (forall z, In z zones ->
             (priceDiffOf (sp_price current) (price z) <=? tolerance)%num = false) ->
  touchZone zones current dates = None.
Proof.
  intros H. induction zones as [|z zones IH]; simpl; [reflexivity|].
  pose proof (H z (or_introl eq_refl)) as Hz. unfold priceDiffOf in Hz.
  rewrite Hz, IH; [reflexivity|]. intros z' Hz'. apply H. now right.
Qed.

Lemma ordered_pairs_app (X : Type) (R : X -> X -> Prop) (l1 l2 : list X) :
  ForallOrdPairs R (l1 ++ l2) ->
  ForallOrdPairs R l1 /\ ForallOrdPairs R l2
  /\ (forall a b, In a l1 -> In b l2 -> R a b).
Proof.
  induction l1 as [|x l1 IH]; cbn [app]; intros H.
  - split; [constructor|]. split; [exact H|]. intros a b [].
  - inversion H as [|? ? Hx Hrest]; subst.
    destruct (IH Hrest) as (H1 & H2 & H12).
    rewrite Forall_forall in Hx.
    split; [constructor; [|exact H1]|].
    + apply Forall_forall. intros b Hb. apply Hx, in_or_app. now left.
    + split; [exact H2|]. intros a b [<- | Ha] Hb.
      * apply Hx, in_or_app. now right.
      * now apply H12.
Qed.

(** Swing points that are pairwise apart, and apart from the zones
    found so far, open one zone each. *)
Lemma cluster_apart (dates : list String.string) (points : list (SwingPoint A)) :
  forall zones,
    (forall z p, In z zones -> In p points ->
                 (priceDiffOf (sp_price p) (price z) <=? tolerance)%num = false) ->
    ForallOrdPairs apart points ->
    fold_left (addSwing dates) points zones
    = zones ++ map (fun p => opened p dates) points.
Proof.
  induction points as [|p points IH]; intros zones Hz Hap; cbn [fold_left map].
  - now rewrite app_nil_r.
  - inversion Hap as [|? ? Hp Hrest]; subst.
    unfold addSwing at 2.
    rewrite touchZone_none by (intros z Hin; apply Hz; [exact Hin | now left]).
    rewrite IH; [now rewrite <- app_assoc | | exact Hrest].
    intros z q Hin Hq. apply in_app_or in Hin. destruct Hin as [Hin | [<- | []]].
    + apply Hz; [exact Hin | now right].
    + rewrite Forall_forall in Hp. exact (Hp q Hq).
Qed.

Lemma filter_opened (dates : list String.string) (points : list (SwingPoint A)) :
  filter (fun zone => (minZoneStrength <=? touches zone)%nat)
         (map (fun p => opened p dates) points) = [].
Proof. induction points as [|p points IH]; simpl; auto. Qed.

Lemma strongest_single (getTime : option String.string -> A)
      (arraySort : (Zone A -> Zone A -> A) -> list (Zone A) -> list (Zone A))
      (zones : list (Zone A)) (zone : Zone A) :
  keepsElements arraySort ->
  filter (fun z => (minZoneStrength <=? touches z)%nat) zones = [zone] ->
  strongest getTime arraySort zones = [zone].
Proof.
  intros Hsort H. unfold strongest. rewrite H.
  rewrite (Permutation_length_1_inv (Permutation_sym (Hsort (byRecency getTime) [zone]))).
  reflexivity.
Qed.

(** Two swing lows within tolerance, every other pair of lows apart:
    one demand zone. *)
Lemma two_near_lows (getTime : option String.string -> A)
      (arraySort : (Zone A -> Zone A -> A) -> list (Zone A) -> list (Zone A))
      (prices : list A) (dates : list String.string)
      (before between after : list (SwingPoint A)) (low1 low2 : SwingPoint A) :
  keepsElements arraySort ->
  10 <= length prices ->
  filter (isType low) (swingPoints prices)
  = before ++ low1 :: between ++ low2 :: after ->
  (priceDiffOf (sp_price low2) (sp_price low1) <=? tolerance)%num = true ->
  ForallOrdPairs apart (before ++ low1 :: between ++ after) ->
  Forall (fun a => apart a low2) before ->
  demand (demandSupplyZones getTime arraySort prices dates)
  = [ touched (opened low1 dates) low2 dates ].
Proof.
  intros Hsort Hlen Hlows Hnear Hap Hb.
  unfold demandSupplyZones.
  destruct (Nat.ltb_spec (length prices) 10) as [? | _]; [lia|].
  cbn [demand]. rewrite Hlows. unfold clusterZones.
  replace (before ++ low1 :: between ++ low2 :: after)
    with ((before ++ low1 :: between) ++ low2 :: after)
    by (rewrite <- app_assoc; reflexivity).
  replace (before ++ low1 :: between ++ after)
    with ((before ++ low1 :: between) ++ after) in Hap
    by (rewrite <- app_assoc; reflexivity).
  destruct (ordered_pairs_app _ _ _ _ Hap) as (Hap1 & Hap2 & Hcross).
  rewrite fold_left_app.
  rewrite (cluster_apart dates (before ++ low1 :: between) [])
    by (try exact Hap1; intros z p []).
  cbn [app fold_left]. rewrite map_app. cbn [map].
  unfold addSwing at 2.
  rewrite (touchZone_first_match (map (fun p => opened p dates) before)
             (map (fun p => opened p dates) between) (opened low1 dates) low2 dates).
  - rewrite cluster_apart.
    + apply strongest_single; [exact Hsort|].
      rewrite !filter_app, filter_opened. cbn [filter app touched touches].
      rewrite !filter_opened. reflexivity.
    + intros z p Hz Hp.
      assert (Hanchor : exists a, In a (before ++ low1 :: between)
                                  /\ price z = sp_price a).
      { apply in_app_or in Hz. destruct Hz as [Hz | [<- | Hz]].
        - apply in_map_iff in Hz. destruct Hz as (a & <- & Ha).
          exists a. split; [apply in_or_app; now left | reflexivity].
        - exists low1. split; [apply in_or_app; right; now left | reflexivity].
        - apply in_map_iff in Hz. destruct Hz as (a & <- & Ha).
          exists a. split; [apply in_or_app; right; now right | reflexivity]. }
      destruct Hanchor as (a & Ha & ->). exact (Hcross a p Ha Hp).
    + exact Hap2.
  - intros z Hz. apply in_map_iff in Hz. destruct Hz as (a & <- & Ha).
    rewrite Forall_forall in Hb. exact (Hb a Ha).
  - exact Hnear.
Qed.

End ZoneClustering.

(** C8. (1) A swing point within the 2% tolerance of an existing zone,
    and of no earlier zone in the list, touches that zone: its touch
    count grows by one and its end date becomes the date at the swing
    index, while its anchor price and start date stay and the other
    zones are unchanged.  (2) When two of the swing lows are within
    tolerance, the later of the earlier, and no other low is within
    tolerance of a zone it is compared with (the other lows are
    pairwise apart, and apart from the first of the two; the second
    of the two is apart from the lows before the first), then,
    whatever sort procedure the engine provides, there is exactly one
    demand zone: anchored at the first of the two lows, with 2 touches,
    from the date of the first to the date of the second.  (3) On
    binary64 this is the case of two swing lows at prices 100 and 101,
    next to any number of lows that are apart. *)
Theorem C8_touch_keeps_anchor :
  (forall (A : Type) (N : Num A) (dates : list String.string)
          (before after : list (ChartPricePut.Zone A)) (zone : ChartPricePut.Zone A)
          (current : ChartPricePut.SwingPoint A),
      (forall z, In z before ->
         (priceDiffOf (ChartPricePut.sp_price current) (ChartPricePut.price z)
          <=? ChartPricePut.tolerance)%num = false) ->
      (priceDiffOf (ChartPricePut.sp_price current) (ChartPricePut.price zone)
       <=? ChartPricePut.tolerance)%num = true ->
      ChartPricePut.addSwing dates (before ++ zone :: after) current
      = before
          ++ {| ChartPricePut.price := ChartPricePut.price zone;
                ChartPricePut.touches := S (ChartPricePut.touches zone);
                ChartPricePut.startDate := ChartPricePut.startDate zone;
                ChartPricePut.endDate := nth_error dates (ChartPricePut.index current) |}
          :: after)
  /\ (forall (A : Type) (N : Num A) (getTime : option String.string -> A)
             (arraySort : (ChartPricePut.Zone A -> ChartPricePut.Zone A -> A)
                          -> list (ChartPricePut.Zone A) -> list (ChartPricePut.Zone A))
             (prices : list A) (dates : list String.string)
             (before between after : list (ChartPricePut.SwingPoint A))
             (low1 low2 : ChartPricePut.SwingPoint A),
         keepsElements arraySort ->
         10 <= length prices ->
         filter (ChartPricePut.isType ChartPricePut.low) (ChartPricePut.swingPoints prices)
         = before ++ low1 :: between ++ low2 :: after ->
         (priceDiffOf (ChartPricePut.sp_price low2) (ChartPricePut.sp_price low1)
          <=? ChartPricePut.tolerance)%num = true ->
         ForallOrdPairs apart (before ++ low1 :: between ++ after) ->
         Forall (fun a => apart a low2) before ->
         ChartPricePut.demand
           (ChartPricePut.demandSupplyZones getTime arraySort prices dates)
         = [ {| ChartPricePut.price := ChartPricePut.sp_price low1;
                ChartPricePut.touches := 2;
                ChartPricePut.startDate := nth_error dates (ChartPricePut.index low1);
                ChartPricePut.endDate := nth_error dates (ChartPricePut.index low2) |} ])
  /\ (forall (getTime : option String.string -> float)
             (arraySort : (ChartPricePut.Zone float -> ChartPricePut.Zone float -> float)
                          -> list (ChartPricePut.Zone float)
                          -> list (ChartPricePut.Zone float))
             (prices : list float) (dates : list String.string)
             (before between after : list (ChartPricePut.SwingPoint float))
             (low1 low2 : ChartPricePut.SwingPoint float),
         keepsElements arraySort ->
         10 <= length prices ->
         filter (ChartPricePut.isType ChartPricePut.low) (ChartPricePut.swingPoints prices)
         = before ++ low1 :: between ++ low2 :: after ->
         ChartPricePut.sp_price low1 = 100%float ->
         ChartPricePut.sp_price low2 = 101%float ->
         ForallOrdPairs apart (before ++ low1 :: between ++ after) ->
         Forall (fun a => apart a low2) before ->
         ChartPricePut.demand
           (ChartPricePut.demandSupplyZones getTime arraySort prices dates)
         = [ {| ChartPricePut.price := 100%float;
                ChartPricePut.touches := 2;
                ChartPricePut.startDate := nth_error dates (ChartPricePut.index low1);
                ChartPricePut.endDate := nth_error dates (ChartPricePut.index low2) |} ]).
Proof.
  split; [|split].
  - intros A N dates before after zone current Hbefore Hzone.
    unfold ChartPricePut.addSwing.
    now rewrite (touchZone_first_match before after zone current dates Hbefore Hzone).
  - intros A N getTime arraySort prices dates before between after low1 low2
           Hsort Hlen Hlows Hnear Hap Hb.
    exact (two_near_lows getTime arraySort prices dates before between after
                         low1 low2 Hsort Hlen Hlows Hnear Hap Hb).
  - intros getTime arraySort prices dates before between after low1 low2
           Hsort Hlen Hlows H1 H2 Hap Hb.
    rewrite (two_near_lows getTime arraySort prices dates before between after
                           low1 low2 Hsort Hlen Hlows).
    + unfold touched, opened. cbn. now rewrite H1.
    + rewrite H1, H2. vm_compute. reflexivity.
    + exact Hap.
    + exact Hb.
Qed.

Open Scope float_scope.

Lemma C8_touch_keeps_anchor_witness :
  (10 <= length threeLowsSeries)%nat
  /\ filter (ChartPricePut.isType ChartPricePut.low) (ChartPricePut.swingPoints threeLowsSeries)
     = [ {| ChartPricePut.index := 5; ChartPricePut.sp_price := 100;
            ChartPricePut.type := ChartPricePut.low |};
         {| ChartPricePut.index := 16; ChartPricePut.sp_price := 101;
            ChartPricePut.type := ChartPricePut.low |};
         {| ChartPricePut.index := 27; ChartPricePut.sp_price := 50;
            ChartPricePut.type := ChartPricePut.low |} ]
  /\ ChartPricePut.demand
       (ChartPricePut.demandSupplyZones
          (fun _ => 0) (@ChartPricePut.insertionSort float float_Num) threeLowsSeries
          (map (fun _ => "2024-01-01"%string) threeLowsSeries))
     = [ {| ChartPricePut.price := 100;
            ChartPricePut.touches := 2;
            ChartPricePut.startDate :=
              nth_error (map (fun _ => "2024-01-01"%string) threeLowsSeries) 5;
            ChartPricePut.endDate :=
              nth_error (map (fun _ => "2024-01-01"%string) threeLowsSeries) 16 |} ].
Proof.
  assert (Hlen : (10 <= length threeLowsSeries)%nat) by (simpl; lia).
  assert (Hlows :
    filter (ChartPricePut.isType ChartPricePut.low) (ChartPricePut.swingPoints threeLowsSeries)
    = [] ++ {| ChartPricePut.index := 5; ChartPricePut.sp_price := 100;
               ChartPricePut.type := ChartPricePut.low |}
         :: [] ++ {| ChartPricePut.index := 16; ChartPricePut.sp_price := 101;
                     ChartPricePut.type := ChartPricePut.low |}
         :: [ {| ChartPricePut.index := 27; ChartPricePut.sp_price := 50;
                 ChartPricePut.type := ChartPricePut.low |} ])
    by (vm_compute; reflexivity).
  split; [exact Hlen|]. split; [exact Hlows|].
  destruct C8_touch_keeps_anchor as (_ & _ & Hfloat).
  refine (Hfloat (fun _ => 0) (@ChartPricePut.insertionSort float float_Num)
                 threeLowsSeries (map (fun _ => "2024-01-01"%string) threeLowsSeries)
                 [] [] _ _ _ insertionSort_keepsElements Hlen Hlows eq_refl eq_refl _ _).
  - cbn [app]. constructor; [|constructor; [constructor|constructor]].
    constructor; [|constructor]. unfold apart. vm_compute. reflexivity.
  - constructor.
Defined.

Close Scope float_scope.

Section ZoneDates.
Context {A : Type} {N : Num A}.
Import ChartPricePut.

(** Every swing point sits at an index of the price series, at least
    [lookbackPeriod] away from both ends, and carries the price found
    there. *)
Lemma swingPoints_valid (prices : list A) (p : SwingPoint A) :
  In p (swingPoints prices) ->
  lookbackPeriod <= index p /\ index p + lookbackPeriod < length prices
  /\ nth_error prices (index p) = Some (sp_price p).
Proof.
  unfold swingPoints. rewrite in_flat_map. intros (i & Hi & Hp).
  rewrite in_seq in Hi. unfold swingAt in Hp. unfold lookbackPeriod in *.
  destruct (nth_error prices i) as [cur|] eqn:Hcur; [|contradiction].
  destruct (isSwingHigh prices i cur).
  - destruct Hp as [<- | []]. simpl. repeat split; [lia | lia | exact Hcur].
  - destruct (isSwingLow prices i cur); [|contradiction].
    destruct Hp as [<- | []]. simpl. repeat split; [lia | lia | exact Hcur].
Qed.

Lemma swingAt_index (prices : list A) (i : nat) (p : SwingPoint A) :
  In p (swingAt prices i) -> index p = i.
Proof.
  unfold swingAt. destruct (nth_error prices i) as [cur|]; [|contradiction].
  destruct (isSwingHigh prices i cur); [intros [<- | []]; reflexivity|].
  destruct (isSwingLow prices i cur); [intros [<- | []]; reflexivity | contradiction].
Qed.

Lemma swingAt_sorted (prices : list A) (i : nat) :
  StronglySorted byIndex (swingAt prices i).
Proof.
  unfold swingAt. destruct (nth_error prices i) as [cur|]; [|constructor].
  destruct (isSwingHigh prices i cur); [repeat constructor|].
  destruct (isSwingLow prices i cur); repeat constructor.
Qed.

Lemma sorted_app (X : Type) (R : X -> X -> Prop) (l1 l2 : list X) :
  StronglySorted R l1 -> StronglySorted R l2 ->
  (forall a b, In a l1 -> In b l2 -> R a b) ->
  StronglySorted R (l1 ++ l2).
Proof.
  intros H1 H2 H12. induction H1 as [|a l1 H1 IH Ha]; cbn [app]; [exact H2|].
  constructor.
  - apply IH. intros x y Hx Hy. apply H12; [now right | exact Hy].
  - apply Forall_app. split; [exact Ha|].
    apply Forall_forall. intros y Hy. apply H12; [now left | exact Hy].
Qed.

Lemma sorted_app_inv (X : Type) (R : X -> X -> Prop) (l1 l2 : list X) :
  StronglySorted R (l1 ++ l2) ->
  StronglySorted R l1 /\ (forall a b, In a l1 -> In b l2 -> R a b).
Proof.
  induction l1 as [|x l1 IH]; cbn [app]; intros H.
  - split; [constructor | intros a b []].
  - inversion H as [|? ? Hrest Hx]; subst.
    destruct (IH Hrest) as (H1 & H12). rewrite Forall_forall in Hx.
    split.
    + constructor; [exact H1|]. apply Forall_forall. intros y Hy.
      apply Hx, in_or_app. now left.
    + intros a b [<- | Ha] Hb; [apply Hx, in_or_app; now right | now apply H12].
Qed.

Lemma sorted_filter (X : Type) (R : X -> X -> Prop) (f : X -> bool) (l : list X) :
  StronglySorted R l -> StronglySorted R (filter f l).
Proof.
  induction 1 as [|a l Hl IH Ha]; cbn [filter]; [constructor|].
  destruct (f a); [|exact IH]. constructor; [exact IH|].
  rewrite Forall_forall in *. intros y Hy. apply filter_In in Hy. apply Ha, Hy.
Qed.

(** The swing points come in the order of their indices, at most one
    per index. *)
Lemma swingPoints_sorted (prices : list A) :
  StronglySorted byIndex (swingPoints prices).
Proof.
  unfold swingPoints.
  generalize (length prices - 2 * lookbackPeriod) as n.
  generalize lookbackPeriod as start.
  intros start n. revert start.
  induction n as [|n IH]; intros start; cbn [seq flat_map]; [constructor|].
  apply sorted_app; [apply swingAt_sorted | apply IH|].
  intros a b Ha Hb. apply swingAt_index in Ha.
  apply in_flat_map in Hb. destruct Hb as (j & Hj & Hb).
  apply swingAt_index in Hb. apply in_seq in Hj. unfold byIndex. lia.
Qed.

(** A successful touch changes one zone, the first one within
    tolerance. *)
Lemma touchZone_inv (dates : list String.string) (current : SwingPoint A) :
  forall zones zones',
    touchZone zones current dates = Some zones' ->
    exists before zone after,
      zones = before ++ zone :: after
      /\ zones' = before ++ touched zone current dates :: after
      /\ (priceDiffOf (sp_price current) (price zone) <=? tolerance)%num = true.
Proof.
  induction zones as [|z zones IH]; intros zones' H; cbn [touchZone] in H;
    [discriminate|].
  destruct (_ <=? _)%num eqn:E.
  - injection H as <-. exists [], z, zones. repeat split. exact E.
  - destruct (touchZone zones current dates) as [rest|]; [|discriminate].
    injection H as <-.
    destruct (IH rest eq_refl) as (before & zone & after & -> & -> & Hnear).
    exists (z :: before), zone, after. repeat split. exact Hnear.
Qed.

(** The clustering loop builds every zone from swing points of the
    list: the anchor first, then each point that touched it. *)
Lemma clusterZones_members (dates : list String.string) (points : list (SwingPoint A)) :
  StronglySorted byIndex points ->
  Forall (fun z => exists first rest,
                     zoneOf dates first rest z
                     /\ (forall m, In m (first :: rest) -> In m points)
                     /\ StronglySorted byIndex (first :: rest))
         (clusterZones dates points).
Proof.
  unfold clusterZones.
  induction points as [|p points IH] using rev_ind; intros Hsorted;
    [constructor|].
  destruct (sorted_app_inv _ _ _ _ Hsorted) as (Hpts & Hlast).
  specialize (IH Hpts).
  rewrite fold_left_app. cbn [fold_left].
  set (zones := fold_left (addSwing dates) points []) in *.
  assert (Hweak : Forall (fun z => exists first rest,
                     zoneOf dates first rest z
                     /\ (forall m, In m (first :: rest) -> In m (points ++ [p]))
                     /\ StronglySorted byIndex (first :: rest)) zones).
  { eapply Forall_impl; [|exact IH].
    intros z (first & rest & Hz & Hin & Hs). exists first, rest.
    split; [exact Hz|]. split; [|exact Hs].
    intros m Hm. apply in_or_app. left. now apply Hin. }
  unfold addSwing. destruct (touchZone zones p dates) as [zones'|] eqn:Ht.
  - destruct (touchZone_inv dates p zones zones' Ht)
      as (before & zone & after & Ez & -> & Hnear).
    rewrite Ez in Hweak, IH.
    apply Forall_app in Hweak. destruct Hweak as (Hbefore & Hrest).
    inversion Hrest as [|? ? _ Hafter]; subst.
    apply Forall_app in IH. destruct IH as (_ & IHrest).
    inversion IHrest as [|? ? Hzone _]; subst.
    apply Forall_app. split; [exact Hbefore|]. constructor; [|exact Hafter].
    destruct Hzone as (first & rest & (Hp & Ht' & Hs & He & Hnears) & Hin & Hsort).
    exists first, (rest ++ [p]). split; [|split].
    + unfold zoneOf, touched. cbn [price touches startDate endDate].
      split; [exact Hp|]. split; [rewrite Ht', length_app; simpl; lia|].
      split; [exact Hs|]. split; [now rewrite last_last|].
      apply Forall_app. split; [exact Hnears|]. constructor; [|constructor].
      rewrite <- Hp. exact Hnear.
    + intros m [<- | Hm].
      * apply in_or_app. left. apply Hin. now left.
      * apply in_app_or in Hm. destruct Hm as [Hm | [<- | []]].
        -- apply in_or_app. left. apply Hin. now right.
        -- apply in_or_app. right. now left.
    + change (first :: rest ++ [p]) with ((first :: rest) ++ [p]).
      apply sorted_app; [exact Hsort | repeat constructor|].
      intros a b Ha [<- | []]. apply Hlast; [now apply Hin | now left].
  - apply Forall_app. split; [exact Hweak|]. constructor; [|constructor].
    exists p, []. split; [|split].
    + unfold zoneOf. cbn. repeat split. constructor.
    + intros m [<- | []]. apply in_or_app. right. now left.
    + repeat constructor.
Qed.

(** The zones kept are among the zones found and have enough touches. *)
Lemma In_strongest (getTime : option String.string -> A)
      (arraySort : (Zone A -> Zone A -> A) -> list (Zone A) -> list (Zone A))
      (z : Zone A) (zones : list (Zone A)) :
  keepsElements arraySort ->
  In z (strongest getTime arraySort zones) ->
  In z zones /\ minZoneStrength <= touches z.
Proof.
  unfold strongest. intros Hsort H.
  assert (Hfirst : forall n (l : list (Zone A)), In z (firstn n l) -> In z l).
  { intros n l Hin. rewrite <- (firstn_skipn n l). apply in_or_app. now left. }
  apply Hfirst in H.
  apply (Permutation_in _ (Hsort _ _)) in H.
  apply filter_In in H. destruct H as [Hin Hstrong].
  split; [exact Hin|]. now apply Nat.leb_le.
Qed.

(** The zones returned for the swing points of one type. *)
Lemma strongest_members (getTime : option String.string -> A)
      (arraySort : (Zone A -> Zone A -> A) -> list (Zone A) -> list (Zone A))
      (prices : list A) (dates : list String.string) (t : SwingType) (z : Zone A) :
  keepsElements arraySort ->
  In z (strongest getTime arraySort
          (clusterZones dates (filter (isType t) (swingPoints prices)))) ->
  exists first rest,
    zoneOf dates first rest z
    /\ 1 <= length rest
    /\ Forall (fun m => In m (swingPoints prices) /\ isType t m = true
                        /\ lookbackPeriod <= index m
                        /\ index m + lookbackPeriod < length prices
                        /\ nth_error prices (index m) = Some (sp_price m))
              (first :: rest)
    /\ StronglySorted byIndex (first :: rest).
Proof.
  intros Hsort Hz. apply In_strongest in Hz; [|exact Hsort].
  destruct Hz as [Hz Hstrong].
  pose proof (clusterZones_members dates (filter (isType t) (swingPoints prices))
                (sorted_filter _ _ _ _ (swingPoints_sorted prices))) as Hall.
  rewrite Forall_forall in Hall.
  destruct (Hall z Hz) as (first & rest & Hzone & Hin & Hsorted).
  exists first, rest. split; [exact Hzone|]. split.
  - destruct Hzone as (_ & Ht & _). unfold minZoneStrength in Hstrong. lia.
  - split; [|exact Hsorted].
    apply Forall_forall. intros m Hm. apply Hin, filter_In in Hm.
    destruct Hm as [Hm Htype].
    destruct (swingPoints_valid prices m Hm) as (H1 & H2 & H3). auto.
Qed.

(** C9, as it holds.  Whatever the lengths of the price array and of the
    date-label array, and whatever sort procedure the engine provides,
    the zone detector completes normally: it raises no error.  Each
    demand (supply) zone it returns is the zone of two or more swing
    lows (highs) of the series, taken in the order of their indices:
    its price is the price of the first, each later one is within
    tolerance of that price, its touches count them, and its start and
    end dates are the labels read at the indices of the first and of
    the last; such a label is undefined when the index is beyond the end
    of the date-label array. *)
Theorem C9_zone_detector_never_fails
        (getTime : option String.string -> A)
        (arraySort : (Zone A -> Zone A -> A) -> list (Zone A) -> list (Zone A))
        (prices : list A) (dates : list String.string) :
  keepsElements arraySort ->
  exists zones,
    calculateDemandSupplyZones getTime arraySort prices dates = Returns zones
    /\ (forall z t,
          (t = low /\ In z (demand zones)) \/ (t = high /\ In z (supply zones)) ->
          exists first rest,
            zoneOf dates first rest z
            /\ 1 <= length rest
            /\ Forall (fun m => In m (swingPoints prices) /\ isType t m = true
                                /\ lookbackPeriod <= index m
                                /\ index m + lookbackPeriod < length prices
                                /\ nth_error prices (index m) = Some (sp_price m))
                      (first :: rest)
            /\ StronglySorted byIndex (first :: rest)
            /\ (length dates <= index first -> startDate z = None)
            /\ (length dates <= index (last rest first) -> endDate z = None)).
Proof.
  intros Hsort.
  exists (demandSupplyZones getTime arraySort prices dates). split; [reflexivity|].
  intros z t Hz.
  assert (Hin : In z (strongest getTime arraySort
                        (clusterZones dates (filter (isType t) (swingPoints prices))))).
  { unfold demandSupplyZones in Hz.
    destruct (length prices <? 10)%nat; [simpl in Hz; tauto|].
    cbn [demand supply] in Hz. destruct Hz as [[-> Hz] | [-> Hz]]; exact Hz. }
  destruct (strongest_members getTime arraySort prices dates t z Hsort Hin)
    as (first & rest & Hzone & Hlen & Hall & Hsorted).
  exists first, rest. split; [exact Hzone|]. split; [exact Hlen|].
  split; [exact Hall|]. split; [exact Hsorted|].
  destruct Hzone as (_ & _ & Hs & He & _). split.
  - intros Hshort. rewrite Hs. now apply nth_error_None.
  - intros Hshort. rewrite He. now apply nth_error_None.
Qed.

End ZoneDates.

Open Scope float_scope.

(** A call with 22 prices and no date label at all: the detector does
    not fail; it returns a demand zone whose dates are undefined. *)
Lemma C9_mismatched_lengths_counterexample :
  length twoLowsSeries <> length (@nil String.string)
  /\ ChartPricePut.calculateDemandSupplyZones
       (fun _ => 0) (@ChartPricePut.insertionSort float float_Num) twoLowsSeries []
     = ChartPricePut.Returns
         {| ChartPricePut.demand :=
              [ {| ChartPricePut.price := 100;
                   ChartPricePut.touches := 2;
                   ChartPricePut.startDate := None;
                   ChartPricePut.endDate := None |} ];
            ChartPricePut.supply := [] |}
  /\ ~ (exists message,
          ChartPricePut.calculateDemandSupplyZones
            (fun _ => 0) (@ChartPricePut.insertionSort float float_Num) twoLowsSeries []
          = ChartPricePut.Throws message).
Proof.
  split; [simpl; lia|]. split; [vm_compute; reflexivity|].
  intros (message & H). vm_compute in H. discriminate.
Qed.

Lemma C9_zone_detector_never_fails_witness :
  exists zones,
    ChartPricePut.calculateDemandSupplyZones
      (fun _ => 0) (@ChartPricePut.insertionSort float float_Num) twoLowsSeries []
    = ChartPricePut.Returns zones
    /\ forall z, In z (ChartPricePut.demand zones) ->
                 ChartPricePut.startDate z = None /\ ChartPricePut.endDate z = None.
Proof.
  destruct (C9_zone_detector_never_fails
              (fun _ => 0) (@ChartPricePut.insertionSort float float_Num)
              twoLowsSeries [] insertionSort_keepsElements)
    as (zones & Hret & Hzones).
  exists zones. split; [exact Hret|].
  intros z Hz.
  destruct (Hzones z ChartPricePut.low (or_introl (conj eq_refl Hz)))
    as (first & rest & _ & _ & _ & _ & Hs & He).
  split; [apply Hs | apply He]; simpl; lia.
Defined.

Close Scope float_scope.

(* ================================================================== *)
(** * Further properties of the indicator code *)
(* ================================================================== *)

(** ** EMA: the recurrence *)

Section EmaRecurrence.
Context {A : Type} {N : Num A}.
Import ChartPriceCall.

Lemma emaTail_at (k prev : A) (rest : list A) (j : nat) (price : A) :
  nth_error rest j = Some price ->
  exists p,
    nth_error (Some prev :: emaTail k prev rest) j = Some (Some p)
    /\ nth_error (emaTail k prev rest) j = Some (Some (price * k + p * ($1 - k))%num).
Proof.
  revert prev j; induction rest as [|x rest IH]; intros prev j Hj.
  - destruct j; discriminate.
  - destruct j as [|j]; simpl in Hj.
    + injection Hj as ->. exists prev. split; reflexivity.
    + destruct (IH (x * k + prev * ($1 - k))%num j Hj) as (p & Hp & Hcur).
      exists p. split; [exact Hp | exact Hcur].
Qed.

(** The array of [calculateEMA], from its seed on. *)
Lemma calculateEMA_from_seed (prices : list A) (period m : nat) :
  1 <= period -> period <= length prices ->
  nth_error (calculateEMA prices period) (period - 1 + m)
  = nth_error (Some (sum (firstn period prices) / #period)%num
               :: emaTail ($2 / (#period + $1))%num
                          (sum (firstn period prices) / #period)%num
                          (skipn period prices)) m.
Proof.
  intros Hp Hlen. unfold calculateEMA.
  destruct (Nat.ltb_spec (length prices) period) as [? | _]; [lia|].
  destruct period as [|q]; [lia|].
  rewrite <- app_assoc.
  rewrite nth_error_app2 by (rewrite repeat_length; lia).
  rewrite repeat_length. replace (S q - 1 + m - q) with m by lia.
  reflexivity.
Qed.

(** Every EMA entry after the seed is the weighted mean of the price at
    that index and of the previous EMA entry, with weight 2/(period+1). *)
Theorem ema_recurrence (prices : list A) (period i : nat) :
  1 <= period -> period <= i -> i < length prices ->
  exists prev price,
    nth_error (calculateEMA prices period) (i - 1) = Some (Some prev)
    /\ nth_error prices i = Some price
    /\ nth_error (calculateEMA prices period) i
       = Some (Some (price * ($2 / (#period + $1))
                     + prev * ($1 - $2 / (#period + $1)))%num).
Proof.
  intros Hp Hpi Hi.
  destruct (nth_error prices i) as [price|] eqn:Hprice;
    [|apply nth_error_None in Hprice; lia].
  assert (Hrest : nth_error (skipn period prices) (i - period) = Some price).
  { rewrite nth_error_skipn. now replace (period + (i - period)) with i by lia. }
  destruct (emaTail_at ($2 / (#period + $1))%num
                       (sum (firstn period prices) / #period)%num
                       (skipn period prices) (i - period) price Hrest)
    as (p & Hprev & Hcur).
  exists p, price. split; [|split; [reflexivity|]].
  - replace (i - 1) with (period - 1 + (i - period)) by lia.
    rewrite calculateEMA_from_seed by lia. exact Hprev.
  - replace i with (period - 1 + S (i - period)) at 1 by lia.
    rewrite calculateEMA_from_seed by lia. exact Hcur.
Qed.

End EmaRecurrence.

Open Scope float_scope.

Lemma ema_recurrence_witness :
  exists prev price,
    nth_error (ChartPriceCall.calculateEMA [10; 11; 12; 11; 10] 3) (4 - 1)
    = Some (Some prev)
    /\ nth_error [10; 11; 12; 11; 10] 4 = Some price
    /\ nth_error (ChartPriceCall.calculateEMA [10; 11; 12; 11; 10] 3) 4
       = Some (Some (price * (2 / (3 + 1)) + prev * (1 - 2 / (3 + 1)))).
Proof.
  assert (H1 : (1 <= 3)%nat) by lia.
  assert (H2 : (3 <= 4)%nat) by lia.
  assert (H3 : (4 < length [10; 11; 12; 11; 10])%nat) by (simpl; lia).
  exact (ema_recurrence [10; 11; 12; 11; 10] 3 4 H1 H2 H3).
Defined.

Close Scope float_scope.

(** ** DMI (ChartDmiComponent): lengths of the arrays *)

Section DmiLengths.
Context {A : Type} {N : Num A}.
Import ChartDmi.

Lemma calculateDMI_lengths (prices : list A) (period : nat) :
  length (plusDI (calculateDMI prices period)) = length prices
  /\ length (minusDI (calculateDMI prices period)) = length prices
  /\ length (adx (calculateDMI prices period)) = length prices.
Proof.
  unfold calculateDMI. destruct (length prices <? period + 1)%nat; simpl.
  - now rewrite repeat_length.
  - now rewrite !length_map, length_seq.
Qed.

End DmiLengths.

(** ** TTM Squeeze against the band computations *)

Lemma nth_rows (T : Type) (f : nat -> T) (d : T) (n i : nat) :
  i < n -> nth i (map f (seq 0 n)) d = f i.
Proof. intros Hi. apply nth_error_nth. now apply nth_error_rows. Qed.

Section TtmAgainstBands.
Context {A : Type} {N : Num A} {M : MathMinMax A}.

(** The comparison "Bollinger inside Keltner" on two pairs of band
    entries; absent entries give [false]. *)
Lemma ttm_rows_agree (prices : list A) (period : nat) (kc bb : A) (i : nat) :
  let t := ChartTtmSqueeze.firstPassAt prices period kc bb i in
  let v := ChartPricePut.ttmAt prices period kc bb i in
  let k := ChartPriceCall.keltnerAt prices period kc i in
  let b := ChartPriceCall.bollingerAt prices period bb i in
  fst (fst (fst t)) = fst (fst k) /\ snd (fst (fst t)) = snd k
  /\ fst (fst (fst (fst v))) = fst (fst k) /\ snd (fst (fst (fst v))) = snd k
  /\ snd t = snd (fst v)
  /\ snd t = match fst (fst b), fst (fst k), snd b, snd k with
             | Some bbUpper, Some kcUpper, Some bbLower, Some kcLower =>
                 ((bbUpper <? kcUpper) && (bbLower >? kcLower))%num
             | _, _, _, _ => false
             end.
Proof.
  unfold ChartTtmSqueeze.firstPassAt, ChartPricePut.ttmAt,
    ChartPriceCall.keltnerAt, ChartPriceCall.bollingerAt.
  destruct (i <? period - 1)%nat; cbn [fst snd]; repeat split; reflexivity.
Qed.

(** In both TTM Squeeze computations the upper and lower bands are the
    Keltner channels of the same period and multiplier, and the squeeze
    flag at a position is [true] exactly when the Bollinger band entries
    there lie strictly inside the Keltner channel entries. *)
Theorem ttm_bands_are_keltner_channels (prices : list A) (period : nat) (kc bb : A) :
  let t := ChartTtmSqueeze.calculateTTMSqueeze prices period kc bb in
  let v := ChartPricePut.calculateTTMSqueeze prices period kc bb in
  let k := ChartPriceCall.calculateKeltnerChannels prices period kc in
  let b := ChartPriceCall.calculateBollingerBands prices period bb in
  ChartTtmSqueeze.upperBand t = ChartPriceCall.upperBand k
  /\ ChartTtmSqueeze.lowerBand t = ChartPriceCall.lowerBand k
  /\ ChartPricePut.upperBand v = ChartPriceCall.upperBand k
  /\ ChartPricePut.lowerBand v = ChartPriceCall.lowerBand k
  /\ ChartTtmSqueeze.squeeze t = ChartPricePut.squeeze v
  /\ forall i, i < length prices ->
       nth_error (ChartTtmSqueeze.squeeze t) i
       = Some (match nth i (ChartPriceCall.upperBand b) None,
                     nth i (ChartPriceCall.upperBand k) None,
                     nth i (ChartPriceCall.lowerBand b) None,
                     nth i (ChartPriceCall.lowerBand k) None with
               | Some bbUpper, Some kcUpper, Some bbLower, Some kcLower =>
                   ((bbUpper <? kcUpper) && (bbLower >? kcLower))%num
               | _, _, _, _ => false
               end).
Proof.
  cbv zeta.
  unfold ChartTtmSqueeze.calculateTTMSqueeze, ChartPricePut.calculateTTMSqueeze,
    ChartPriceCall.calculateKeltnerChannels, ChartPriceCall.calculateBollingerBands,
    ChartPriceCall.bandRows.
  cbn [ChartTtmSqueeze.upperBand ChartTtmSqueeze.lowerBand ChartTtmSqueeze.squeeze
       ChartPricePut.upperBand ChartPricePut.lowerBand ChartPricePut.squeeze
       ChartPriceCall.upperBand ChartPriceCall.lowerBand].
  rewrite !map_map.
  repeat split;
    try (apply map_ext; intros i;
         destruct (ttm_rows_agree prices period kc bb i)
           as (H1 & H2 & H3 & H4 & H5 & H6); cbv zeta in *; congruence).
  intros i Hi.
  rewrite (nth_error_rows _ _ (length prices) i Hi).
  rewrite !(nth_rows _ _ None (length prices) i Hi).
  f_equal. apply (ttm_rows_agree prices period kc bb i).
Qed.

End TtmAgainstBands.

Open Scope float_scope.

Lemma ttm_bands_are_keltner_channels_witness :
  nth_error (ChartTtmSqueeze.squeeze
               (ChartTtmSqueeze.calculateTTMSqueeze [1; 2; 3; 4; 5; 4; 5] 3 1.5 2)) 5
  = Some (match nth 5 (ChartPriceCall.upperBand
                         (ChartPriceCall.calculateBollingerBands [1; 2; 3; 4; 5; 4; 5] 3 2))
                    None,
                nth 5 (ChartPriceCall.upperBand
                         (ChartPriceCall.calculateKeltnerChannels [1; 2; 3; 4; 5; 4; 5] 3 1.5))
                    None,
                nth 5 (ChartPriceCall.lowerBand
                         (ChartPriceCall.calculateBollingerBands [1; 2; 3; 4; 5; 4; 5] 3 2))
                    None,
                nth 5 (ChartPriceCall.lowerBand
                         (ChartPriceCall.calculateKeltnerChannels [1; 2; 3; 4; 5; 4; 5] 3 1.5))
                    None with
          | Some bbUpper, Some kcUpper, Some bbLower, Some kcLower =>
              ((bbUpper <? kcUpper) && (bbLower >? kcLower))%num
          | _, _, _, _ => false
          end).
Proof.
  destruct (ttm_bands_are_keltner_channels [1; 2; 3; 4; 5; 4; 5] 3 1.5 2)
    as (_ & _ & _ & _ & _ & H).
  apply (H 5%nat). simpl; lia.
Defined.

Close Scope float_scope.

(** ** TTM Squeeze: bar colours *)

Section TtmBarColors.
Context {A : Type} {N : Num A} {M : MathMinMax A}.
Import ChartTtmSqueeze.

Lemma barColor_gray (current prev : option A) :
  barColor current prev = "rgba(128, 128, 128, 0.5)"%string <-> current = None.
Proof.
  unfold barColor. destruct current as [c|]; [|tauto].
  split; [|discriminate]. intros H.
  destruct (_ >=? _)%num;
    destruct (match prev with Some p => (c >? p)%num | None => true end);
    vm_compute in H; discriminate.
Qed.

Lemma rawMomentum_at (prices : list A) (period : nat) (kc bb : A) (i : nat) :
  i < length prices ->
  nth i (momentum (calculateTTMSqueeze prices period kc bb)) None
  = if (i <? period - 1)%nat then None
    else Some (linearRegression (valSeries prices period i)).
Proof.
  intros Hi. unfold calculateTTMSqueeze. cbn [momentum].
  rewrite map_map, (nth_rows _ _ None (length prices) i Hi).
  unfold firstPassAt. destruct (i <? period - 1)%nat; reflexivity.
Qed.

Lemma barColors_at (prices : list A) (period : nat) (kc bb : A) (i : nat) :
  i < length prices ->
  let d := calculateTTMSqueeze prices period kc bb in
  nth_error (barColors d) i
  = Some (barColor (nth i (momentum d) None)
                   (match i with O => None | S j => nth j (momentum d) None end)).
Proof.
  intros Hi. unfold calculateTTMSqueeze. cbn [barColors momentum].
  rewrite !length_map, length_seq.
  now rewrite (nth_error_rows _ _ (length prices) i Hi).
Qed.

(** The colour array has one entry per price; a bar is gray exactly
    where the momentum is absent; the first bar with a momentum (index
    period - 1) counts as increasing, so it is blue or yellow, never
    cyan or red. *)
Theorem ttm_bar_colors (prices : list A) (period : nat) (kc bb : A) :
  let d := calculateTTMSqueeze prices period kc bb in
  length (barColors d) = length prices
  /\ (forall i, i < length prices ->
        (nth_error (barColors d) i = Some "rgba(128, 128, 128, 0.5)"%string
         <-> nth_error (momentum d) i = Some None))
  /\ (1 <= period -> period <= length prices ->
      nth_error (barColors d) (period - 1) = Some "#2196F3"%string
      \/ nth_error (barColors d) (period - 1) = Some "#FFEB3B"%string).
Proof.
  intros d. subst d. split; [|split].
  - unfold calculateTTMSqueeze. cbn [barColors].
    now rewrite !length_map, !length_seq.
  - intros i Hi.
    rewrite (barColors_at prices period kc bb i Hi).
    set (d := calculateTTMSqueeze prices period kc bb).
    assert (Hm : nth_error (momentum d) i = Some (nth i (momentum d) None)).
    { apply nth_error_nth'. subst d. unfold calculateTTMSqueeze. cbn [momentum].
      now rewrite !length_map, length_seq. }
    rewrite Hm. split.
    + intros H. injection H as H. apply barColor_gray in H. f_equal. exact H.
    + intros H. injection H as H. f_equal. apply barColor_gray. exact H.
  - intros Hp Hlen.
    assert (Hi : period - 1 < length prices) by lia.
    rewrite (barColors_at prices period kc bb (period - 1) Hi).
    rewrite (rawMomentum_at prices period kc bb (period - 1) Hi).
    rewrite Nat.ltb_irrefl.
    assert (Hprev : match period - 1 with
                    | O => None
                    | S j => nth j (momentum (calculateTTMSqueeze prices period kc bb)) None
                    end = None).
    { destruct (period - 1) as [|j] eqn:E; [reflexivity|].
      rewrite (rawMomentum_at prices period kc bb j) by lia.
      destruct (Nat.ltb_spec j (period - 1)); [reflexivity | lia]. }
    rewrite Hprev. unfold barColor.
    destruct (_ >=? _)%num; [left | right]; reflexivity.
Qed.

End TtmBarColors.

Open Scope float_scope.

Lemma ttm_bar_colors_witness :
  nth_error (ChartTtmSqueeze.barColors
               (ChartTtmSqueeze.calculateTTMSqueeze [1; 2; 3; 4; 5; 4; 5] 3 1.5 2)) (3 - 1)
  = Some "#2196F3"%string
  \/ nth_error (ChartTtmSqueeze.barColors
                  (ChartTtmSqueeze.calculateTTMSqueeze [1; 2; 3; 4; 5; 4; 5] 3 1.5 2)) (3 - 1)
     = Some "#FFEB3B"%string.
Proof.
  destruct (ttm_bar_colors [1; 2; 3; 4; 5; 4; 5] 3 1.5 2) as (_ & _ & H).
  apply H; simpl; lia.
Defined.

Close Scope float_scope.

(** ** Zones: strength, number and touch counts *)

Section ZoneInvariants.
Context {A : Type} {N : Num A}.
Import ChartPricePut.

(** Whatever sort procedure the engine provides, the detector keeps at
    most five zones of each kind, each with at least two touches, and
    it finds no zone in a series of ten prices or fewer. *)
Theorem zones_are_few_and_strong (getTime : option String.string -> A)
        (arraySort : (Zone A -> Zone A -> A) -> list (Zone A) -> list (Zone A))
        (prices : list A) (dates : list String.string) :
  keepsElements arraySort ->
  let zones := demandSupplyZones getTime arraySort prices dates in
  length (demand zones) <= 5
  /\ length (supply zones) <= 5
  /\ (forall z, In z (demand zones) \/ In z (supply zones) -> 2 <= touches z)
  /\ (length prices <= 10 -> demand zones = [] /\ supply zones = []).
Proof.
  intros Hsort zones. subst zones. unfold demandSupplyZones.
  destruct (Nat.ltb_spec (length prices) 10) as [Hshort | Hlong];
    cbn [demand supply].
  - split; [simpl; lia|]. split; [simpl; lia|]. split.
    + intros z [[] | []].
    + intros _. split; reflexivity.
  - split; [unfold strongest; apply firstn_le_length|].
    split; [unfold strongest; apply firstn_le_length|].
    split.
    + intros z [Hz | Hz]; apply In_strongest in Hz; try exact Hsort; apply Hz.
    + intros Hten. unfold swingPoints, lookbackPeriod.
      replace (length prices - 2 * 5) with 0 by lia.
      cbn [seq flat_map filter]. unfold clusterZones. cbn [fold_left].
      rewrite (strongest_nil getTime arraySort Hsort). split; reflexivity.
Qed.

Lemma touchZone_touches (zones zones' : list (Zone A)) (current : SwingPoint A)
      (dates : list String.string) :
  touchZone zones current dates = Some zones' ->
  list_sum (map (@touches A) zones') = S (list_sum (map (@touches A) zones))
  /\ length zones' = length zones.
Proof.
  revert zones'. induction zones as [|z zones IH]; intros zones' H; simpl in H.
  - discriminate.
  - destruct (_ <=? _)%num.
    + injection H as <-. simpl. split; reflexivity.
    + destruct (touchZone zones current dates) as [rest|]; [|discriminate].
      injection H as <-. destruct (IH rest eq_refl) as (Hs & Hl).
      simpl. rewrite Hs, Hl. split; lia.
Qed.

(** Clustering counts every swing point exactly once: the touch counts
    of the zones add up to the number of swing points, and there are at
    most as many zones as swing points. *)
Theorem clustering_counts_each_point_once (dates : list String.string)
        (points : list (SwingPoint A)) :
  list_sum (map (@touches A) (clusterZones dates points)) = length points
  /\ length (clusterZones dates points) <= length points
  /\ Forall (fun z => 1 <= touches z) (clusterZones dates points).
Proof.
  unfold clusterZones.
  assert (Hgen : forall zones,
             Forall (fun z => 1 <= touches z) zones ->
             list_sum (map (@touches A) (fold_left (addSwing dates) points zones))
             = list_sum (map (@touches A) zones) + length points
             /\ length (fold_left (addSwing dates) points zones)
                <= length zones + length points
             /\ Forall (fun z => 1 <= touches z)
                       (fold_left (addSwing dates) points zones)).
  { induction points as [|p points IH]; intros zones Hpos; simpl.
    - repeat split; [lia | lia | exact Hpos].
    - assert (Hstep :
        list_sum (map (@touches A) (addSwing dates zones p))
        = S (list_sum (map (@touches A) zones))
        /\ length (addSwing dates zones p) <= S (length zones)
        /\ Forall (fun z => 1 <= touches z) (addSwing dates zones p)).
      { unfold addSwing.
        destruct (touchZone zones p dates) as [zones'|] eqn:Ht.
        - destruct (touchZone_touches zones zones' p dates Ht) as (Hs & Hl).
          split; [exact Hs|]. split; [lia|].
          clear Hs Hl. revert zones' Ht.
          induction Hpos as [|z zones Hz Hpos IHz]; intros zones' Ht; simpl in Ht.
          + discriminate.
          + destruct (_ <=? _)%num.
            * injection Ht as <-. constructor; [simpl; lia | exact Hpos].
            * destruct (touchZone zones p dates) as [rest|]; [|discriminate].
              injection Ht as <-. constructor; [exact Hz | now apply IHz].
        - rewrite map_app, list_sum_app, length_app. simpl.
          split; [lia|]. split; [lia|].
          apply Forall_app. split; [exact Hpos|]. constructor; [simpl; lia | constructor]. }
      destruct Hstep as (Hs & Hl & Hp).
      destruct (IH (addSwing dates zones p) Hp) as (Hs' & Hl' & Hp').
      repeat split; [lia | lia | exact Hp']. }
  destruct (Hgen [] (Forall_nil _)) as (Hs & Hl & Hp).
  simpl in Hs, Hl. repeat split; assumption.
Qed.

End ZoneInvariants.

Open Scope float_scope.

Lemma zones_are_few_and_strong_witness :
  ChartPricePut.demand
    (ChartPricePut.demandSupplyZones
       (fun _ => 0) (@ChartPricePut.insertionSort float float_Num) [3; 1; 2; 1; 3] []) = []
  /\ ChartPricePut.supply
       (ChartPricePut.demandSupplyZones
          (fun _ => 0) (@ChartPricePut.insertionSort float float_Num) [3; 1; 2; 1; 3] []) = [].
Proof.
  apply (zones_are_few_and_strong
           (fun _ => 0) (@ChartPricePut.insertionSort float float_Num) [3; 1; 2; 1; 3] []
           insertionSort_keepsElements).
  simpl; lia.
Defined.

Close Scope float_scope.

(** ** DMI: exactly where the entries are defined *)

Section DmiDefinedRange.
Context {A : Type} {N : Num A}.
Import ChartDmi.

Lemma ChartDmi_defined_at (prices : list A) (n i : nat) :
  1 <= n -> n + 1 <= length prices -> i < length prices ->
  let d := calculateDMI prices n in
  ((exists v, nth_error (plusDI d) i = Some (Some v)) <-> n <= i)
  /\ ((exists v, nth_error (minusDI d) i = Some (Some v)) <-> n <= i)
  /\ ((exists v, nth_error (adx d) i = Some (Some v))
      <-> 2 * n - 1 <= i /\ i + n <= length prices).
Proof.
  intros Hn Hlen Hi d. subst d.
  destruct (calculateDMI_at prices n i Hlen Hi) as (Hp & Hm & Ha).
  pose proof (diValues_length prices n Hlen) as Ldi.
  pose proof (adxValues_length prices n Hlen) as Ladx.
  rewrite Hp, Hm, Ha. unfold outputAt. rewrite !length_map, Ldi.
  destruct (Nat.ltb_spec i n) as [Hlt | Hge]; cbn [fst snd].
  - split; [|split]; (split; [intros (v & Hv); discriminate | intros; exfalso; lia]).
  - destruct (Nat.ltb_spec (i - n) (length prices - n)) as [_ | ?]; [|lia].
    cbn [fst snd].
    assert (Hsome : forall (X : Type) (l : list X) k,
               k < length l -> exists v, nth_error (map (@Some X) l) k = Some (Some v)).
    { intros X l k Hk. destruct (nth_error l k) as [v|] eqn:E;
        [|apply nth_error_None in E; lia].
      exists v. now rewrite nth_error_map, E. }
    split; [|split].
    + split; [intros _; exact Hge|]. intros _.
      destruct (nth_error (map (fun r => fst (fst r)) (diValues prices n)) (i - n))
        as [v|] eqn:E; [now exists v|].
      apply nth_error_None in E. rewrite length_map, Ldi in E. lia.
    + split; [intros _; exact Hge|]. intros _.
      destruct (nth_error (map (fun r => snd (fst r)) (diValues prices n)) (i - n))
        as [v|] eqn:E; [now exists v|].
      apply nth_error_None in E. rewrite length_map, Ldi in E. lia.
    + rewrite Ladx.
      destruct (Nat.ltb_spec (length prices - n) n) as [Hfew | Hmany].
      * cbn [Nat.leb]. rewrite orb_true_r.
        split; [intros (v & Hv); discriminate | lia].
      * destruct (Nat.ltb_spec i (n * 2 - 1)) as [Hearly | Hlate]; cbn [orb].
        -- split; [intros (v & Hv); discriminate | lia].
        -- destruct (Nat.leb_spec (length prices + 1 - 2 * n) (i - n)) as [Hend | Hin].
           ++ split; [intros (v & Hv); discriminate | lia].
           ++ destruct (Nat.ltb_spec (i - n + 1 - n) (length prices + 1 - 2 * n))
                as [Hidx | ?]; [|lia].
              split; [intros _; lia|]. intros _.
              destruct (nth_error (adxValues prices n) (i - n + 1 - n)) as [v|] eqn:E;
                [now exists v|].
              apply nth_error_None in E. rewrite Ladx in E.
              destruct (Nat.ltb_spec (length prices - n) n); lia.
Qed.

(** ChartDmiComponent, with Wilder length n >= 1 and more than n
    prices: +DI and -DI are defined exactly from index n on; ADX is
    defined exactly at the indices from 2n-1 to len-n, so its last n-1
    positions are always absent. *)
Theorem ChartDmi_defined_range (prices : list A) (n i : nat) :
  1 <= n -> n + 1 <= length prices -> i < length prices ->
  let d := calculateDMI prices n in
  ((exists v, nth_error (plusDI d) i = Some (Some v)) <-> n <= i)
  /\ ((exists v, nth_error (minusDI d) i = Some (Some v)) <-> n <= i)
  /\ ((exists v, nth_error (adx d) i = Some (Some v))
      <-> 2 * n - 1 <= i /\ i + n <= length prices).
Proof. exact (ChartDmi_defined_at prices n i). Qed.

End DmiDefinedRange.

Open Scope float_scope.

Lemma ChartDmi_defined_range_witness :
  (exists v, nth_error (ChartDmi.adx (ChartDmi.calculateDMI [1; 2; 3; 4; 3; 5; 7; 6] 2)) 7
             = Some (Some v))
  <-> (2 * 2 - 1 <= 7 /\ 7 + 2 <= length [1; 2; 3; 4; 3; 5; 7; 6])%nat.
Proof.
  apply (ChartDmi_defined_range [1; 2; 3; 4; 3; 5; 7; 6] 2 7); simpl; lia.
Defined.

Close Scope float_scope.

Section PerViewDmiDefinedRange.
Context {A : Type} {N : Num A} {M : MathMinMax A}.
Import ChartPricePut.

Lemma defined_has_last (l : list (option A)) (j : nat) (v : A) :
  nth_error l j = Some (Some v) -> exists prev rest, rev (defined l) = prev :: rest.
Proof.
  intros H. assert (Hin : In v (defined l)).
  { unfold defined. apply in_flat_map. exists (Some v).
    split; [exact (nth_error_In _ _ H) | now left]. }
  destruct (rev (defined l)) as [|prev rest] eqn:E; [|eauto].
  apply in_rev in Hin. rewrite E in Hin. contradiction.
Qed.

Lemma dmi_loop_adx_defined (n : nat) (sTR sP sM : list A) (k : nat) :
  1 <= n ->
  let st := fold_left (dmiStep n sTR sP sM) (seq 0 k)
                      {| plusDI := []; minusDI := []; adx := [] |} in
  forall i, i < k -> 2 * n - 1 <= i -> exists v, nth_error (adx st) i = Some (Some v).
Proof.
  intros Hn. induction k as [|k IH]; [intros st i Hi; lia|].
  intros st i Hi Hlate. subst st.
  rewrite seq_S, fold_left_app. cbn [fold_left Nat.add].
  destruct (dmi_loop_alignment n sTR sP sM k Hn)
    as ((_ & _ & La) & _ & _ & _ & Hfirst).
  cbv zeta in IH, La, Hfirst.
  set (st := fold_left (dmiStep n sTR sP sM) (seq 0 k)
                       {| plusDI := []; minusDI := []; adx := [] |}) in *.
  destruct (Nat.eq_dec i k) as [-> | Hne].
  - unfold dmiStep.
    destruct (Nat.ltb_spec k n) as [? | _]; [lia|]. cbn [adx].
    rewrite (nth_error_snoc_new _ _ _ _ La).
    destruct (Nat.ltb_spec k (n * 2 - 1)) as [? | _]; [lia|].
    destruct (Nat.eq_dec k (2 * n - 1)) as [E | Hgt].
    + destruct (dmi_loop_alignment n sTR sP sM (S k) Hn)
        as (_ & _ & _ & _ & Hnext).
      cbv zeta in Hnext. rewrite seq_S, fold_left_app in Hnext.
      cbn [fold_left Nat.add] in Hnext. fold st in Hnext.
      destruct (Hnext ltac:(lia)) as (v & Hv).
      unfold dmiStep in Hv.
      destruct (Nat.ltb_spec k n) as [? | _]; [lia|]. cbn [adx] in Hv.
      rewrite <- E in Hv. rewrite (nth_error_snoc_new _ _ _ _ La) in Hv.
      destruct (Nat.ltb_spec k (n * 2 - 1)) as [? | _]; [lia|].
      injection Hv as Hv. rewrite Hv. now exists v.
    + destruct (Hfirst ltac:(lia)) as (v0 & Hv0).
      destruct (defined_has_last _ _ _ Hv0) as (prev & rest & Hrev).
      rewrite Hrev. eexists; reflexivity.
  - assert (Hold : exists v, nth_error (adx st) i = Some (Some v))
      by (apply IH; lia).
    destruct Hold as (v & Hv). exists v.
    unfold dmiStep. destruct (k <? n)%nat; cbn [adx];
      rewrite nth_error_snoc_old by lia; exact Hv.
Qed.

(** The per-view [calculateDMI], with period n >= 1 and more than n
    prices, keeps one entry per price in each of its three arrays; +DI
    and -DI are defined exactly from index n on and ADX exactly from
    index 2n-1 on, up to the last price. *)
Theorem ChartPricePut_dmi_defined_range (prices : list A) (n i : nat) :
  1 <= n -> n + 1 <= length prices -> i < length prices ->
  let d := calculateDMI prices n in
  (length (plusDI d) = length prices
   /\ length (minusDI d) = length prices
   /\ length (adx d) = length prices)
  /\ ((exists v, nth_error (plusDI d) i = Some (Some v)) <-> n <= i)
  /\ ((exists v, nth_error (minusDI d) i = Some (Some v)) <-> n <= i)
  /\ ((exists v, nth_error (adx d) i = Some (Some v)) <-> 2 * n - 1 <= i).
Proof.
  intros Hn Hlen Hi d. subst d. unfold calculateDMI.
  destruct (Nat.ltb_spec (length prices) (n + 1)) as [? | _]; [lia|].
  set (sTR := calculateWilderSmoothing (trueRangesOf prices) n).
  set (sP := calculateWilderSmoothing (map fst (directionalMoves prices)) n).
  set (sM := calculateWilderSmoothing (map snd (directionalMoves prices)) n).
  destruct (dmi_loop_alignment n sTR sP sM (length prices) Hn)
    as (Hlens & Hwarm & Hdi & Hadx0 & _).
  pose proof (dmi_loop_adx_defined n sTR sP sM (length prices) Hn) as Hadx1.
  cbv zeta in Hlens, Hwarm, Hdi, Hadx0, Hadx1.
  split; [exact Hlens|].
  split; [|split].
  - split.
    + intros (v & Hv). destruct (Nat.lt_ge_cases i n) as [Hlt | Hge]; [|exact Hge].
      destruct (Hwarm i Hi Hlt) as (Hnone & _). congruence.
    + intros Hge. apply (Hdi i Hi Hge).
  - split.
    + intros (v & Hv). destruct (Nat.lt_ge_cases i n) as [Hlt | Hge]; [|exact Hge].
      destruct (Hwarm i Hi Hlt) as (_ & Hnone). congruence.
    + intros Hge. apply (Hdi i Hi Hge).
  - split.
    + intros (v & Hv).
      destruct (Nat.lt_ge_cases i (2 * n - 1)) as [Hlt | Hge]; [|exact Hge].
      rewrite (Hadx0 i Hi Hlt) in Hv. discriminate.
    + intros Hge. apply (Hadx1 i Hi Hge).
Qed.

End PerViewDmiDefinedRange.

Open Scope float_scope.

Lemma ChartPricePut_dmi_defined_range_witness :
  (exists v, nth_error (ChartPricePut.adx
                          (ChartPricePut.calculateDMI [1; 2; 3; 4; 3; 5; 7; 6] 2)) 7
             = Some (Some v))
  <-> (2 * 2 - 1 <= 7)%nat.
Proof.
  apply (ChartPricePut_dmi_defined_range [1; 2; 3; 4; 3; 5; 7; 6] 2 7); simpl; lia.
Defined.

Close Scope float_scope.

(** ** RSI: the whole shape of the output *)

Section RsiShape.
Context {A : Type} {N : Num A}.
Import ChartPriceCall.

(** With at least period + 1 prices, [calculateRSI] leaves
    len - period + 1 entries: an absent one at index 0 followed by
    defined values only; with fewer prices it leaves one absent entry
    per price. *)
Theorem calculateRSI_output_shape (prices : list A) (period : nat) :
  (period + 1 <= length prices ->
   length (calculateRSI prices period) = length prices + 1 - period
   /\ nth_error (calculateRSI prices period) 0 = Some None
   /\ forall i, 1 <= i -> i < length prices + 1 - period ->
                exists v, nth_error (calculateRSI prices period) i = Some (Some v))
  /\ (length prices < period + 1 ->
      calculateRSI prices period = repeat None (length prices)).
Proof.
  split.
  - intros Hlen. destruct (calculateRSI_shape prices period Hlen) as (L & H0 & _).
    split; [exact L|]. split; [exact H0|].
    intros i Hi1 Hi2. rewrite calculateRSI_averages by exact Hlen.
    destruct i as [|k]; [lia|]. cbn [nth_error]. rewrite nth_error_map.
    destruct (nth_error (rsiAverages prices period) k) as [gl|] eqn:E.
    + eexists; reflexivity.
    + apply nth_error_None in E.
      rewrite (rsiAverages_length prices period Hlen) in E. lia.
  - intros Hshort. unfold calculateRSI.
    destruct (Nat.ltb_spec (length prices) (period + 1)); [reflexivity | lia].
Qed.

End RsiShape.

Open Scope float_scope.

Lemma calculateRSI_output_shape_witness :
  length (ChartPriceCall.calculateRSI [1; 2; 3; 2; 5; 6] 3) = (length [1; 2; 3; 2; 5; 6] + 1 - 3)%nat
  /\ nth_error (ChartPriceCall.calculateRSI [1; 2; 3; 2; 5; 6] 3) 0 = Some None.
Proof.
  destruct (calculateRSI_output_shape [1; 2; 3; 2; 5; 6] 3) as (H & _).
  destruct (H ltac:(simpl; lia)) as (L & H0 & _). split; [exact L | exact H0].
Defined.

Close Scope float_scope.

(** ** MACD: where the three lines become defined *)

Section MacdHistogramFacts.
Context {A : Type} {N : Num A}.
Import ChartPriceCall.

Lemma macd_histogram_facts (prices : list A) (fast slow sig : nat) :
  slow <= length prices ->
  forall i, i < length prices ->
    let d := calculateMACD prices fast slow sig in
    (nth_error (histogram d) i = Some None
     <-> nth_error (macd d) i = Some None \/ nth_error (signal d) i = Some None)
    /\ (forall m s,
          nth_error (macd d) i = Some (Some m) ->
          nth_error (signal d) i = Some (Some s) ->
          nth_error (histogram d) i = Some (Some (m - s)%num)).
Proof.
  intros Hslow i Hi d.
  pose proof (macd_lengths prices fast slow sig) as (Lm & Ls & _).
  fold d in Lm, Ls.
  pose proof (macd_histogram_at prices fast slow sig i Hslow Hi) as Hh. fold d in Hh.
  rewrite Hh.
  rewrite (nth_error_nth' (macd d) None) by lia.
  rewrite (nth_error_nth' (signal d) None) by lia.
  split.
  - split.
    + intros H. injection H as H. apply subDefined_absent in H.
      destruct H as [H | H]; rewrite H; auto.
    + intros [H | H]; injection H as H; rewrite H; simpl; auto.
      destruct (nth i (macd d) None); reflexivity.
  - intros m s Hm Hs. injection Hm as Hm. injection Hs as Hs.
    rewrite Hm, Hs. reflexivity.
Qed.

End MacdHistogramFacts.

Section MacdDefinedRange.
Context {A : Type} {N : Num A}.
Import ChartPriceCall.

Lemma emaTail_defined (k prev : A) (rest : list A) (j : nat) :
  j < length rest -> exists v, nth_error (emaTail k prev rest) j = Some (Some v).
Proof.
  revert prev j; induction rest as [|x rest IH]; intros prev j Hj; simpl in Hj; [lia|].
  destruct j as [|j]; simpl; [eexists; reflexivity|]. apply IH. lia.
Qed.

(** An EMA entry is defined exactly from index period - 1 on, provided
    there are at least [period] values. *)
Lemma ema_defined_iff (values : list A) (period i : nat) :
  1 <= period -> i < length values ->
  ((exists v, nth_error (calculateEMA values period) i = Some (Some v))
   <-> period - 1 <= i /\ period <= length values).
Proof.
  intros Hp Hi. split.
  - intros (v & Hv).
    destruct (Nat.lt_ge_cases (length values) period) as [Hshort | Hlong].
    + rewrite calculateEMA_short in Hv by assumption. discriminate.
    + destruct (Nat.lt_ge_cases i (period - 1)) as [Hw | Hge]; [|lia].
      rewrite calculateEMA_warmup in Hv by assumption. discriminate.
  - intros (Hge & Hlong).
    replace i with (period - 1 + (i - (period - 1))) by lia.
    rewrite calculateEMA_from_seed by assumption.
    destruct (i - (period - 1)) as [|j] eqn:E; [eexists; reflexivity|].
    cbn [nth_error]. apply emaTail_defined. rewrite length_skipn. lia.
Qed.

(** A list whose entries are defined exactly from index [a] on is [a]
    absent entries followed by its defined values. *)
Lemma absent_then_defined (l : list (option A)) (a : nat) :
  (forall i, i < length l -> ((exists v, nth_error l i = Some (Some v)) <-> a <= i)) ->
  l = repeat None (Nat.min a (length l)) ++ map Some (defined l)
  /\ length (defined l) = length l - a.
Proof.
  revert a; induction l as [|x l IH]; intros a H.
  - simpl. rewrite Nat.min_0_r. split; reflexivity.
  - destruct a as [|a].
    + destruct (proj2 (H 0 ltac:(simpl; lia)) (Nat.le_0_l 0)) as (v & Hv).
      simpl in Hv. injection Hv as ->.
      destruct (IH 0) as (Hl & Hlen).
      { intros i Hi. specialize (H (S i) ltac:(simpl; lia)). simpl in H.
        split; [lia|]. intros _. apply H. lia. }
      simpl in Hl. cbn [Nat.min repeat app defined flat_map length map].
      fold (defined l). split.
      * simpl. f_equal. exact Hl.
      * simpl. rewrite Hlen. lia.
    + destruct x as [v|].
      * exfalso. assert (S a <= 0); [|lia].
        apply (H 0 ltac:(simpl; lia)). exists v. reflexivity.
      * destruct (IH a) as (Hl & Hlen).
        { intros i Hi. specialize (H (S i) ltac:(simpl; lia)). simpl in H.
          split; [intros Hv; apply H in Hv; lia|]. intros Ha. apply H. lia. }
        cbn [defined flat_map length app]. fold (defined l).
        cbn [Nat.min repeat app]. split.
        -- f_equal. exact Hl.
        -- rewrite Hlen. lia.
Qed.

Lemma alignSignal_absent_prefix (a : nat) (l signalLine : list (option A)) (k : nat) :
  alignSignal (repeat None a ++ l) signalLine k
  = repeat None a ++ alignSignal l signalLine k.
Proof. induction a as [|a IH]; simpl; [reflexivity | now rewrite IH]. Qed.

Lemma skipn_cons_nth (X : Type) (l : list X) (k : nat) (d : X) :
  k < length l -> skipn k l = nth k l d :: skipn (S k) l.
Proof.
  revert k; induction l as [|x l IH]; intros k Hk; simpl in Hk; [lia|].
  destruct k as [|k]; [reflexivity|]. simpl. apply IH. lia.
Qed.

Lemma alignSignal_all_defined (vals : list A) (signalLine : list (option A)) (k : nat) :
  k + length vals <= length signalLine ->
  alignSignal (map Some vals) signalLine k
  = firstn (length vals) (skipn k signalLine).
Proof.
  revert k; induction vals as [|v vals IH]; intros k Hk; simpl in *; [reflexivity|].
  destruct (Nat.ltb_spec k (length signalLine)) as [Hlt | ?]; [|lia].
  rewrite (skipn_cons_nth _ signalLine k None Hlt). cbn [firstn].
  f_equal. apply IH. lia.
Qed.

Lemma macd_defined_at (prices : list A) (fast slow sig i : nat) :
  1 <= fast -> 1 <= slow -> 1 <= sig ->
  slow <= length prices -> i < length prices ->
  let d := calculateMACD prices fast slow sig in
  ((exists v, nth_error (macd d) i = Some (Some v)) <-> Nat.max fast slow - 1 <= i)
  /\ ((exists v, nth_error (signal d) i = Some (Some v))
      <-> Nat.max fast slow + sig - 2 <= i)
  /\ ((exists v, nth_error (histogram d) i = Some (Some v))
      <-> Nat.max fast slow + sig - 2 <= i).
Proof.
  intros Hf Hs Hg Hlen Hi d.
  assert (Hmacd : forall j, j < length prices ->
            ((exists v, nth_error (macd d) j = Some (Some v))
             <-> Nat.max fast slow - 1 <= j)).
  { intros j Hj. subst d. unfold calculateMACD.
    destruct (Nat.ltb_spec (length prices) slow) as [? | _]; [lia|].
    cbn [macd]. rewrite (nth_error_rows _ _ (length prices) j Hj).
    pose proof (ema_defined_iff prices fast j Hf Hj) as Ef.
    pose proof (ema_defined_iff prices slow j Hs Hj) as Es.
    rewrite (nth_error_nth' _ None) in Ef by (now rewrite calculateEMA_length).
    rewrite (nth_error_nth' _ None) in Es by (now rewrite calculateEMA_length).
    destruct (nth j (calculateEMA prices fast) None) as [x|];
      destruct (nth j (calculateEMA prices slow) None) as [y|]; cbn [subDefined].
    - split; [intros _|intros _; eexists; reflexivity].
      destruct Ef as (Ef & _). destruct Es as (Es & _).
      specialize (Ef (ex_intro _ x eq_refl)). specialize (Es (ex_intro _ y eq_refl)). lia.
    - split; [intros (v & Hv); discriminate|]. intros Hm.
      destruct Es as (_ & Es). destruct Es as (v & Hv); [lia | discriminate].
    - split; [intros (v & Hv); discriminate|]. intros Hm.
      destruct Ef as (_ & Ef). destruct Ef as (v & Hv); [|discriminate].
      split; [lia|]. destruct (Nat.lt_ge_cases (length prices) fast); lia.
    - split; [intros (v & Hv); discriminate|]. intros Hm.
      destruct Es as (_ & Es). destruct Es as (v & Hv); [lia | discriminate]. }
  pose proof (macd_lengths prices fast slow sig) as (Lm & Ls & Lh). fold d in Lm, Ls, Lh.
  assert (Hshape : forall j, j < length (macd d) ->
            ((exists v, nth_error (macd d) j = Some (Some v))
             <-> Nat.max fast slow - 1 <= j))
    by (intros j Hj; apply Hmacd; lia).
  destruct (absent_then_defined (macd d) (Nat.max fast slow - 1) Hshape)
    as (Hl & Hvals).
  assert (Hsignal : (exists v, nth_error (signal d) i = Some (Some v))
                    <-> Nat.max fast slow + sig - 2 <= i).
  { assert (Esig : signal d
                   = repeat None (Nat.min (Nat.max fast slow - 1) (length (macd d)))
                     ++ calculateEMA (defined (macd d)) sig).
    { subst d. unfold calculateMACD in *.
      destruct (Nat.ltb_spec (length prices) slow) as [? | _]; [lia|].
      cbn [macd signal] in *.
      set (macdLine := map (fun i0 => subDefined (nth i0 (calculateEMA prices fast) None)
                                                 (nth i0 (calculateEMA prices slow) None))
                           (seq 0 (length prices))) in *.
      rewrite Hl at 1.
      rewrite alignSignal_absent_prefix, alignSignal_all_defined
        by (rewrite calculateEMA_length; lia).
      rewrite skipn_O. rewrite <- (calculateEMA_length (defined macdLine) sig) at 1.
      now rewrite firstn_all. }
    rewrite Esig, Lm.
    destruct (Nat.lt_ge_cases i (Nat.min (Nat.max fast slow - 1) (length prices)))
      as [Hpre | Hpost].
    - rewrite nth_error_app1 by (rewrite repeat_length; exact Hpre).
      rewrite nth_error_repeat_lt by exact Hpre.
      split; [intros (v & Hv); discriminate | lia].
    - rewrite nth_error_app2 by (rewrite repeat_length; exact Hpost).
      rewrite repeat_length.
      assert (Hmin : Nat.min (Nat.max fast slow - 1) (length prices)
                     = Nat.max fast slow - 1) by lia.
      rewrite Hmin.
      pose proof (ema_defined_iff (defined (macd d)) sig
                    (i - (Nat.max fast slow - 1)) Hg ltac:(lia)) as E.
      rewrite E. lia. }
  split; [apply Hmacd, Hi|]. split; [exact Hsignal|].
  destruct (macd_histogram_facts prices fast slow sig Hlen i Hi) as (Habs & Hdef).
  fold d in Habs, Hdef.
  split.
  - intros (v & Hv).
    destruct (nth_error (macd d) i) as [[m|]|] eqn:Em;
      [|pose proof (proj2 Habs (or_introl eq_refl)); congruence
       |apply nth_error_None in Em; lia].
    destruct (nth_error (signal d) i) as [[s|]|] eqn:Es;
      [|pose proof (proj2 Habs (or_intror eq_refl)); congruence
       |apply nth_error_None in Es; lia].
    apply Hsignal. now exists s.
  - intros Hge. destruct (proj2 Hsignal Hge) as (s & Hs').
    destruct (proj2 (Hmacd i Hi) ltac:(lia)) as (m & Hm').
    eexists. apply (Hdef m s Hm' Hs').
Qed.

(** With positive periods and at least [slow] prices: the MACD line is
    defined exactly from index max(fast, slow) - 1 on, and the signal
    line and the histogram exactly from index
    max(fast, slow) + signal - 2 on. *)
Theorem macd_defined_range (prices : list A) (fast slow sig i : nat) :
  1 <= fast -> 1 <= slow -> 1 <= sig ->
  slow <= length prices -> i < length prices ->
  let d := calculateMACD prices fast slow sig in
  ((exists v, nth_error (macd d) i = Some (Some v)) <-> Nat.max fast slow - 1 <= i)
  /\ ((exists v, nth_error (signal d) i = Some (Some v))
      <-> Nat.max fast slow + sig - 2 <= i)
  /\ ((exists v, nth_error (histogram d) i = Some (Some v))
      <-> Nat.max fast slow + sig - 2 <= i).
Proof. exact (macd_defined_at prices fast slow sig i). Qed.

End MacdDefinedRange.

Open Scope float_scope.

Lemma macd_defined_range_witness :
  (exists v, nth_error (ChartPriceCall.signal
                          (ChartPriceCall.calculateMACD [10; 11; 12; 11; 10; 9; 10; 11] 2 3 2))
                       3 = Some (Some v))
  <-> (Nat.max 2 3 + 2 - 2 <= 3)%nat.
Proof.
  apply (macd_defined_range [10; 11; 12; 11; 10; 9; 10; 11] 2 3 2 3); simpl; lia.
Defined.

Close Scope float_scope.

(** ** The summary strings of the indicators *)

Section SummaryFacts.
Context {A : Type} {N : Num A}.
Import Summaries.

Lemma lastDefined_absent (l : list (option A)) :
  (forall i, i < length l -> nth_error l i = Some None) -> lastDefined l = None.
Proof. intros H. unfold lastDefined. now rewrite (defined_all_absent l H). Qed.

(** The last defined entry is the one after which all entries are
    absent. *)
Lemma lastDefined_at (l : list (option A)) (j : nat) (v : A) :
  nth_error l j = Some (Some v) ->
  (forall i, j < i -> i < length l -> nth_error l i = Some None) ->
  lastDefined l = Some v.
Proof.
  intros Hj Hafter.
  destruct (nth_error_split l j Hj) as (l1 & l2 & El & Ll1).
  assert (H2 : defined l2 = []).
  { apply defined_all_absent. intros i Hi.
    specialize (Hafter (j + 1 + i)).
    rewrite El, nth_error_app2 in Hafter by lia.
    replace (j + 1 + i - length l1) with (S i) in Hafter by lia.
    apply Hafter; [lia|]. rewrite length_app. simpl. lia. }
  unfold lastDefined, defined in *. rewrite El, flat_map_app. cbn [flat_map].
  rewrite H2. cbn [app]. now rewrite rev_app_distr.
Qed.

Lemma absent_or_defined (l : list (option A)) (i : nat) :
  i < length l -> ~ (exists v, nth_error l i = Some (Some v)) ->
  nth_error l i = Some None.
Proof.
  intros Hi Hno. destruct (nth_error l i) as [[v|]|] eqn:E.
  - exfalso. apply Hno. now exists v.
  - reflexivity.
  - apply nth_error_None in E. lia.
Qed.

End SummaryFacts.

Section RsiSummary.
Context {A : Type} {N : Num A}.
Import ChartPriceCall Summaries.
Local Infix "++" := String.append (right associativity, at level 60) : string_scope.

(** [getRSIInfo] after [calculateRSI]: with fewer than period + 1 prices
    the summary is N/A; otherwise it reports the last entry of the RSI
    array, with the status read off the two thresholds. *)
Theorem rsi_summary_shows_last_value (toFixed : nat -> A -> String.string)
        (prices : list A) (period : nat) (overbought oversold : A) :
  let rsi := calculateRSI prices period in
  (length prices < period + 1 ->
   getRSIInfo toFixed rsi overbought oversold = "N/A"%string)
  /\ (period + 1 <= length prices ->
      exists currentRSI,
        nth_error rsi (length rsi - 1) = Some (Some currentRSI)
        /\ getRSIInfo toFixed rsi overbought oversold
           = ("Current: " ++ toFixed 2 currentRSI ++ "% | Status: "
              ++ (if (currentRSI >=? overbought)%num then "Overbought"
                  else if (currentRSI <=? oversold)%num then "Oversold"
                  else "Neutral"))%string).
Proof.
  intros rsi. split.
  - intros Hshort. subst rsi. unfold calculateRSI.
    destruct (Nat.ltb_spec (length prices) (period + 1)) as [_ | ?]; [|lia].
    unfold getRSIInfo. rewrite lastDefined_absent.
    + now destruct (repeat None (length prices)).
    + intros i Hi. rewrite repeat_length in Hi. now apply nth_error_repeat_lt.
  - intros Hlen.
    pose proof (calculateRSI_averages prices period Hlen) as E. fold rsi in E.
    pose proof (rsiAverages_length prices period Hlen) as L.
    assert (Lrsi : length rsi = S (length prices - period))
      by (rewrite E; cbn [length]; now rewrite length_map, L).
    destruct (nth_error (rsiAverages prices period) (length prices - period - 1))
      as [gl|] eqn:Egl; [|apply nth_error_None in Egl; lia].
    exists (rsiOf (fst gl) (snd gl)).
    assert (Hlast : nth_error rsi (length rsi - 1)
                    = Some (Some (rsiOf (fst gl) (snd gl)))).
    { rewrite Lrsi, E.
      replace (S (length prices - period) - 1) with (S (length prices - period - 1))
        by lia.
      cbn [nth_error]. now rewrite nth_error_map, Egl. }
    split; [exact Hlast|].
    unfold getRSIInfo.
    rewrite (lastDefined_at rsi (length rsi - 1) _ Hlast) by (intros; lia).
    rewrite E. reflexivity.
Qed.

End RsiSummary.

Section MacdSummary.
Context {A : Type} {N : Num A}.
Import ChartPriceCall Summaries.
Local Infix "++" := String.append (right associativity, at level 60) : string_scope.

(** [getMACDInfo] after [calculateMACD], with positive periods: the
    summary is N/A with fewer than max(fast, slow) + signal - 1 prices;
    otherwise it reports the last entries of the three arrays and
    compares the first two. *)
Theorem macd_summary_shows_last_values (toFixed : nat -> A -> String.string)
        (prices : list A) (fast slow sig : nat) :
  1 <= fast -> 1 <= slow -> 1 <= sig ->
  let d := calculateMACD prices fast slow sig in
  (length prices < Nat.max fast slow + sig - 1 ->
   getMACDInfo toFixed d = "N/A"%string)
  /\ (Nat.max fast slow + sig - 1 <= length prices ->
      exists currentMACD currentSignal currentHistogram,
        nth_error (macd d) (length prices - 1) = Some (Some currentMACD)
        /\ nth_error (signal d) (length prices - 1) = Some (Some currentSignal)
        /\ nth_error (histogram d) (length prices - 1) = Some (Some currentHistogram)
        /\ getMACDInfo toFixed d
           = ("MACD: " ++ toFixed 3 currentMACD
              ++ " | Signal: " ++ toFixed 3 currentSignal
              ++ " | Histogram: " ++ toFixed 3 currentHistogram ++ " | "
              ++ (if (currentMACD >? currentSignal)%num then "Bullish"
                  else if (currentMACD <? currentSignal)%num then "Bearish"
                  else "Neutral"))%string).
Proof.
  intros Hf Hs Hg d.
  pose proof (macd_lengths prices fast slow sig) as (Lm & Ls & Lh). fold d in Lm, Ls, Lh.
  split.
  - intros Hshort. unfold getMACDInfo.
    assert (Hsig : lastDefined (signal d) = None).
    { apply lastDefined_absent. intros i Hi. rewrite Ls in Hi.
      destruct (Nat.lt_ge_cases (length prices) slow) as [Hlt | Hge].
      - subst d. unfold calculateMACD.
        destruct (Nat.ltb_spec (length prices) slow) as [_ | ?]; [|lia].
        cbn [signal]. now apply nth_error_repeat_lt.
      - apply absent_or_defined; [lia|]. intros Hdef.
        apply (macd_defined_at prices fast slow sig i Hf Hs Hg Hge Hi) in Hdef. lia. }
    rewrite Hsig. destruct (macd d); [reflexivity|].
    now destruct (lastDefined (o :: l)).
  - intros Hlen.
    assert (Hslow : slow <= length prices) by lia.
    assert (Hi : length prices - 1 < length prices) by lia.
    destruct (macd_defined_at prices fast slow sig _ Hf Hs Hg Hslow Hi) as (Hm & Hsg & Hh).
    fold d in Hm, Hsg, Hh.
    destruct (proj2 Hm ltac:(lia)) as (m & Em).
    destruct (proj2 Hsg ltac:(lia)) as (s & Es).
    destruct (proj2 Hh ltac:(lia)) as (h & Eh).
    exists m, s, h. split; [exact Em|]. split; [exact Es|]. split; [exact Eh|].
    unfold getMACDInfo.
    rewrite (lastDefined_at _ _ _ Em) by (intros; lia).
    rewrite (lastDefined_at _ _ _ Es) by (intros; lia).
    rewrite (lastDefined_at _ _ _ Eh) by (intros; lia).
    destruct (macd d) eqn:E; [simpl in Lm; lia | reflexivity].
Qed.

End MacdSummary.

Section DmiSummary.
Context {A : Type} {N : Num A}.
Import ChartDmi Summaries.
Local Infix "++" := String.append (right associativity, at level 60) : string_scope.

Lemma dmi_summary_facts (toFixed : nat -> A -> String.string)
      (prices : list A) (n : nat) :
  1 <= n ->
  let d := calculateDMI prices n in
  (length prices < n + 1 -> getDMIInfo toFixed d = "N/A"%string)
  /\ (n + 1 <= length prices ->
      exists currentPlusDI currentMinusDI,
        nth_error (plusDI d) (length prices - 1) = Some (Some currentPlusDI)
        /\ nth_error (minusDI d) (length prices - 1) = Some (Some currentMinusDI)
        /\ forall currentADX,
             (3 * n - 1 <= length prices
              /\ nth_error (adx d) (length prices - n) = Some (Some currentADX))
             \/ (length prices < 3 * n - 1 /\ currentADX = ($0)%num) ->
             getDMIInfo toFixed d
             = ("DI+: " ++ toFixed 1 currentPlusDI
                ++ " | DI-: " ++ toFixed 1 currentMinusDI
                ++ " | ADX: " ++ toFixed 1 currentADX ++ " | "
                ++ (if (currentPlusDI >? currentMinusDI)%num then "Bullish"
                    else if (currentMinusDI >? currentPlusDI)%num then "Bearish"
                    else "Neutral")
                ++ " ("
                ++ (if (currentADX >=? $50)%num then "Very Strong"
                    else if (currentADX >=? $25)%num then "Strong"
                    else if (currentADX >=? $20)%num then "Moderate"
                    else "Weak")
                ++ ")")%string).
Proof.
  intros Hn d.
  pose proof (calculateDMI_lengths prices n) as (Lp & Lm & La). fold d in Lp, Lm, La.
  split.
  - intros Hshort. subst d. unfold calculateDMI.
    destruct (Nat.ltb_spec (length prices) (n + 1)) as [_ | ?]; [|lia].
    unfold getDMIInfo. cbn [plusDI minusDI adx].
    rewrite lastDefined_absent.
    + now destruct (repeat None (length prices)).
    + intros i Hi. rewrite repeat_length in Hi. now apply nth_error_repeat_lt.
  - intros Hlen.
    assert (Hi : length prices - 1 < length prices) by lia.
    destruct (ChartDmi_defined_at prices n _ Hn Hlen Hi) as (Hp & Hm & _).
    fold d in Hp, Hm.
    destruct (proj2 Hp ltac:(lia)) as (p & Ep).
    destruct (proj2 Hm ltac:(lia)) as (m & Em).
    exists p, m. split; [exact Ep|]. split; [exact Em|].
    intros a Ha. unfold getDMIInfo.
    rewrite (lastDefined_at _ _ _ Ep) by (intros; lia).
    rewrite (lastDefined_at _ _ _ Em) by (intros; lia).
    assert (Hadx : match lastDefined (adx d) with Some x => x | None => ($0)%num end = a).
    { destruct Ha as [(Hmany & Ea) | (Hfew & Ea)].
      - rewrite (lastDefined_at _ _ _ Ea); [reflexivity|].
        intros i Hi1 Hi2. rewrite La in Hi2.
        apply absent_or_defined; [lia|]. intros Hdef.
        apply (ChartDmi_defined_at prices n i Hn Hlen Hi2) in Hdef. lia.
      - rewrite lastDefined_absent; [now rewrite Ea|].
        intros i Hi'. rewrite La in Hi'.
        apply absent_or_defined; [lia|]. intros Hdef.
        apply (ChartDmi_defined_at prices n i Hn Hlen Hi') in Hdef. lia. }
    rewrite Hadx.
    destruct (plusDI d) eqn:E; [simpl in Lp; lia | reflexivity].
Qed.

(** [getDMIInfo] after [calculateDMI] of ChartDmiComponent, with Wilder
    length n >= 1: the summary is N/A with at most n prices; otherwise
    it reports the last +DI and -DI entries, and as ADX the entry at
    index len - n (the last one that is defined) when there are at
    least 3n - 1 prices, and 0 when there are fewer. *)
Theorem dmi_summary_shows_last_values (toFixed : nat -> A -> String.string)
        (prices : list A) (n : nat) :
  1 <= n ->
  let d := calculateDMI prices n in
  (length prices < n + 1 -> getDMIInfo toFixed d = "N/A"%string)
  /\ (n + 1 <= length prices ->
      exists currentPlusDI currentMinusDI,
        nth_error (plusDI d) (length prices - 1) = Some (Some currentPlusDI)
        /\ nth_error (minusDI d) (length prices - 1) = Some (Some currentMinusDI)
        /\ forall currentADX,
             (3 * n - 1 <= length prices
              /\ nth_error (adx d) (length prices - n) = Some (Some currentADX))
             \/ (length prices < 3 * n - 1 /\ currentADX = ($0)%num) ->
             getDMIInfo toFixed d
             = ("DI+: " ++ toFixed 1 currentPlusDI
                ++ " | DI-: " ++ toFixed 1 currentMinusDI
                ++ " | ADX: " ++ toFixed 1 currentADX ++ " | "
                ++ (if (currentPlusDI >? currentMinusDI)%num then "Bullish"
                    else if (currentMinusDI >? currentPlusDI)%num then "Bearish"
                    else "Neutral")
                ++ " ("
                ++ (if (currentADX >=? $50)%num then "Very Strong"
                    else if (currentADX >=? $25)%num then "Strong"
                    else if (currentADX >=? $20)%num then "Moderate"
                    else "Weak")
                ++ ")")%string).
Proof. exact (dmi_summary_facts toFixed prices n). Qed.

End DmiSummary.

Section DmiSummaryWithoutAdx.
Import ChartDmi Summaries.
Local Infix "++" := String.append (right associativity, at level 60) : string_scope.

(** In binary64, with n >= 1 and between n + 1 and 3n - 2 prices, no ADX
    value exists yet and the summary of ChartDmiComponent shows the
    ADX as 0 with the strength Weak. *)
Theorem dmi_summary_without_adx (toFixed : nat -> float -> String.string)
        (prices : list float) (n : nat) :
  1 <= n -> n + 1 <= length prices -> length prices < 3 * n - 1 ->
  exists currentPlusDI currentMinusDI trend,
    getDMIInfo toFixed (calculateDMI prices n)
    = ("DI+: " ++ toFixed 1 currentPlusDI
       ++ " | DI-: " ++ toFixed 1 currentMinusDI
       ++ " | ADX: " ++ toFixed 1 0%float ++ " | " ++ trend ++ " (Weak)")%string.
Proof.
  intros Hn Hlen Hfew.
  destruct (dmi_summary_facts toFixed prices n Hn) as (_ & H).
  destruct (H Hlen) as (p & m & _ & _ & Hinfo).
  exists p, m. eexists.
  rewrite (Hinfo 0%float) by (right; split; [exact Hfew | reflexivity]).
  reflexivity.
Qed.

End DmiSummaryWithoutAdx.

Section TtmSummary.
Context {A : Type} {N : Num A} {M : MathMinMax A}.
Import ChartTtmSqueeze Summaries.
Local Infix "++" := String.append (right associativity, at level 60) : string_scope.

(** [getTTMSqueezeInfo] after [calculateTTMSqueeze] of
    ChartTtmSqueezeComponent never fails on a missing entry: with no
    price, or fewer prices than the period, the summary is N/A;
    otherwise it reports the last entries of the bands, of the momentum
    and of the squeeze flags. *)
Theorem ttm_summary_shows_last_values (toFixed : nat -> A -> String.string)
        (prices : list A) (period : nat) (kc bb : A) :
  let d := calculateTTMSqueeze prices period kc bb in
  (length prices = 0 \/ length prices < period ->
   getTTMSqueezeInfo toFixed (Some d) = ChartPricePut.Returns "N/A"%string)
  /\ (1 <= length prices -> period <= length prices ->
      exists upper lower momentumVal isInSqueeze,
        nth_error (upperBand d) (length prices - 1) = Some (Some upper)
        /\ nth_error (lowerBand d) (length prices - 1) = Some (Some lower)
        /\ nth_error (momentum d) (length prices - 1) = Some (Some momentumVal)
        /\ nth_error (squeeze d) (length prices - 1) = Some isInSqueeze
        /\ getTTMSqueezeInfo toFixed (Some d)
           = ChartPricePut.Returns
               ("Upper: $" ++ toFixed 2 upper ++ " | Lower: $" ++ toFixed 2 lower
                ++ " | Momentum: " ++ toFixed 4 momentumVal ++ " | Status: "
                ++ (if isInSqueeze then "IN SQUEEZE" else "NO SQUEEZE"))%string).
Proof.
  intros d.
  assert (Lu : length (upperBand d) = length prices)
    by (subst d; unfold calculateTTMSqueeze; cbn [upperBand];
        now rewrite !length_map, length_seq).
  split.
  - intros Hshort. unfold getTTMSqueezeInfo. rewrite Lu.
    destruct (length prices) as [|lastIndex] eqn:El; [reflexivity|].
    destruct Hshort as [? | Hshort]; [discriminate|].
    assert (Hi : lastIndex < length prices) by lia.
    destruct (ttm_component_at prices period kc bb lastIndex Hi) as (Hu & _).
    fold d in Hu. rewrite Hu. unfold firstPassAt.
    destruct (Nat.ltb_spec lastIndex (period - 1)) as [_ | ?]; [reflexivity | lia].
  - intros H1 Hp.
    assert (Hi : length prices - 1 < length prices) by lia.
    destruct (ttm_component_at prices period kc bb _ Hi) as (Hu & Hl & Hm & _ & Hs).
    fold d in Hu, Hl, Hm, Hs.
    unfold getTTMSqueezeInfo. rewrite Lu.
    destruct (length prices) as [|lastIndex] eqn:El; [lia|].
    replace (S lastIndex - 1) with lastIndex in * by lia.
    assert (E : exists u l m s,
               firstPassAt prices period kc bb lastIndex = (Some u, Some l, Some m, s)).
    { unfold firstPassAt.
      destruct (Nat.ltb_spec lastIndex (period - 1)) as [? | _]; [lia|].
      do 4 eexists. reflexivity. }
    destruct E as (u & l & m & s & E). rewrite E in Hu, Hl, Hm, Hs.
    cbn [fst snd] in Hu, Hl, Hm, Hs.
    exists u, l, m, s.
    rewrite Hu, Hl, Hm, (nth_error_nth _ _ false Hs), Hs.
    repeat (split; [reflexivity|]). reflexivity.
Qed.

End TtmSummary.

Open Scope float_scope.

Lemma rsi_summary_shows_last_value_witness :
  Summaries.getRSIInfo (fun (_ : nat) (_ : float) => "x"%string)
                       (ChartPriceCall.calculateRSI [1; 2; 3] 14) 70 30
  = "N/A"%string.
Proof.
  apply (rsi_summary_shows_last_value (fun (_ : nat) (_ : float) => "x"%string) [1; 2; 3] 14 70 30).
  simpl; lia.
Defined.

Lemma macd_summary_shows_last_values_witness :
  Summaries.getMACDInfo (fun (_ : nat) (_ : float) => "x"%string)
                        (ChartPriceCall.calculateMACD [10; 11; 12] 2 3 2)
  = "N/A"%string.
Proof.
  apply (macd_summary_shows_last_values (fun (_ : nat) (_ : float) => "x"%string) [10; 11; 12] 2 3 2);
    simpl; lia.
Defined.

Lemma dmi_summary_shows_last_values_witness :
  Summaries.getDMIInfo (fun (_ : nat) (_ : float) => "x"%string) (ChartDmi.calculateDMI [1; 2] 2)
  = "N/A"%string.
Proof.
  apply (dmi_summary_shows_last_values (fun (_ : nat) (_ : float) => "x"%string) [1; 2] 2); simpl; lia.
Defined.

Lemma dmi_summary_without_adx_witness :
  exists currentPlusDI currentMinusDI trend,
    Summaries.getDMIInfo (fun (_ : nat) (_ : float) => "x"%string)
                         (ChartDmi.calculateDMI [1; 2; 3; 4; 3] 3)
    = String.append "DI+: "
        (String.append ((fun (_ : nat) (_ : float) => "x"%string) 1%nat currentPlusDI)
           (String.append " | DI-: "
              (String.append ((fun (_ : nat) (_ : float) => "x"%string) 1%nat currentMinusDI)
                 (String.append " | ADX: "
                    (String.append ((fun (_ : nat) (_ : float) => "x"%string) 1%nat 0)
                       (String.append " | " (String.append trend " (Weak)"))))))).
Proof.
  apply (dmi_summary_without_adx (fun (_ : nat) (_ : float) => "x"%string) [1; 2; 3; 4; 3] 3);
    simpl; lia.
Defined.

Lemma ttm_summary_shows_last_values_witness :
  Summaries.getTTMSqueezeInfo (fun (_ : nat) (_ : float) => "x"%string)
    (Some (ChartTtmSqueeze.calculateTTMSqueeze [1; 2] 3 2 2))
  = ChartPricePut.Returns "N/A"%string.
Proof.
  apply (ttm_summary_shows_last_values (fun (_ : nat) (_ : float) => "x"%string) [1; 2] 3 2 2).
  right. simpl; lia.
Defined.

Close Scope float_scope.

(** ** Grouping by import date computes the mean price of each date *)

Section GroupingProperties.
Context {A : Type} {N : Num A}.
Import PriceData.
Variable inherited : String.string -> bool.

Lemma lookup_new_key (grouped : Grouped A) (date : String.string) (g : Group A)
      (key : String.string) :
  lookup (grouped ++ [(date, g)]) key
  = match lookup grouped key with
    | Some x => Some x
    | None => if String.eqb date key then Some g else None
    end.
Proof.
  induction grouped as [|[k x] rest IH]; simpl; [reflexivity|].
  destruct (String.eqb k key); [reflexivity | exact IH].
Qed.

Lemma lookup_update (grouped : Grouped A) (date : String.string)
      (f : Group A -> Group A) (key : String.string) :
  lookup (update grouped date f) key
  = if String.eqb date key then option_map f (lookup grouped key)
    else lookup grouped key.
Proof.
  induction grouped as [|[k x] rest IH]; simpl.
  - now destruct (String.eqb date key).
  - destruct (String.eqb k date) eqn:Ekd; simpl.
    + apply String.eqb_eq in Ekd. subst k.
      destruct (String.eqb date key); reflexivity.
    + rewrite IH. destruct (String.eqb date key) eqn:Edk; [|reflexivity].
      apply String.eqb_eq in Edk. subst key. now rewrite Ekd.
Qed.

Lemma lookup_map_values (h : Group A -> Group A) (grouped : Grouped A)
      (key : String.string) :
  lookup (map (fun kg => (fst kg, h (snd kg))) grouped) key
  = option_map h (lookup grouped key).
Proof.
  induction grouped as [|[k x] rest IH]; simpl; [reflexivity|].
  destruct (String.eqb k key); [reflexivity | exact IH].
Qed.

(** What the first loop has accumulated after the rows [data]. *)
Lemma grouped_sums (data : list (Item A)) (date : String.string) :
  lookup (fold_left (addItem inherited) data []) date
  = if (String.eqb date "" || inherited date)%bool then None
    else match pricesOn data date with
         | [] => None
         | ps => Some {| avgPrice := sum ps; count := length ps |}
         end.
Proof.
  induction data as [|item data IH] using rev_ind.
  - simpl. now destruct (String.eqb date "" || inherited date)%bool.
  - rewrite fold_left_app. cbn [fold_left].
    unfold pricesOn in *. rewrite flat_map_app. cbn [flat_map].
    rewrite app_nil_r.
    set (grouped := fold_left (addItem inherited) data []) in *.
    unfold addItem.
    destruct (imported_date item) as [d|]; [|now rewrite app_nil_r].
    destruct (underlying_price item) as [price|]; [|now rewrite app_nil_r].
    destruct (String.eqb d "") eqn:Eempty.
    { apply String.eqb_eq in Eempty. subst d. rewrite IH.
      destruct (String.eqb date "") eqn:E; [reflexivity|].
      rewrite String.eqb_sym, E. now rewrite app_nil_r. }
    destruct (inherited d) eqn:Einh.
    { rewrite IH.
      destruct (String.eqb d date) eqn:E; [|now rewrite app_nil_r].
      apply String.eqb_eq in E. subst d. rewrite Einh, orb_true_r. reflexivity. }
    rewrite lookup_update.
    destruct (String.eqb d date) eqn:E.
    + apply String.eqb_eq in E. subst d. rewrite Eempty, Einh in *. cbn [orb] in *.
      destruct (lookup grouped date) as [g|] eqn:Eg.
      * rewrite Eg.
        destruct (flat_map _ data) as [|p ps] eqn:Eps; [discriminate|].
        injection IH as ->. cbn [option_map avgPrice count].
        assert (Hsum : sum ((p :: ps) ++ [price]) = (sum (p :: ps) + price)%num)
          by (unfold sum; now rewrite fold_left_app).
        rewrite <- Hsum. cbn [app]. cbn [length]. now rewrite length_app, Nat.add_1_r.
      * rewrite lookup_new_key, Eg, String.eqb_refl.
        destruct (flat_map _ data) as [|p ps] eqn:Eps; [|discriminate].
        reflexivity.
    + rewrite app_nil_r.
      destruct (lookup grouped d) as [g|] eqn:Eg; [exact IH|].
      rewrite lookup_new_key, E, <- IH. now destruct (lookup grouped date).
Qed.

(** [groupDataByDate]: a date has an entry exactly when some row with a
    price was imported on it (and it is not empty and not the name of an
    inherited property); the entry holds the number of these rows and
    the mean of their prices, summed in the order of the rows. *)
Theorem groupDataByDate_means (data : list (Item A)) (date : String.string) :
  lookup (groupDataByDate inherited data) date
  = if (String.eqb date "" || inherited date)%bool then None
    else match pricesOn data date with
         | [] => None
         | ps => Some {| avgPrice := (sum ps / #(length ps))%num;
                         count := length ps |}
         end.
Proof.
  pose proof (lookup_map_values
                (fun g => {| avgPrice := (avgPrice g / #(count g))%num;
                             count := count g |})
                (fold_left (addItem inherited) data []) date) as H.
  cbv beta in H. unfold groupDataByDate. rewrite H, grouped_sums.
  destruct (String.eqb date "" || inherited date)%bool; [reflexivity|].
  now destruct (pricesOn data date).
Qed.

End GroupingProperties.
